(** * GraphExample.py: edge-list and adjacency-map graphs

    A shallow embedding of [src/GraphExample.py] (Python 2) and the
    properties of its two graph classes, [Graph1] (a list of vertices and a
    list of normalised edges) and [Graph2] (a dict from a vertex to the list
    of its neighbours), and of the factory class methods of [GraphObject].

    Conventions of the embedding:
    - a Python [int] is a [Z], a tuple of two ints a pair, a list a [list];
    - a dict is a [gmap]; iterating a dict visits its keys in the order of
      [map_to_list], which, like the order of a Python 2 dict, is fixed but
      arbitrary: no statement below depends on it;
    - a method that may raise returns a [res]; a method that both mutates
      [self] and may raise returns the outcome together with the state
      [self] is left in;
    - loops that Python runs until a flag settles, and the recursion of
      [find], take a fuel argument. *)

From Stdlib Require Import Ascii.
From stdpp Require Import gmap list strings sorting.

Local Open Scope Z_scope.
#[local] Set Warnings "-clear-no-such-hyp".

(** ** Python outcomes *)

Inductive exn := KeyError | ValueError | IOError.

Inductive res (A : Type) :=
  | Ok (a : A)
  | Raise (e : exn)
  | OutOfFuel.
Arguments Ok {A} a.
Arguments Raise {A} e.
Arguments OutOfFuel {A}.

#[global] Instance res_ret : MRet res := @Ok.
#[global] Instance res_bind : MBind res := λ A B f m,
  match m with
  | Ok a => f a
  | Raise e => Raise e
  | OutOfFuel => OutOfFuel
  end.

#[global] Instance exn_eq_dec : EqDecision exn.
Proof. solve_decision. Defined.

(** A [for] loop whose body may raise: the first exception ends it. *)
Fixpoint for_each {A S : Type} (body : S → A → res S) (s : S) (l : list A) : res S :=
  match l with
  | [] => Ok s
  | x :: l' => s' ← body s x; for_each body s' l'
  end.

(** ** Python containers *)

(** [l.remove(x)]: drops the first occurrence; [None] stands for the
    [ValueError] raised when there is none. *)
Fixpoint py_remove {A : Type} `{EqDecision A} (x : A) (l : list A) : option (list A) :=
  match l with
  | [] => None
  | y :: l' => if decide (x = y) then Some l' else cons y <$> py_remove x l'
  end.

(** [dict(l)] for a list of pairs: a later pair overrides an earlier one. *)
Definition py_dict {V : Type} (l : list (Z * V)) : gmap Z V :=
  fold_left (λ m kv, <[kv.1 := kv.2]> m) l ∅.

(** [d[k]], raising [KeyError] on a missing key. *)
Definition getitem {V : Type} (d : gmap Z V) (k : Z) : res V :=
  match d !! k with
  | Some v => Ok v
  | None => Raise KeyError
  end.

(** [d.keys()], also the order of [for k in d]. *)
Definition keys {V : Type} (d : gmap Z V) : list Z := (map_to_list d).*1.

(** [range(n)] *)
Definition range (n : Z) : list Z := seqZ 0 n.

(** [a in ee] for a pair [ee]. *)
Definition in_pair (a : Z) (ee : Z * Z) : Prop := a = ee.1 ∨ a = ee.2.

#[global] Instance in_pair_dec a ee : Decision (in_pair a ee).
Proof. unfold in_pair. apply _. Defined.

(** [(min(x), max(x))] for a pair [x]. *)
Definition norm (x : Z * Z) : Z * Z := (Z.min x.1 x.2, Z.max x.1 x.2).

(** [len(set(d.values())) == 1] *)
Definition one_value (d : gmap Z Z) : bool :=
  bool_decide (size (list_to_set (map_to_list d).*2 : gset Z) = 1%nat).

(** ** The union-find helper shared by both [isConnected2] methods

    [find] is the closure defined inside [isConnected2]; the dict it
    mutates is threaded through. The fuel bounds the recursion depth. *)
Fixpoint find (fuel : nat) (buckets : gmap Z Z) (v : Z) : res (Z * gmap Z Z) :=
  match fuel with
  | O => OutOfFuel
  | S fuel' =>
      ff ← getitem buckets v;
      if bool_decide (ff = v) then Ok (v, buckets)
      else
        '(f2, buckets') ← find fuel' buckets ff;
        Ok (f2, <[v := f2]> buckets')
  end.

(** The body run for one pair [(u, v)] by both [isConnected2] loops. *)
Definition union_step (fuel : nat) (st : bool * Z * gmap Z Z) (u v : Z)
  : res (bool * Z * gmap Z Z) :=
  let '(change, valuesCnt, buckets) := st in
  '(ff, buckets1) ← find fuel buckets u;
  '(gg, buckets2) ← find fuel buckets1 v;
  if bool_decide (ff ≠ gg)
  then Ok (true, valuesCnt - 1, <[gg := ff]> buckets2)
  else Ok (change, valuesCnt, buckets2).

(** [while change: change = 0; <pass>]: [pass] starts from [change = 0] and
    returns the flag it ends with. *)
Fixpoint while_change {S : Type} (fuel : nat) (pass : S → res (bool * S)) (s : S) : res S :=
  match fuel with
  | O => OutOfFuel
  | S fuel' =>
      '(change, s') ← pass s;
      if change : bool then while_change fuel' pass s' else Ok s'
  end.

(** ** Graph1: a list of vertices and a list of edges *)

Module Graph1.

Record t := Graph1 { vertices : list Z; edges : list (Z * Z) }.

(** [__init__] *)
Definition init (vs : list Z) (es : list (Z * Z)) : t :=
  Graph1 vs (norm <$> es).

(** [__len__] *)
Definition len (g : t) : nat := length (vertices g).

Definition hasVertex (g : t) (a : Z) : bool := bool_decide (a ∈ vertices g).

Definition hasEdge (g : t) (a b : Z) : bool :=
  let aa := Z.min a b in
  let bb := Z.max a b in
  bool_decide ((aa, bb) ∈ edges g).

Definition addVertex (g : t) (a : Z) : t :=
  Graph1 (vertices g ++ [a]) (edges g).

Definition addVertexCleanly (g : t) (a : Z) : bool * t :=
  if bool_decide (a ∉ vertices g) then (true, Graph1 (vertices g ++ [a]) (edges g))
  else (false, g).

(** The [ValueError] of [remove] is caught and nothing else is done. *)
Definition deleteVertex (g : t) (a : Z) : t :=
  match py_remove a (vertices g) with
  | Some vs => Graph1 vs (filter (λ ee, ¬ in_pair a ee) (edges g))
  | None => g
  end.

(** [self.edges.append((min(a,b), max(a,b)))] *)
Definition append_edge (g : t) (a b : Z) : t :=
  Graph1 (vertices g) (edges g ++ [(Z.min a b, Z.max a b)]).

Definition addEdge (g : t) (a b : Z) : bool * t :=
  if negb (hasEdge g a b) then
    if bool_decide (a ∈ vertices g) && bool_decide (b ∈ vertices g) then
      (true, append_edge g a b)
    else if bool_decide (a ∈ vertices g) then
      (true, append_edge (addVertex g b) a b)
    else if bool_decide (b ∈ vertices g) then
      (true, append_edge (addVertex g a) a b)
    else
      (true, append_edge (addVertex (addVertex g a) b) a b)
  else (false, g).

Definition addEdges (g : t) (newEdges : list (Z * Z)) : t :=
  fold_left (λ g ee, (addEdge g ee.1 ee.2).2) newEdges g.

(** The [ValueError] of [remove] is caught. *)
Definition deleteEdge (g : t) (a b : Z) : t :=
  let aa := Z.min a b in
  let bb := Z.max a b in
  match py_remove (aa, bb) (edges g) with
  | Some es => Graph1 (vertices g) es
  | None => g
  end.

Definition degree (g : t) (v : Z) : nat :=
  length (filter (in_pair v) (edges g)).

Definition degreeFn (g : t) : gmap Z nat :=
  py_dict ((λ v, (v, degree g v)) <$> vertices g).

(** The innermost loop of [isConnected1]:
    [for vv in buckets: if buckets[vv] == tmp: buckets[vv] = buckets[ee[0]]] *)
Definition relabel (e0 tmp : Z) (buckets : gmap Z Z) : res (gmap Z Z) :=
  for_each (λ bk vv,
      x ← getitem bk vv;
      if bool_decide (x = tmp) then y ← getitem bk e0; Ok (<[vv := y]> bk)
      else Ok bk)
    buckets (keys buckets).

(** The body of [for ee in self.edges] in [isConnected1]; the state is
    [change] and [buckets]. *)
Definition step1 (st : bool * gmap Z Z) (ee : Z * Z) : res (bool * gmap Z Z) :=
  let '(change, bk) := st in
  x ← getitem bk ee.1;
  y ← getitem bk ee.2;
  if bool_decide (x ≠ y) then
    tmp ← getitem bk ee.2;
    bk' ← relabel ee.1 tmp bk;
    Ok (true, bk')
  else Ok (change, bk).

(** One run of [for ee in self.edges] in [isConnected1]. *)
Definition pass1 (es : list (Z * Z)) (buckets : gmap Z Z) : res (bool * gmap Z Z) :=
  for_each step1 (false, buckets) es.

Definition isConnected1 (fuel : nat) (g : t) : res bool :=
  let buckets := py_dict ((λ v, (v, v)) <$> vertices g) in
  buckets' ← while_change fuel (pass1 (edges g)) buckets;
  Ok (one_value buckets').

(** One run of [for ee in self.edges] in [isConnected2]; the state is
    [valuesCnt] and [buckets]. *)
Definition pass2 (fuel : nat) (es : list (Z * Z)) (st : Z * gmap Z Z)
  : res (bool * (Z * gmap Z Z)) :=
  '(change, cnt, bk) ← for_each (λ st ee, union_step fuel st ee.1 ee.2)
                         (false, st.1, st.2) es;
  Ok (change, (cnt, bk)).

Definition isConnected2 (fuel : nat) (g : t) : res bool :=
  let buckets := py_dict ((λ v, (v, v)) <$> vertices g) in
  let valuesCnt := Z.of_nat (length (vertices g)) in
  '(valuesCnt', _) ← while_change fuel (pass2 fuel (edges g)) (valuesCnt, buckets);
  Ok (bool_decide (valuesCnt' = 1)).

(** The instance method [copy], as a value: the new object's fields. The
    sharing of the vertex list is the subject of [Store] below. *)
Definition copy (g : t) : t := init (vertices g) (edges g).

End Graph1.

(** ** Graph2: an adjacency dict *)

Module Graph2.

Record t := Graph2 { graph : gmap Z (list Z) }.

(** [self.graph[k].append(x)] *)
Definition append_to (gr : gmap Z (list Z)) (k x : Z) : res (gmap Z (list Z)) :=
  l ← getitem gr k; Ok (<[k := l ++ [x]]> gr).

(** [__init__]: a [KeyError] escapes when an endpoint is not a vertex. *)
Definition init (vs : list Z) (es : list (Z * Z)) : res t :=
  gr ← for_each (λ gr ee, gr1 ← append_to gr ee.1 ee.2; append_to gr1 ee.2 ee.1)
         (py_dict ((λ v, (v, [])) <$> vs)) es;
  Ok (Graph2 gr).

(** The property [vertices]: in Python 2, [keys()] is a new list. *)
Definition vertices (g : t) : list Z := keys (graph g).

(** The property [edges] *)
Definition edges (g : t) : list (Z * Z) :=
  u ← keys (graph g);
  v ← default [] (graph g !! u);
  if bool_decide (u < v) then [(u, v)] else [].

(** [__len__] *)
Definition len (g : t) : nat := size (graph g).

Definition hasVertex (g : t) (a : Z) : bool := bool_decide (is_Some (graph g !! a)).

Definition hasEdge (g : t) (a b : Z) : bool :=
  match graph g !! a with
  | Some l => bool_decide (b ∈ l)
  | None => false
  end.

Definition addVertex (g : t) (a : Z) : t := Graph2 (<[a := []]> (graph g)).

Definition addVertexCleanly (g : t) (a : Z) : bool * t :=
  if bool_decide (graph g !! a = None) then (true, Graph2 (<[a := []]> (graph g)))
  else (false, g).

(** [for xx in otherVerts: self.graph[xx].remove(a)]: a [KeyError] ends the
    loop and is caught by the [except] clause of [deleteVertex]; a
    [ValueError] escapes. Either way the removals done so far stay. *)
Fixpoint strip_vertex (a : Z) (otherVerts : list Z) (gr : gmap Z (list Z))
  : res unit * gmap Z (list Z) :=
  match otherVerts with
  | [] => (Ok (), gr)
  | xx :: rest =>
      match gr !! xx with
      | None => (Ok (), gr)
      | Some l =>
          match py_remove a l with
          | None => (Raise ValueError, gr)
          | Some l' => strip_vertex a rest (<[xx := l']> gr)
          end
      end
  end.

Definition deleteVertex (g : t) (a : Z) : res unit * t :=
  match graph g !! a with
  | None => (Ok (), g)
  | Some otherVerts =>
      let '(r, gr) := strip_vertex a otherVerts (delete a (graph g)) in
      (r, Graph2 gr)
  end.

(** [self.graph[k].append(x)] where [k] is known to be a key. *)
Definition append (gr : gmap Z (list Z)) (k x : Z) : gmap Z (list Z) :=
  <[k := default [] (gr !! k) ++ [x]]> gr.

Definition addEdge (g : t) (a b : Z) : bool * t :=
  let gr := graph g in
  if negb (hasEdge g a b) then
    if bool_decide (is_Some (gr !! a)) && bool_decide (is_Some (gr !! b)) then
      (true, Graph2 (append (append gr a b) b a))
    else if bool_decide (is_Some (gr !! a)) then
      (true, Graph2 (<[b := [a]]> (append gr a b)))
    else if bool_decide (is_Some (gr !! b)) then
      (true, Graph2 (append (<[a := [b]]> gr) b a))
    else
      (true, Graph2 (<[b := [a]]> (<[a := [b]]> gr)))
  else (false, g).

Definition addEdges (g : t) (newEdges : list (Z * Z)) : t :=
  fold_left (λ g ee, (addEdge g ee.1 ee.2).2) newEdges g.

(** Only [ValueError] is caught: the [KeyError] of [self.graph[a]] or
    [self.graph[b]] escapes, the second after [b] has left [a]'s list. *)
Definition deleteEdge (g : t) (a b : Z) : res unit * t :=
  let gr := graph g in
  match gr !! a with
  | None => (Raise KeyError, g)
  | Some la =>
      match py_remove b la with
      | None => (Ok (), g)
      | Some la' =>
          let gr1 := <[a := la']> gr in
          match gr1 !! b with
          | None => (Raise KeyError, Graph2 gr1)
          | Some lb =>
              match py_remove a lb with
              | None => (Ok (), Graph2 gr1)
              | Some lb' => (Ok (), Graph2 (<[b := lb']> gr1))
              end
          end
      end
  end.

Definition degree (g : t) (v : Z) : res nat :=
  l ← getitem (graph g) v; Ok (length l).

(** Every key of the comprehension is a key of [self.graph], so [degree]
    cannot raise here; the model keeps the lookup as it is written. *)
Definition degreeFn (g : t) : res (gmap Z nat) :=
  kvs ← for_each (λ acc v, d ← degree g v; Ok (acc ++ [(v, d)])) [] (keys (graph g));
  Ok (py_dict kvs).

(** [newComp = [buckets[v] for v in self.graph[u] if buckets[u] != buckets[v]]] *)
Definition newComp (buckets : gmap Z Z) (u : Z) (nbrs : list Z) : res (list Z) :=
  for_each (λ acc v,
      x ← getitem buckets u;
      y ← getitem buckets v;
      if bool_decide (x ≠ y) then z ← getitem buckets v; Ok (acc ++ [z])
      else Ok acc)
    [] nbrs.

(** [for vv in buckets: if buckets[vv] in newComp: buckets[vv] = buckets[u]] *)
Definition relabel (u : Z) (comp : list Z) (buckets : gmap Z Z) : res (gmap Z Z) :=
  for_each (λ bk vv,
      x ← getitem bk vv;
      if bool_decide (x ∈ comp) then y ← getitem bk u; Ok (<[vv := y]> bk)
      else Ok bk)
    buckets (keys buckets).

(** The body of [for u in self.graph] in [isConnected1]; the state is
    [change] and [buckets]. *)
Definition step1 (gr : gmap Z (list Z)) (st : bool * gmap Z Z) (u : Z)
  : res (bool * gmap Z Z) :=
  let '(change, bk) := st in
  nbrs ← getitem gr u;
  comp ← newComp bk u nbrs;
  if bool_decide (length comp ≠ 0%nat) then
    bk' ← relabel u comp bk;
    Ok (true, bk')
  else Ok (change, bk).

(** One run of [for u in self.graph] in [isConnected1]. *)
Definition pass1 (gr : gmap Z (list Z)) (buckets : gmap Z Z) : res (bool * gmap Z Z) :=
  for_each (step1 gr) (false, buckets) (keys gr).

Definition isConnected1 (fuel : nat) (g : t) : res bool :=
  let buckets := py_dict ((λ v, (v, v)) <$> keys (graph g)) in
  buckets' ← while_change fuel (pass1 (graph g)) buckets;
  Ok (one_value buckets').

(** One run of [for u in self.graph: for v in self.graph[u]] in
    [isConnected2]. *)
Definition pass2 (fuel : nat) (gr : gmap Z (list Z)) (st : Z * gmap Z Z)
  : res (bool * (Z * gmap Z Z)) :=
  '(change, cnt, bk) ← for_each (λ st u,
                           nbrs ← getitem gr u;
                           for_each (λ st v, union_step fuel st u v) st nbrs)
                         (false, st.1, st.2) (keys gr);
  Ok (change, (cnt, bk)).

Definition isConnected2 (fuel : nat) (g : t) : res bool :=
  let buckets := py_dict ((λ v, (v, v)) <$> keys (graph g)) in
  let valuesCnt := Z.of_nat (size (graph g)) in
  '(valuesCnt', _) ← while_change fuel (pass2 fuel (graph g)) (valuesCnt, buckets);
  Ok (bool_decide (valuesCnt' = 1)).

(** The instance method [copy] *)
Definition copy (g : t) : res t := init (vertices g) (edges g).

End Graph2.

(** ** The scenarios of [test()] *)

Definition tester : list Z * list (Z * Z) := ([1; 2; 3; 4], [(1, 2); (2, 3); (2, 4); (1, 4)]).
Definition tester2 : list Z * list (Z * Z) := ([1; 2; 3; 4; 5; 6], [(1, 3); (4, 5); (4, 6); (3, 2)]).

(** ** GraphObject: the factory class methods

    A factory receives the class [cls] it builds and, for some, graphs it
    reads through the attributes [vertices] and [edges] and the method
    [hasEdge]. [GraphClass] is that interface. *)

Class GraphClass (G : Type) := {
  new : list Z → list (Z * Z) → res G;   (* [cls(vertices, edges)] *)
  get_vertices : G → list Z;               (* [g.vertices] *)
  get_edges : G → list (Z * Z);            (* [g.edges] *)
  has_vertex : G → Z → bool;
  has_edge : G → Z → Z → bool;
}.

#[global] Instance Graph1_class : GraphClass Graph1.t := {|
  new vs es := Ok (Graph1.init vs es);
  get_vertices := Graph1.vertices;
  get_edges := Graph1.edges;
  has_vertex := Graph1.hasVertex;
  has_edge := Graph1.hasEdge;
|}.

#[global] Instance Graph2_class : GraphClass Graph2.t := {|
  new := Graph2.init;
  get_vertices := Graph2.vertices;
  get_edges := Graph2.edges;
  has_vertex := Graph2.hasVertex;
  has_edge := Graph2.hasEdge;
|}.

(** *** Text input for [fromFile]

    A Python 2 [str] is a list of characters. *)

Definition str := list Ascii.ascii.

(** [s.lstrip()] *)
Fixpoint py_lstrip (s : str) : str :=
  match s with
  | [] => []
  | c :: s' => if Ascii.is_space c then py_lstrip s' else s
  end.

(** [s.strip()] *)
Definition py_strip (s : str) : str :=
  reverse (py_lstrip (reverse (py_lstrip s))).

(** [s.split(" ")]: every single space separates two fields, so [n] spaces
    give [n + 1] fields, some of them possibly empty. *)
Fixpoint py_split (s : str) : list str :=
  match s with
  | [] => [[]]
  | c :: s' =>
      if decide (c = " "%char) then [] :: py_split s'
      else match py_split s' with
           | [] => [[c]]
           | f :: fs => (c :: f) :: fs
           end
  end.

(** The value of a string of decimal digits, most significant first. *)
Fixpoint digits (acc : Z) (s : str) : option Z :=
  match s with
  | [] => Some acc
  | c :: s' => d ← Ascii.is_nat c; digits (10 * acc + Z.of_nat d) s'
  end.

(** [int(s)] for a string: surrounding whitespace, an optional sign and at
    least one decimal digit; [None] stands for the [ValueError]. *)
Definition py_int (s : str) : option Z :=
  match py_strip s with
  | [] => None
  | c :: r =>
      if decide (c = "-"%char) then
        match r with [] => None | _ => Z.opp <$> digits 0 r end
      else if decide (c = "+"%char) then
        match r with [] => None | _ => digits 0 r end
      else digits 0 (c :: r)
  end.

Definition int (s : str) : res Z :=
  match py_int s with
  | Some z => Ok z
  | None => Raise ValueError
  end.

(** The body of the loop [for ll in ff] of [fromFile]; its state is
    [edges] and [verts]. *)
Definition fromFile_line (st : list (Z * Z) * gset Z) (ll : string)
  : res (list (Z * Z) * gset Z) :=
  let '(edges, verts) := st in
  let ss := py_strip (String.list_ascii_of_string ll) in
  let ls := py_split ss in
  match ls with
  | [x; y] =>
      a ← int x;
      b ← int y;
      Ok (edges ++ [(a, b)], verts ∪ {[a; b]})
  | _ => Ok (edges, verts)
  end.

Section factories.
Context {G : Type} `{GraphClass G}.

(** [fromFile]: [file] is [None] when [open] raises [IOError], and the
    lines of the file otherwise. *)
Definition fromFile (file : option (list string)) : res G :=
  match file with
  | None => new [] []
  | Some ff =>
      '(edges, verts) ← for_each fromFile_line ([], ∅) ff;
      new (elements verts) edges
  end.

(** [random]: [samples] are the values the [edgeCount] calls of
    [random.sample(verts, 2)] return. *)
Definition random_with (samples : list (Z * Z)) (vertCount : Z) : res G :=
  let verts := range vertCount in
  new verts samples.

(** What [random.sample(verts, 2)] may return. *)
Definition is_sample (vertCount : Z) (s : Z * Z) : Prop :=
  s.1 ∈ range vertCount ∧ s.2 ∈ range vertCount ∧ s.1 ≠ s.2.

Definition complete (size : Z) : res G :=
  let verts := range size in
  let edges := i ← verts; j ← seqZ (i + 1) (size - (i + 1)); [(i, j)] in
  new verts edges.

Definition path (length : Z) : res G :=
  let verts := range (length + 1) in
  let edges := (λ i, (i, i + 1)) <$> range length in
  new verts edges.

Definition cycle (length : Z) : res G :=
  let verts := range length in
  let edges := ((λ i, (i, i + 1)) <$> range (length - 1)) ++ [(0, length - 1)] in
  new verts edges.

(** [max(verts)]: [ValueError] on an empty list. *)
Definition py_max (l : list Z) : res Z :=
  match l with
  | [] => Raise ValueError
  | x :: l' => Ok (foldl Z.max x l')
  end.

(** [joinAtVert]. For a [Graph1], [g2.vertices] is the list object of [g2]
    itself and [tmpVerts.remove(v2)] removes [v2] from [g2] as well; the
    value below is the graph returned. *)
Definition joinAtVert (g1 g2 : G) (v1 v2 : Z) : res G :=
  let verts := get_vertices g1 in
  tmpVerts ← from_option Ok (Raise ValueError) (py_remove v2 (get_vertices g2));
  m ← py_max verts;
  let offset := m + 1 in
  let vertDict := py_dict ((v2, v1) :: ((λ u, (u, u + offset)) <$> tmpVerts)) in
  mapped ← for_each (λ acc uv,
               x ← getitem vertDict uv.1;
               y ← getitem vertDict uv.2;
               Ok (acc ++ [(x, y)])) [] (get_edges g2);
  let edges := get_edges g1 ++ mapped in
  renamed ← for_each (λ acc u, x ← getitem vertDict u; Ok (acc ++ [x])) [] tmpVerts;
  new (verts ++ renamed) edges.

(** [collapseEdge]. For a [Graph1], [g1.vertices] is the list object of
    [g1] itself: [verts.remove(b)] removes [b] from [g1] as well and the
    graph returned shares that list; the value below is the graph
    returned. *)
Definition collapseEdge (g1 : G) (a b : Z) : res G :=
  if has_edge g1 a b then
    verts ← from_option Ok (Raise ValueError) (py_remove b (get_vertices g1));
    let useEdges := get_edges g1 in
    let edges := filter (λ uv, uv.1 ≠ b ∧ uv.2 ≠ b) useEdges in
    let edges := edges ++ ((λ uv, (uv.1, a)) <$> filter (λ uv, uv.1 ≠ a ∧ uv.2 = b) useEdges) in
    let edges := edges ++ ((λ uv, (a, uv.2)) <$> filter (λ uv, uv.1 = b ∧ a ≠ uv.2) useEdges) in
    new verts edges
  else Ok g1.

(** The class method [copy] *)
Definition copy (g1 : G) : res G := new (get_vertices g1) (get_edges g1).

(** [cleancopy]: [list(set(g1.edges))] keeps one of each edge, in an
    arbitrary order. *)
Definition cleancopy (g1 : G) : res G :=
  let verts := get_vertices g1 in
  let edges := elements (list_to_set (get_edges g1) : gset (Z * Z)) in
  new verts edges.

End factories.

(** ** Predicates used by the statements *)

(** Every endpoint of [es] is listed in [vs]. *)
Definition endpoints_among (vs : list Z) (es : list (Z * Z)) : Prop :=
  ∀ u v, (u, v) ∈ es → u ∈ vs ∧ v ∈ vs.

(** The invariant of the data model: the endpoints of every edge of [g] are
    vertices of [g]. *)
Definition edges_closed {G : Type} `{GraphClass G} (g : G) : Prop :=
  ∀ u v, (u, v) ∈ get_edges g → has_vertex g u = true ∧ has_vertex g v = true.

(** For an adjacency dict: every neighbour is a key. *)
Definition nbrs_are_keys (gr : gmap Z (list Z)) : Prop :=
  ∀ u l v, gr !! u = Some l → v ∈ l → is_Some (gr !! v).

(** The neighbour list [Graph2.__init__] builds for [u] from the edge list
    [es]: each edge appends its second endpoint to the list of the first
    and then its first endpoint to the list of the second. *)
Definition adj (es : list (Z * Z)) (u : Z) : list Z :=
  ee ← es;
  (if decide (ee.1 = u) then [ee.2] else []) ++ (if decide (ee.2 = u) then [ee.1] else []).
Arguments adj : simpl never.

(** What the proofs about the factories need from a class: [hasVertex] is
    membership in [vertices], and the constructor, given edges whose
    endpoints are among the vertices, returns a graph with those vertices
    that satisfies the invariant. *)
Class GraphLaws (G : Type) `{GraphClass G} := {
  has_vertex_spec (g : G) a : has_vertex g a = true ↔ a ∈ get_vertices g;
  new_closed vs es :
    endpoints_among vs es →
    ∃ g : G, new vs es = Ok g ∧ edges_closed g ∧ ∀ a, a ∈ get_vertices g ↔ a ∈ vs;
  new_has_edge vs es (g : G) u v :
    endpoints_among vs es → new vs es = Ok g →
    has_edge g u v = true ↔ (u, v) ∈ es ∨ (v, u) ∈ es;
}.

(** The pairs joined by an edge of the cycle on [0 .. n-1]. *)
Definition cycle_adjacent (n u v : Z) : Prop :=
  0 ≤ u < n ∧ 0 ≤ v < n ∧
  (v = u + 1 ∨ u = v + 1 ∨ (u = 0 ∧ v = n - 1) ∨ (u = n - 1 ∧ v = 0)).

(** [r] is a graph that satisfies the invariant. *)
Definition builds_closed {G : Type} `{GraphClass G} (r : res G) : Prop :=
  ∃ g, r = Ok g ∧ edges_closed g.

(** *** collapseEdge as the specification words it

    [rewire a b e] renames the endpoint [b] of [e] to [a]. An edge that does
    not touch [b] is kept; an edge that touches [b] is rewired to [a], and
    dropped when that makes it the self-loop [(a, a)], which is also what
    becomes of the collapsed edge itself. *)
Definition rewire (a b : Z) (e : Z * Z) : Z * Z :=
  (if decide (e.1 = b) then a else e.1, if decide (e.2 = b) then a else e.2).

Definition collapse_spec (a b : Z) (es : list (Z * Z)) : list (Z * Z) :=
  e ← es;
  if decide (in_pair b e)
  then if decide (rewire a b e = (a, a)) then [] else [rewire a b e]
  else [e].

(** *** Counting *)

(** How many times [x] occurs in [l]. *)
Definition occ (x : Z) (l : list Z) : nat := length (filter (x =.) l).

(** The sum of the values of a dict, as for [degreeFn()]. *)
Definition dict_sum (m : gmap Z nat) : nat := sum_list (map_to_list m).*2.

(** The number of distinct edges of an edge list. *)
Definition distinct_edges (es : list (Z * Z)) : nat := size (list_to_set es : gset (Z * Z)).

(** The neighbour list of [u] in an adjacency dict, empty when [u] is not a
    key. *)
Definition nbrs (gr : gmap Z (list Z)) (u : Z) : list Z := default [] (gr !! u).

(** [v] occurs in the list of [u] as often as [u] occurs in the list of
    [v]. *)
Definition symmetric (gr : gmap Z (list Z)) : Prop :=
  ∀ u v, occ v (nbrs gr u) = occ u (nbrs gr v).

(** No vertex is its own neighbour. *)
Definition loop_free (gr : gmap Z (list Z)) : Prop := ∀ u, u ∉ nbrs gr u.

(** *** The lines of a file, as [fromFile] reads them

    [fields ll] are the fields of the line [ll]. A line with two fields that
    are both integers is an edge; a line with two fields of which one is not
    an integer is where [int] raises [ValueError]; every other line is
    skipped. *)
Definition fields (ll : string) : list str :=
  py_split (py_strip (String.list_ascii_of_string ll)).

Inductive line_kind := Skipped | Edge (a b : Z) | Malformed.

#[global] Instance line_kind_eq_dec : EqDecision line_kind.
Proof. solve_decision. Defined.

Definition classify (ll : string) : line_kind :=
  match fields ll with
  | [x; y] =>
      match py_int x, py_int y with
      | Some a, Some b => Edge a b
      | _, _ => Malformed
      end
  | _ => Skipped
  end.

(** The edges of the lines of a file, in the order of the lines. *)
Definition file_edges (ff : list string) : list (Z * Z) :=
  omap (λ ll, match classify ll with Edge a b => Some (a, b) | _ => None end) ff.

(** The set of the endpoints of an edge list. *)
Definition endpoints_of (es : list (Z * Z)) : gset Z :=
  foldl (λ s e, s ∪ {[e.1; e.2]}) ∅ es.

(** A character that is not white space, and a field: a non-empty string
    of such characters. *)
Definition is_field (x : str) : Prop :=
  x ≠ [] ∧ Forall (λ c, Ascii.is_space c = false) x.

(** ** The store: objects and references

    Everything above describes one graph at a time. What [copy] shares
    between two graphs is a matter of references, so the constructors, [copy]
    and the four mutators are given once more over a store in which every
    list, dict and instance is an object with an address. A constructor
    receives [vertices] as a reference, which [Graph1.__init__] keeps; the
    list [edges] is only read by both constructors and is passed as its
    contents. *)

Module Store.

Definition loc := positive.

Inductive obj :=
  | IntList (xs : list Z)             (* a list of ints *)
  | PairList (es : list (Z * Z))      (* a list of pairs of ints *)
  | Dict (m : gmap Z loc)             (* a dict from an int to a list of ints *)
  | Graph1Obj (vertices edges : loc)  (* the attributes of a [Graph1] *)
  | Graph2Obj (graph : loc).          (* the attribute of a [Graph2] *)

(** A computation: an outcome and the store it leaves, also when it
    raises. [Stuck] stands for the use of an address that does not hold an
    object of the expected kind, which no call below can reach from a
    well-formed graph. *)
Inductive outcome (A : Type) :=
  | Ret (a : A)
  | Exc (e : exn)
  | Stuck.
Arguments Ret {A} a.
Arguments Exc {A} e.
Arguments Stuck {A}.

Definition M (A : Type) : Type := gmap loc obj → outcome A * gmap loc obj.

Definition ret {A} (a : A) : M A := λ h, (Ret a, h).

Definition bind {A B} (m : M A) (k : A → M B) : M B := λ h,
  match m h with
  | (Ret a, h') => k a h'
  | (Exc e, h') => (Exc e, h')
  | (Stuck, h') => (Stuck, h')
  end.

Definition raise {A} (e : exn) : M A := λ h, (Exc e, h).

(** [try: body except caught: pass] *)
Definition try_pass (body : M unit) (caught : exn) : M unit := λ h,
  match body h with
  | (Exc e, h') => if decide (e = caught) then (Ret (), h') else (Exc e, h')
  | r => r
  end.

#[global] Instance M_ret : MRet M := @ret.
#[global] Instance M_bind : MBind M := λ A B k m, bind m k.

Definition alloc (o : obj) : M loc := λ h,
  let l := fresh (dom h) in (Ret l, <[l := o]> h).

Definition store (l : loc) (o : obj) : M unit := λ h, (Ret (), <[l := o]> h).

Definition load_ints (l : loc) : M (list Z) := λ h,
  match h !! l with Some (IntList xs) => (Ret xs, h) | _ => (Stuck, h) end.

Definition load_pairs (l : loc) : M (list (Z * Z)) := λ h,
  match h !! l with Some (PairList es) => (Ret es, h) | _ => (Stuck, h) end.

Definition load_dict (l : loc) : M (gmap Z loc) := λ h,
  match h !! l with Some (Dict m) => (Ret m, h) | _ => (Stuck, h) end.

Definition load_graph1 (l : loc) : M (loc * loc) := λ h,
  match h !! l with Some (Graph1Obj v e) => (Ret (v, e), h) | _ => (Stuck, h) end.

Definition load_graph2 (l : loc) : M loc := λ h,
  match h !! l with Some (Graph2Obj d) => (Ret d, h) | _ => (Stuck, h) end.

(** [xs.remove(x)] on the contents of a list *)
Definition remove {A} `{EqDecision A} (x : A) (xs : list A) : M (list A) :=
  match py_remove x xs with
  | Some xs' => ret xs'
  | None => raise ValueError
  end.

(** [m[k]] on the contents of a dict *)
Definition item (m : gmap Z loc) (k : Z) : M loc :=
  match m !! k with
  | Some l => ret l
  | None => raise KeyError
  end.

(** A [for] loop run for its effect. *)
Fixpoint for_ {A} (body : A → M unit) (l : list A) : M unit :=
  match l with
  | [] => ret ()
  | x :: l' => body x ;; for_ body l'
  end.

(** *** Graph1 *)

Definition Graph1_init (vertices : loc) (edges : list (Z * Z)) : M loc :=
  e ← alloc (PairList (norm <$> edges));
  alloc (Graph1Obj vertices e).

Definition Graph1_copy (self : loc) : M loc :=
  '(v, e) ← load_graph1 self;
  es ← load_pairs e;
  Graph1_init v es.

(** [a in self.vertices] *)
Definition Graph1_hasVertex (self : loc) (a : Z) : M bool :=
  '(v, _) ← load_graph1 self;
  vs ← load_ints v;
  ret (bool_decide (a ∈ vs)).

Definition Graph1_hasEdge (self : loc) (a b : Z) : M bool :=
  '(_, e) ← load_graph1 self;
  es ← load_pairs e;
  ret (bool_decide ((Z.min a b, Z.max a b) ∈ es)).

Definition Graph1_addVertex (self : loc) (a : Z) : M unit :=
  '(v, _) ← load_graph1 self;
  vs ← load_ints v;
  store v (IntList (vs ++ [a])).

(** [self.edges.append((min(a,b), max(a,b)))] *)
Definition Graph1_append_edge (self : loc) (a b : Z) : M unit :=
  '(_, e) ← load_graph1 self;
  es ← load_pairs e;
  store e (PairList (es ++ [(Z.min a b, Z.max a b)])).

Definition Graph1_addEdge (self : loc) (a b : Z) : M bool :=
  has ← Graph1_hasEdge self a b;
  if negb has then
    ina ← Graph1_hasVertex self a;
    inb ← Graph1_hasVertex self b;
    (if ina && inb then Graph1_append_edge self a b
     else if ina then Graph1_addVertex self b ;; Graph1_append_edge self a b
     else if inb then Graph1_addVertex self a ;; Graph1_append_edge self a b
     else Graph1_addVertex self a ;; Graph1_addVertex self b ;;
          Graph1_append_edge self a b) ;;
    ret true
  else ret false.

(** [self.vertices.remove(a)] changes the list in place; the assignment to
    [self.edges] makes a new list and leaves the old one as it is. *)
Definition Graph1_deleteVertex (self : loc) (a : Z) : M unit :=
  try_pass
    ('(v, e) ← load_graph1 self;
     vs ← load_ints v;
     vs' ← remove a vs;
     store v (IntList vs') ;;
     es ← load_pairs e;
     e' ← alloc (PairList (filter (λ ee, ¬ in_pair a ee) es));
     store self (Graph1Obj v e'))
    ValueError.

Definition Graph1_deleteEdge (self : loc) (a b : Z) : M unit :=
  try_pass
    ('(_, e) ← load_graph1 self;
     es ← load_pairs e;
     es' ← remove (Z.min a b, Z.max a b) es;
     store e (PairList es'))
    ValueError.

(** *** Graph2 *)

(** [self.graph[k] = xs], with [xs] a new list *)
Definition dict_set (d : loc) (k : Z) (xs : list Z) : M unit :=
  l ← alloc (IntList xs);
  m ← load_dict d;
  store d (Dict (<[k := l]> m)).

(** [self.graph[k].append(x)] *)
Definition dict_append (d : loc) (k x : Z) : M unit :=
  m ← load_dict d;
  l ← item m k;
  xs ← load_ints l;
  store l (IntList (xs ++ [x])).

(** [self.graph[k].remove(x)] *)
Definition dict_remove (d : loc) (k x : Z) : M unit :=
  m ← load_dict d;
  l ← item m k;
  xs ← load_ints l;
  xs' ← remove x xs;
  store l (IntList xs').

(** [x in self.graph[k]] *)
Definition dict_mem (d : loc) (k x : Z) : M bool :=
  m ← load_dict d;
  l ← item m k;
  xs ← load_ints l;
  ret (bool_decide (x ∈ xs)).

Definition Graph2_init (vertices : loc) (edges : list (Z * Z)) : M loc :=
  vs ← load_ints vertices;
  d ← alloc (Dict ∅);
  for_ (λ v, dict_set d v []) vs ;;
  for_ (λ ee, dict_append d ee.1 ee.2 ;; dict_append d ee.2 ee.1) edges ;;
  alloc (Graph2Obj d).

(** The property [vertices]: [keys()] makes a new list. *)
Definition Graph2_vertices (self : loc) : M loc :=
  d ← load_graph2 self;
  m ← load_dict d;
  alloc (IntList (keys m)).

(** The property [edges]: the contents of the new list it makes. *)
Fixpoint Graph2_edges_from (m : gmap Z loc) (us : list Z) : M (list (Z * Z)) :=
  match us with
  | [] => ret []
  | u :: us' =>
      l ← item m u;
      xs ← load_ints l;
      rest ← Graph2_edges_from m us';
      ret ((xs ≫= λ v, if bool_decide (u < v) then [(u, v)] else []) ++ rest)
  end.

Definition Graph2_edges (self : loc) : M (list (Z * Z)) :=
  d ← load_graph2 self;
  m ← load_dict d;
  Graph2_edges_from m (keys m).

Definition Graph2_copy (self : loc) : M loc :=
  v ← Graph2_vertices self;
  es ← Graph2_edges self;
  Graph2_init v es.

(** [a in self.graph] *)
Definition Graph2_hasVertex (self : loc) (a : Z) : M bool :=
  d ← load_graph2 self;
  m ← load_dict d;
  ret (bool_decide (is_Some (m !! a))).

Definition Graph2_hasEdge (self : loc) (a b : Z) : M bool :=
  ina ← Graph2_hasVertex self a;
  if ina : bool then d ← load_graph2 self; dict_mem d a b else ret false.

Definition Graph2_addVertex (self : loc) (a : Z) : M unit :=
  d ← load_graph2 self;
  dict_set d a [].

Definition Graph2_addEdge (self : loc) (a b : Z) : M bool :=
  has ← Graph2_hasEdge self a b;
  if negb has then
    d ← load_graph2 self;
    ina ← Graph2_hasVertex self a;
    inb ← Graph2_hasVertex self b;
    (if ina && inb then dict_append d a b ;; dict_append d b a
     else if ina then dict_append d a b ;; dict_set d b [a]
     else if inb then dict_set d a [b] ;; dict_append d b a
     else dict_set d a [b] ;; dict_set d b [a]) ;;
    ret true
  else ret false.

(** [otherVerts = self.graph[a][:]] copies the list before [del]. *)
Definition Graph2_deleteVertex (self : loc) (a : Z) : M unit :=
  try_pass
    (d ← load_graph2 self;
     m ← load_dict d;
     l ← item m a;
     otherVerts ← load_ints l;
     store d (Dict (delete a m)) ;;
     for_ (λ xx, dict_remove d xx a) otherVerts)
    KeyError.

Definition Graph2_deleteEdge (self : loc) (a b : Z) : M unit :=
  try_pass
    (d ← load_graph2 self;
     dict_remove d a b ;;
     dict_remove d b a)
    ValueError.

(** *** Mutations and what a caller sees of a graph *)

Inductive mutation :=
  | AddVertex (a : Z)
  | AddEdge (a b : Z)
  | DeleteVertex (a : Z)
  | DeleteEdge (a b : Z).

Definition Graph1_mutate (self : loc) (mu : mutation) : M unit :=
  match mu with
  | AddVertex a => Graph1_addVertex self a
  | AddEdge a b => Graph1_addEdge self a b ;; ret ()
  | DeleteVertex a => Graph1_deleteVertex self a
  | DeleteEdge a b => Graph1_deleteEdge self a b
  end.

Definition Graph2_mutate (self : loc) (mu : mutation) : M unit :=
  match mu with
  | AddVertex a => Graph2_addVertex self a
  | AddEdge a b => Graph2_addEdge self a b ;; ret ()
  | DeleteVertex a => Graph2_deleteVertex self a
  | DeleteEdge a b => Graph2_deleteEdge self a b
  end.

(** The store after a sequence of calls, each of which the caller lets
    return or fail. *)
Definition run (step : mutation → M unit) (mus : list mutation) (h : gmap loc obj)
  : gmap loc obj :=
  foldl (λ h mu, (step mu h).2) h mus.

(** The contents of the list at [l]. *)
Definition ints_at (h : gmap loc obj) (l : loc) : option (list Z) :=
  match h !! l with Some (IntList xs) => Some xs | _ => None end.

Definition pairs_at (h : gmap loc obj) (l : loc) : option (list (Z * Z)) :=
  match h !! l with Some (PairList es) => Some es | _ => None end.

(** [g.vertices] and [g.edges] of a [Graph1]. *)
Definition Graph1_vertices_of (h : gmap loc obj) (g : loc) : option (list Z) :=
  match h !! g with Some (Graph1Obj v _) => ints_at h v | _ => None end.

Definition Graph1_edges_of (h : gmap loc obj) (g : loc) : option (list (Z * Z)) :=
  match h !! g with Some (Graph1Obj _ e) => pairs_at h e | _ => None end.

(** The adjacency dict of a [Graph2], with the contents of its lists; it
    determines [g.vertices] and [g.edges]. *)
Definition Graph2_graph_of (h : gmap loc obj) (g : loc) : option (gmap Z (option (list Z))) :=
  match h !! g with
  | Some (Graph2Obj d) =>
      match h !! d with
      | Some (Dict m) => Some (ints_at h <$> m)
      | _ => None
      end
  | _ => None
  end.

(** There is a [Graph1] at [g]: an instance whose attributes are the
    addresses of a list of ints and of a list of pairs. *)
Definition Graph1_at (h : gmap loc obj) (g : loc) : Prop :=
  ∃ v e vs es, h !! g = Some (Graph1Obj v e) ∧
    h !! v = Some (IntList vs) ∧ h !! e = Some (PairList es).

(** There is a [Graph2] at [g]: an instance whose attribute is the address
    of a dict, each value of which is the address of a list of ints. *)
Definition Graph2_at (h : gmap loc obj) (g : loc) : Prop :=
  ∃ d m, h !! g = Some (Graph2Obj d) ∧ h !! d = Some (Dict m) ∧
    ∀ k l, m !! k = Some l → ∃ xs, h !! l = Some (IntList xs).

(** The addresses a [Graph2] owns: the instance, its dict and the
    neighbour lists. *)
Definition Graph2_cells (h : gmap loc obj) (g : loc) : gset loc :=
  match h !! g with
  | Some (Graph2Obj d) =>
      match h !! d with
      | Some (Dict m) => {[g; d]} ∪ map_img m
      | _ => {[g; d]}
      end
  | _ => {[g]}
  end.

(** The addresses a [Graph1] does not share: the instance and its edge
    list. *)
Definition Graph1_cells (h : gmap loc obj) (g : loc) : gset loc :=
  match h !! g with
  | Some (Graph1Obj _ e) => {[g; e]}
  | _ => {[g]}
  end.

End Store.

(** *** Invariants used to reason about the store *)

Module StoreInv.
Import Store.

(** [m] keeps [J]: whatever the outcome, the store it leaves satisfies [J]
    when the store it starts from does. *)
Definition keeps {A} (J : gmap loc obj → Prop) (m : M A) : Prop :=
  ∀ h, J h → J (m h).2.

(** The cells in [S] are as they are in [h0]; the dict at [d] is not in
    [S], and each of its values is the address, not in [S], of a list of
    ints; and the [Graph2] instance [oc] of that dict, once it exists, is not
    in [S] either. *)
Definition apart2 (S : gset loc) (h0 : gmap loc obj) (d : loc) (oc : option loc)
    (h : gmap loc obj) : Prop :=
  S ⊆ dom h ∧
  (∀ l, l ∈ S → h !! l = h0 !! l) ∧
  (d ∉ S) ∧ (∃ m, h !! d = Some (Dict m)) ∧
  (∀ m k l, h !! d = Some (Dict m) → m !! k = Some l →
            (l ∉ S) ∧ ∃ xs, h !! l = Some (IntList xs)) ∧
  (∀ c, oc = Some c → (c ∉ S) ∧ h !! c = Some (Graph2Obj d)).

(** The cells in [S] are as they are in [h0] and hold no list of ints, and
    the [Graph1] at [c], whose vertex list is at [v], has its instance and
    its edge list outside [S]. *)
Definition apart1 (S : gset loc) (h0 : gmap loc obj) (c v : loc) (h : gmap loc obj) : Prop :=
  S ⊆ dom h ∧
  (∀ l, l ∈ S → h !! l = h0 !! l) ∧
  (∀ l xs, l ∈ S → h0 !! l ≠ Some (IntList xs)) ∧
  (c ∉ S) ∧ ∃ e, h !! c = Some (Graph1Obj v e) ∧ e ∉ S.

End StoreInv.

(** *** Connectivity

    [joined ps u v]: the pair [(u, v)] is in the list [ps]. A graph with
    the vertices [V] is connected when it has a vertex and any two of its
    vertices are linked by a chain of pairs of [ps], each taken in either
    direction. *)
Definition joined (ps : list (Z * Z)) (u v : Z) : Prop := (u, v) ∈ ps.

Definition is_connected (V : gset Z) (ps : list (Z * Z)) : Prop :=
  V ≠ ∅ ∧ ∀ u v, u ∈ V → v ∈ V → rtsc (joined ps) u v.

(** The pairs a [Graph2] joins: [(u, v)] for [v] in the list of [u]. *)
Definition arcs (gr : gmap Z (list Z)) : list (Z * Z) :=
  u ← keys gr; v ← nbrs gr u; [(u, v)].

(** A labelling of the vertices [V], as [isConnected1] keeps it: every
    vertex is linked to its label. *)
Definition labelled (V : gset Z) (ps : list (Z * Z)) (b : gmap Z Z) : Prop :=
  dom b = V ∧ ∀ u l, b !! u = Some l → rtsc (joined ps) u l.

(** The two ends of every pair of [ps] have the same label (or root). *)
Definition settled (ps : list (Z * Z)) (b : gmap Z Z) : Prop :=
  ∀ u v, (u, v) ∈ ps → b !! u = b !! v.

(** [root_at b n u r]: following the parent links of [b] from [u] reaches
    the root [r] in [n] steps. *)
Inductive root_at (b : gmap Z Z) : nat → Z → Z → Prop :=
  | root_at_O r : b !! r = Some r → root_at b 0 r r
  | root_at_S n u p r :
      b !! u = Some p → p ≠ u → root_at b n p r → root_at b (S n) u r.

(** The roots of a parent map. *)
Definition roots (b : gmap Z Z) : gset Z := dom (filter (λ kv, kv.1 = kv.2) b).

(** The state of a pass of [isConnected2], a count and a parent map, for
    the vertices [V] of which we keep the number [N] in mind: every vertex
    reaches a root, in at most [N - cnt] steps, and is linked to it; and the
    count is the number of roots. *)
Definition forest (V : gset Z) (ps : list (Z * Z)) (N : Z) (st : Z * gmap Z Z) : Prop :=
  dom st.2 = V ∧
  (∀ u, u ∈ V → ∃ n r,
     root_at st.2 n u r ∧ Z.of_nat n + st.1 ≤ N ∧ rtsc (joined ps) u r) ∧
  st.1 = Z.of_nat (size (roots st.2)).

(** [u] and [v] have the same root. *)
Definition rooted_alike (b : gmap Z Z) (u v : Z) : Prop :=
  ∃ n m r, root_at b n u r ∧ root_at b m v r.

(** [compressed b b']: the parent map [b'] has the keys and the roots of
    [b], and every vertex reaches in it the root it reaches in [b], by a
    path that is no longer. This is what [find] does to the dict. *)
Definition compressed (b b' : gmap Z Z) : Prop :=
  dom b' = dom b ∧
  (∀ w, b' !! w = Some w ↔ b !! w = Some w) ∧
  (∀ m w r, root_at b m w r → ∃ m', (m' ≤ m)%nat ∧ root_at b' m' w r).

(** * Properties *)

(** ** Python containers *)

Lemma py_dict_snoc {V} (l : list (Z * V)) k v :
  py_dict (l ++ [(k, v)]) = <[k := v]> (py_dict l).
Proof. unfold py_dict. by rewrite fold_left_app. Qed.

Lemma py_dict_fmap_lookup {V} (f : Z → V) (vs : list Z) (k : Z) :
  py_dict ((λ v, (v, f v)) <$> vs) !! k = if decide (k ∈ vs) then Some (f k) else None.
Proof.
  induction vs as [|x vs IH] using rev_ind.
  - rewrite decide_False by apply not_elem_of_nil. done.
  - rewrite fmap_app. simpl. rewrite py_dict_snoc, lookup_insert, IH.
    repeat case_decide; subst; try done; set_solver.
Qed.

Lemma py_dict_fmap_dom {V} (f : Z → V) (vs : list Z) :
  dom (py_dict ((λ v, (v, f v)) <$> vs)) = list_to_set vs.
Proof.
  apply set_eq. intros k. rewrite elem_of_dom, py_dict_fmap_lookup, elem_of_list_to_set.
  case_decide; split; intros; try done; by destruct (is_Some_None (A:=V)).
Qed.

Lemma elem_of_keys {V} (d : gmap Z V) k : k ∈ keys d ↔ is_Some (d !! k).
Proof.
  unfold keys. rewrite list_elem_of_fmap. split.
  - intros [[k' v] [-> Hin]]. apply elem_of_map_to_list in Hin. by eexists.
  - intros [v Hv]. exists (k, v). split; [done | by apply elem_of_map_to_list].
Qed.

Lemma NoDup_keys {V} (d : gmap Z V) : NoDup (keys d).
Proof. apply NoDup_fst_map_to_list. Qed.

Lemma py_remove_None {A} `{EqDecision A} (x : A) l : py_remove x l = None ↔ x ∉ l.
Proof.
  induction l as [|y l IH]; simpl.
  - split; [intros _; apply not_elem_of_nil | done].
  - case_decide as Hxy.
    + subst. split; [done | intros []; left].
    + rewrite fmap_None, IH. rewrite not_elem_of_cons. naive_solver.
Qed.

Lemma py_remove_Some {A} `{EqDecision A} (x : A) l l' :
  py_remove x l = Some l' ↔ ∃ l1 l2, l = l1 ++ x :: l2 ∧ l' = l1 ++ l2 ∧ x ∉ l1.
Proof.
  revert l'. induction l as [|y l IH]; intros l'; simpl.
  - split; [done | intros (l1 & l2 & Hl & _)]. by destruct l1.
  - case_decide as Hxy.
    + subst y. split.
      * intros [= <-]. exists [], l. split_and!; [done.. | apply not_elem_of_nil].
      * intros (l1 & l2 & Hl & -> & Hn). destruct l1 as [|z l1]; simplify_eq/=; [done|].
        destruct Hn; left.
    + rewrite fmap_Some. split.
      * intros (l0 & (l1 & l2 & -> & -> & Hn)%IH & ->).
        exists (y :: l1), l2. split_and!; [done.. |]. rewrite not_elem_of_cons. done.
      * intros (l1 & l2 & Hl & -> & Hn). destruct l1 as [|z l1]; simplify_eq/=.
        apply not_elem_of_cons in Hn as [_ Hn].
        exists (l1 ++ l2). split; [|done]. apply IH. by exists l1, l2.
Qed.

Lemma py_remove_elem_of {A} `{EqDecision A} (x y : A) l l' :
  py_remove x l = Some l' → y ≠ x → y ∈ l' ↔ y ∈ l.
Proof.
  intros (l1 & l2 & -> & -> & _)%py_remove_Some Hne.
  rewrite !elem_of_app, elem_of_cons. naive_solver.
Qed.

Lemma py_remove_subseteq {A} `{EqDecision A} (x : A) l l' :
  py_remove x l = Some l' → l' ⊆ l.
Proof.
  intros (l1 & l2 & -> & -> & _)%py_remove_Some y.
  rewrite !elem_of_app, elem_of_cons. naive_solver.
Qed.

(** ** The constructors *)

Lemma Graph1_hasVertex_true g a : Graph1.hasVertex g a = true ↔ a ∈ Graph1.vertices g.
Proof. unfold Graph1.hasVertex. by rewrite bool_decide_eq_true. Qed.

Lemma Graph1_hasEdge_true g a b :
  Graph1.hasEdge g a b = true ↔ (Z.min a b, Z.max a b) ∈ Graph1.edges g.
Proof. unfold Graph1.hasEdge. by rewrite bool_decide_eq_true. Qed.

Lemma Graph2_hasVertex_true g a : Graph2.hasVertex g a = true ↔ is_Some (Graph2.graph g !! a).
Proof. unfold Graph2.hasVertex. by rewrite bool_decide_eq_true. Qed.

Lemma Graph2_hasVertex_keys g a : Graph2.hasVertex g a = true ↔ a ∈ Graph2.vertices g.
Proof. unfold Graph2.vertices. by rewrite Graph2_hasVertex_true, elem_of_keys. Qed.

Lemma Graph2_hasEdge_true g a b :
  Graph2.hasEdge g a b = true ↔ ∃ l, Graph2.graph g !! a = Some l ∧ b ∈ l.
Proof.
  unfold Graph2.hasEdge. destruct (Graph2.graph g !! a) as [l|].
  - rewrite bool_decide_eq_true. naive_solver.
  - naive_solver.
Qed.

Lemma elem_of_Graph2_edges g u v :
  (u, v) ∈ Graph2.edges g ↔ ∃ l, Graph2.graph g !! u = Some l ∧ v ∈ l ∧ u < v.
Proof.
  unfold Graph2.edges. rewrite list_elem_of_bind. split.
  - intros (u' & Hin & [l Hl]%elem_of_keys). rewrite Hl in Hin. simpl in Hin.
    apply list_elem_of_bind in Hin as (v' & Hin & Hv').
    case_bool_decide; [|by apply elem_of_nil in Hin].
    apply list_elem_of_singleton in Hin. simplify_eq. eauto.
  - intros (l & Hl & Hv & Hlt). exists u. split; [|apply elem_of_keys; eauto].
    rewrite Hl. simpl. apply list_elem_of_bind. exists v. split; [|done].
    rewrite bool_decide_eq_true_2 by done. apply list_elem_of_singleton. done.
Qed.

Lemma nbrs_are_keys_closed g : nbrs_are_keys (Graph2.graph g) → edges_closed g.
Proof.
  intros Hk u v (l & Hl & Hv & _)%elem_of_Graph2_edges. simpl.
  rewrite !Graph2_hasVertex_true. split; [eauto | by eapply Hk].
Qed.

Lemma elem_of_adj es u v : v ∈ adj es u ↔ (u, v) ∈ es ∨ (v, u) ∈ es.
Proof.
  unfold adj. rewrite list_elem_of_bind. split.
  - intros ([x y] & Hin & Hee). simpl in Hin. apply elem_of_app in Hin as [Hin|Hin];
      case_decide; try (by apply elem_of_nil in Hin);
      apply list_elem_of_singleton in Hin; simplify_eq; auto.
  - intros [Hin|Hin]; eexists; (split; [|exact Hin]); simpl.
    + rewrite decide_True by done. set_solver.
    + rewrite (decide_True (P:=u = u)) by done. set_solver.
Qed.

Lemma adj_cons x y es u :
  adj ((x, y) :: es) u =
  (if decide (x = u) then [y] else []) ++ (if decide (y = u) then [x] else []) ++ adj es u.
Proof. unfold adj. simpl. by rewrite <- app_assoc. Qed.

(** The loop of [Graph2.__init__] in closed form. *)
Lemma Graph2_init_loop vs es (f : Z → list Z) :
  endpoints_among vs es →
  for_each (λ gr ee, gr1 ← Graph2.append_to gr ee.1 ee.2; Graph2.append_to gr1 ee.2 ee.1)
    (py_dict ((λ v, (v, f v)) <$> vs)) es
  = Ok (py_dict ((λ v, (v, f v ++ adj es v)) <$> vs)).
Proof.
  revert f. induction es as [|[x y] es IH]; intros f Hes.
  - simpl. do 2 f_equal. apply list_fmap_ext. intros _ v _. by rewrite app_nil_r.
  - destruct (Hes x y) as [Hx Hy]; [left|].
    assert (endpoints_among vs es) as Hes' by (intros u v ?; apply Hes; by right).
    set (f1 := λ v, f v ++ if decide (x = v) then [y] else []).
    set (f2 := λ v, f1 v ++ if decide (y = v) then [x] else []).
    assert (Graph2.append_to (py_dict ((λ v, (v, f v)) <$> vs)) x y
            = Ok (py_dict ((λ v, (v, f1 v)) <$> vs))) as H1.
    { unfold Graph2.append_to, getitem. rewrite py_dict_fmap_lookup, decide_True by done.
      simpl. f_equal. apply map_eq. intros k.
      rewrite lookup_insert, !py_dict_fmap_lookup. unfold f1.
      repeat case_decide; subst; try done. by rewrite app_nil_r. }
    assert (Graph2.append_to (py_dict ((λ v, (v, f1 v)) <$> vs)) y x
            = Ok (py_dict ((λ v, (v, f2 v)) <$> vs))) as H2.
    { unfold Graph2.append_to, getitem. rewrite py_dict_fmap_lookup, decide_True by done.
      simpl. f_equal. apply map_eq. intros k.
      rewrite lookup_insert, !py_dict_fmap_lookup. unfold f2.
      repeat case_decide; subst; try done. by rewrite app_nil_r. }
    cbn [for_each]. simpl. rewrite H1. simpl. rewrite H2. simpl.
    rewrite (IH f2 Hes'). do 2 f_equal. apply list_fmap_ext. intros _ v _.
    unfold f2, f1. by rewrite adj_cons, <- !app_assoc.
Qed.

Lemma Graph2_init_Ok vs es :
  endpoints_among vs es →
  Graph2.init vs es = Ok (Graph2.Graph2 (py_dict ((λ v, (v, adj es v)) <$> vs))).
Proof.
  intros Hes. unfold Graph2.init.
  by rewrite (Graph2_init_loop vs es (λ _, []) Hes).
Qed.

Lemma Graph2_init_nbrs vs es :
  endpoints_among vs es → nbrs_are_keys (py_dict ((λ v, (v, adj es v)) <$> vs)).
Proof.
  intros Hes u l v Hl Hv. rewrite py_dict_fmap_lookup in Hl.
  case_decide; [|done]. simplify_eq. rewrite py_dict_fmap_lookup.
  apply elem_of_adj in Hv as [Hv|Hv]; apply Hes in Hv as [??];
    by rewrite decide_True.
Qed.

Lemma elem_of_norm_fmap (es : list (Z * Z)) (u v : Z) :
  (u, v) ∈ norm <$> es → (u, v) ∈ es ∨ (v, u) ∈ es.
Proof.
  intros ([x y] & Heq & Hin)%list_elem_of_fmap. unfold norm in Heq. simpl in Heq.
  destruct (Z.min_spec x y) as [[? Hmin]|[? Hmin]], (Z.max_spec x y) as [[? Hmax]|[? Hmax]];
    rewrite Hmin, Hmax in Heq; simplify_eq; auto; try lia.
Qed.

Lemma Graph1_init_closed vs es :
  endpoints_among vs es → edges_closed (Graph1.init vs es).
Proof.
  intros Hes u v Hin. simpl in *. rewrite !Graph1_hasVertex_true. simpl.
  apply elem_of_norm_fmap in Hin as [Hin|Hin]; apply Hes in Hin; tauto.
Qed.

Lemma elem_of_norm_fmap_iff (es : list (Z * Z)) (a b : Z) :
  (Z.min a b, Z.max a b) ∈ norm <$> es ↔ (a, b) ∈ es ∨ (b, a) ∈ es.
Proof.
  split.
  - intros [Hin|Hin]%elem_of_norm_fmap;
      destruct (Z.min_spec a b) as [[? Hmin]|[? Hmin]],
               (Z.max_spec a b) as [[? Hmax]|[? Hmax]];
      rewrite Hmin, Hmax in Hin; auto; try lia;
      assert (a = b) by lia; subst; auto.
  - intros Hin. apply list_elem_of_fmap.
    destruct Hin as [Hin|Hin]; eexists; (split; [|exact Hin]); unfold norm; simpl;
      [done | by rewrite Z.min_comm, Z.max_comm].
Qed.

Lemma Graph1_init_hasEdge vs es u v :
  Graph1.hasEdge (Graph1.init vs es) u v = true ↔ (u, v) ∈ es ∨ (v, u) ∈ es.
Proof. rewrite Graph1_hasEdge_true. simpl. apply elem_of_norm_fmap_iff. Qed.

Lemma Graph2_init_hasEdge vs es u v :
  endpoints_among vs es →
  Graph2.hasEdge (Graph2.Graph2 (py_dict ((λ v, (v, adj es v)) <$> vs))) u v = true
  ↔ (u, v) ∈ es ∨ (v, u) ∈ es.
Proof.
  intros Hes. rewrite Graph2_hasEdge_true. simpl. rewrite py_dict_fmap_lookup. split.
  - intros (l & Hl & Hv). case_decide; [|done]. simplify_eq. by apply elem_of_adj.
  - intros Hin. exists (adj es u). split; [|by apply elem_of_adj].
    rewrite decide_True; [done|]. destruct Hin as [Hin|Hin]; apply Hes in Hin; tauto.
Qed.

#[global] Instance Graph1_laws : GraphLaws Graph1.t.
Proof.
  split.
  - intros g a. apply Graph1_hasVertex_true.
  - intros vs es Hes. exists (Graph1.init vs es).
    split; [done|]. split; [by apply Graph1_init_closed | done].
  - intros vs es g u v _ [= <-]. apply Graph1_init_hasEdge.
Qed.

#[global] Instance Graph2_laws : GraphLaws Graph2.t.
Proof.
  split.
  - intros g a. apply Graph2_hasVertex_keys.
  - intros vs es Hes. eexists. split; [by apply Graph2_init_Ok|].
    split; [by apply nbrs_are_keys_closed, Graph2_init_nbrs|].
    intros a. simpl. unfold Graph2.vertices. simpl.
    rewrite elem_of_keys, py_dict_fmap_lookup. case_decide; split; try done.
  - intros vs es g u v Hes Hg. simpl in Hg. rewrite Graph2_init_Ok in Hg by done.
    simplify_eq. by apply Graph2_init_hasEdge.
Qed.

(** ** addEdge keeps the endpoints among the vertices *)

Lemma Graph1_addEdge_closed g a b :
  edges_closed g → edges_closed (Graph1.addEdge g a b).2.
Proof.
  intros Hg u v. unfold Graph1.addEdge.
  destruct (Graph1.hasEdge g a b); simpl; [apply Hg|].
  assert (∀ vs', Graph1.vertices g ⊆ vs' → a ∈ vs' → b ∈ vs' →
    (u, v) ∈ Graph1.edges g ++ [(Z.min a b, Z.max a b)] → u ∈ vs' ∧ v ∈ vs') as Hkey.
  { intros vs' Hsub Ha Hb [Hin|Hin]%elem_of_app.
    - apply Hg in Hin. simpl in Hin. rewrite !Graph1_hasVertex_true in Hin.
      split; apply Hsub; tauto.
    - apply list_elem_of_singleton in Hin. simplify_eq.
      destruct (Z.min_spec a b) as [[? ->]|[? ->]], (Z.max_spec a b) as [[? ->]|[? ->]]; auto. }
  repeat case_bool_decide; simpl; rewrite !Graph1_hasVertex_true; simpl;
    intros Hin; (apply Hkey; [..|exact Hin]); set_solver.
Qed.

Lemma Graph2_addEdge_lookup_mono g a b k :
  is_Some (Graph2.graph g !! k) → is_Some (Graph2.graph (Graph2.addEdge g a b).2 !! k).
Proof.
  intros Hk. unfold Graph2.addEdge, Graph2.append.
  destruct (Graph2.hasEdge g a b); simpl; [done|].
  repeat case_bool_decide; simpl; rewrite !lookup_insert; repeat case_decide; done.
Qed.

Lemma Graph2_addEdge_lookup g a b k l :
  Graph2.graph (Graph2.addEdge g a b).2 !! k = Some l →
  ∀ v, v ∈ l → v = a ∨ v = b ∨ ∃ l0, Graph2.graph g !! k = Some l0 ∧ v ∈ l0.
Proof.
  unfold Graph2.addEdge, Graph2.append.
  destruct (Graph2.hasEdge g a b); simpl; [by eauto|].
  destruct (Graph2.graph g !! a) eqn:Ha, (Graph2.graph g !! b) eqn:Hb;
    repeat case_bool_decide; simpl; try (by exfalso; eauto using is_Some_None);
    try match goal with H : ¬ is_Some (Some _) |- _ => destruct H; by eexists end;
    rewrite ?lookup_insert; repeat case_decide; subst; simpl;
    intros Hl v Hv; simplify_eq; rewrite ?Ha, ?Hb in *; simpl in *;
    repeat (apply elem_of_app in Hv as [Hv|Hv]);
    try (apply list_elem_of_singleton in Hv; subst); eauto.
Qed.

Lemma Graph2_addEdge_endpoints g a b :
  Graph2.hasEdge g a b = false →
  is_Some (Graph2.graph (Graph2.addEdge g a b).2 !! a) ∧
  is_Some (Graph2.graph (Graph2.addEdge g a b).2 !! b).
Proof.
  intros Hab. unfold Graph2.addEdge, Graph2.append. rewrite Hab. simpl.
  repeat case_bool_decide; simpl; rewrite !lookup_insert; repeat case_decide; done.
Qed.

Lemma Graph2_addEdge_closed g a b :
  edges_closed g → edges_closed (Graph2.addEdge g a b).2.
Proof.
  intros Hg u v (l & Hl & Hv & Hlt)%elem_of_Graph2_edges. simpl.
  rewrite !Graph2_hasVertex_true. split; [by rewrite Hl|].
  destruct (Graph2.hasEdge g a b) eqn:Hab.
  { unfold Graph2.addEdge in *. rewrite Hab in *. simpl in *.
    rewrite <- Graph2_hasVertex_true. apply (Hg u v), elem_of_Graph2_edges. eauto. }
  destruct (Graph2_addEdge_endpoints g a b Hab) as [Ha Hb].
  destruct (Graph2_addEdge_lookup g a b u l Hl v Hv) as [->|[->|(l0 & Hl0 & Hv0)]]; [done..|].
  apply Graph2_addEdge_lookup_mono. rewrite <- Graph2_hasVertex_true.
  apply (Hg u v), elem_of_Graph2_edges. eauto.
Qed.

Lemma Graph2_addEdge_nbrs g a b :
  nbrs_are_keys (Graph2.graph g) → nbrs_are_keys (Graph2.graph (Graph2.addEdge g a b).2).
Proof.
  intros Hg u l v Hl Hv.
  destruct (Graph2.hasEdge g a b) eqn:Hab.
  { unfold Graph2.addEdge in *. rewrite Hab in *. simpl in *. eauto. }
  destruct (Graph2_addEdge_endpoints g a b Hab) as [Ha Hb].
  destruct (Graph2_addEdge_lookup g a b u l Hl v Hv) as [->|[->|(l0 & Hl0 & Hv0)]]; [done..|].
  apply Graph2_addEdge_lookup_mono. eauto.
Qed.

(** ** Loops *)

Lemma for_each_app {A S} (body : S → A → res S) s l1 l2 :
  for_each body s (l1 ++ l2) = s' ← for_each body s l1; for_each body s' l2.
Proof.
  revert s. induction l1 as [|x l1 IH]; intros s; simpl; [done|].
  destruct (body s x); simpl; auto.
Qed.

(** A loop whose body either keeps an invariant or raises [e]. *)
Lemma for_each_inv_or_raise {A S} (P : S → Prop) (e : exn) (body : S → A → res S) l s :
  P s →
  (∀ s x, P s → x ∈ l → body s x = Raise e ∨ ∃ s', body s x = Ok s' ∧ P s') →
  for_each body s l = Raise e ∨ ∃ s', for_each body s l = Ok s' ∧ P s'.
Proof.
  revert s. induction l as [|x l IH]; intros s Hs Hbody; simpl.
  - right. eauto.
  - destruct (Hbody s x Hs) as [->|(s' & -> & Hs')]; [left| by left |]; simpl.
    apply IH; [done|]. intros s0 y ? ?. apply Hbody; [done | by right].
Qed.

(** A loop whose body keeps an invariant and never raises. *)
Lemma for_each_inv {A S} (P : S → Prop) (body : S → A → res S) l s :
  P s →
  (∀ s x, P s → x ∈ l → ∃ s', body s x = Ok s' ∧ P s') →
  ∃ s', for_each body s l = Ok s' ∧ P s'.
Proof.
  revert s. induction l as [|x l IH]; intros s Hs Hbody; simpl.
  - eauto.
  - destruct (Hbody s x Hs) as (s' & -> & Hs'); [left|]; simpl.
    apply IH; [done|]. intros s0 y ? ?. apply Hbody; [done | by right].
Qed.

(** ** The factories build graphs that satisfy the invariant *)

Lemma elem_of_range n x : x ∈ range n ↔ 0 ≤ x < n.
Proof. unfold range. rewrite elem_of_seqZ. lia. Qed.

Section factory_invariant.
Context {G : Type} `{GraphLaws G}.

Lemma complete_closed size : ∃ g : G, complete size = Ok g ∧ edges_closed g.
Proof.
  unfold complete.
  destruct (new_closed (G:=G) (range size)
    (i ← range size; j ← seqZ (i + 1) (size - (i + 1)); [(i, j)])) as (g & ? & ? & _); [|eauto].
  intros u v (i & (j & Hin & Hj)%list_elem_of_bind & Hi)%list_elem_of_bind.
  apply list_elem_of_singleton in Hin. simplify_eq.
  apply elem_of_range in Hi. apply elem_of_seqZ in Hj.
  rewrite !elem_of_range. lia.
Qed.

Lemma path_closed length : ∃ g : G, path length = Ok g ∧ edges_closed g.
Proof.
  unfold path.
  destruct (new_closed (G:=G) (range (length + 1))
    ((λ i, (i, i + 1)) <$> range length)) as (g & ? & ? & _); [|eauto].
  intros u v (i & ? & Hi%elem_of_range)%list_elem_of_fmap. simplify_eq.
  rewrite !elem_of_range. lia.
Qed.

Lemma cycle_closed length :
  1 ≤ length → ∃ g : G, cycle length = Ok g ∧ edges_closed g.
Proof.
  intros Hlen. unfold cycle.
  destruct (new_closed (G:=G) (range length)
    (((λ i, (i, i + 1)) <$> range (length - 1)) ++ [(0, length - 1)])) as (g & ? & ? & _);
    [|eauto].
  intros u v [(i & ? & Hi%elem_of_range)%list_elem_of_fmap | Hin%list_elem_of_singleton]%elem_of_app;
    simplify_eq; rewrite !elem_of_range; lia.
Qed.

Lemma random_closed samples vertCount :
  Forall (is_sample vertCount) samples →
  ∃ g : G, random_with samples vertCount = Ok g ∧ edges_closed g.
Proof.
  intros Hs. unfold random_with.
  destruct (new_closed (G:=G) (range vertCount) samples) as (g & ? & ? & _); [|eauto].
  intros u v Hin. rewrite Forall_forall in Hs. destruct (Hs _ Hin) as (? & ? & _). done.
Qed.

Lemma closed_endpoints_among (g : G) :
  edges_closed g → endpoints_among (get_vertices g) (get_edges g).
Proof. intros Hg u v Hin. apply Hg in Hin. by rewrite <- !has_vertex_spec. Qed.

Lemma copy_closed (g1 : G) :
  edges_closed g1 → ∃ g : G, copy g1 = Ok g ∧ edges_closed g.
Proof.
  intros Hg. unfold copy.
  destruct (new_closed (G:=G) (get_vertices g1) (get_edges g1)) as (g & ? & ? & _); [|eauto].
  by apply closed_endpoints_among.
Qed.

Lemma cleancopy_closed (g1 : G) :
  edges_closed g1 → ∃ g : G, cleancopy g1 = Ok g ∧ edges_closed g.
Proof.
  intros Hg. unfold cleancopy.
  destruct (new_closed (G:=G) (get_vertices g1)
    (elements (list_to_set (get_edges g1) : gset (Z * Z)))) as (g & ? & ? & _); [|eauto].
  intros u v Hin. apply elem_of_elements, elem_of_list_to_set in Hin.
  by apply closed_endpoints_among.
Qed.

Lemma fromFile_closed file :
  fromFile (G:=G) file = Raise ValueError ∨ ∃ g : G, fromFile file = Ok g ∧ edges_closed g.
Proof.
  unfold fromFile. destruct file as [ff|].
  2:{ right. destruct (new_closed (G:=G) [] []) as (g & ? & ? & _); [|eauto].
      intros u v Hin. by apply elem_of_nil in Hin. }
  destruct (for_each_inv_or_raise
      (λ st : list (Z * Z) * gset Z, endpoints_among (elements st.2) st.1)
      ValueError fromFile_line ff ([], ∅)) as [->|([edges verts] & -> & Hinv)].
  - intros u v Hin. by apply elem_of_nil in Hin.
  - intros [edges verts] ll Hinv _. simpl in Hinv. unfold fromFile_line.
    destruct (py_split _) as [|x [|y [|? ?]]]; try (right; by eauto).
    unfold int. destruct (py_int x) as [a|]; simpl; [|by left].
    destruct (py_int y) as [b|]; simpl; [|by left].
    right. eexists. split; [done|]. simpl. intros u v Hin.
    rewrite !elem_of_elements.
    apply elem_of_app in Hin as [Hin|Hin].
    + apply Hinv in Hin. rewrite !elem_of_elements in Hin. set_solver.
    + apply list_elem_of_singleton in Hin. simplify_eq. set_solver.
  - by left.
  - right. simpl in *.
    destruct (new_closed (G:=G) (elements verts) edges) as (g & ? & ? & _); eauto.
Qed.

End factory_invariant.




(** ** Deleting what is absent *)

Lemma Graph1_deleteVertex_absent g a :
  Graph1.hasVertex g a = false → Graph1.deleteVertex g a = g.
Proof.
  unfold Graph1.hasVertex, Graph1.deleteVertex. intros Ha%bool_decide_eq_false.
  apply py_remove_None in Ha. by rewrite Ha.
Qed.

Lemma Graph1_deleteEdge_absent g a b :
  Graph1.hasEdge g a b = false → Graph1.deleteEdge g a b = g.
Proof.
  unfold Graph1.hasEdge, Graph1.deleteEdge. intros Ha%bool_decide_eq_false.
  apply py_remove_None in Ha. by rewrite Ha.
Qed.

Lemma Graph2_hasVertex_false g a :
  Graph2.hasVertex g a = false ↔ Graph2.graph g !! a = None.
Proof.
  unfold Graph2.hasVertex. by rewrite bool_decide_eq_false, <- eq_None_not_Some.
Qed.

Lemma Graph2_deleteVertex_absent g a :
  Graph2.hasVertex g a = false → Graph2.deleteVertex g a = (Ok (), g).
Proof. intros Ha%Graph2_hasVertex_false. unfold Graph2.deleteVertex. by rewrite Ha. Qed.

(** When [a] is a vertex, deleting an absent edge [(a, b)] changes nothing. *)
Lemma Graph2_deleteEdge_absent g a b :
  Graph2.hasVertex g a = true → Graph2.hasEdge g a b = false →
  Graph2.deleteEdge g a b = (Ok (), g).
Proof.
  intros [la Ha]%Graph2_hasVertex_true. unfold Graph2.hasEdge, Graph2.deleteEdge.
  rewrite Ha. intros Hb%bool_decide_eq_false. apply py_remove_None in Hb. by rewrite Hb.
Qed.

(** C5: [Graph2.deleteEdge(a, b)] catches [ValueError] only. When [a] is
    not a vertex, [hasEdge(a, b)] is false and [self.graph[a]] raises a
    [KeyError] that escapes to the caller; the graph is left as it was. *)
Theorem Graph2_deleteEdge_absent_vertex_raises (g : Graph2.t) (a b : Z) :
  Graph2.hasVertex g a = false →
  Graph2.hasEdge g a b = false ∧ Graph2.deleteEdge g a b = (Raise KeyError, g).
Proof.
  intros Ha%Graph2_hasVertex_false. unfold Graph2.hasEdge, Graph2.deleteEdge.
  by rewrite Ha.
Qed.

Lemma Graph2_deleteEdge_absent_vertex_raises_witness :
  Graph2.init [1] [] = Ok (Graph2.Graph2 {[1 := []]}) ∧
  Graph2.hasEdge (Graph2.Graph2 {[1 := []]}) 2 1 = false ∧
  Graph2.deleteEdge (Graph2.Graph2 {[1 := []]}) 2 1 = (Raise KeyError, Graph2.Graph2 {[1 := []]}).
Proof.
  split; [reflexivity|].
  apply (Graph2_deleteEdge_absent_vertex_raises (Graph2.Graph2 {[1 := []]}) 2 1).
  reflexivity.
Defined.

(** ** degree of an absent vertex *)

(** C9, as stated, fails: [Graph1.degree] counts the stored edges that
    mention [v], whether or not [v] is a vertex. *)
Lemma Graph1_degree_absent_counterexample :
  Graph1.hasVertex (Graph1.init [1] [(2, 3)]) 2 = false ∧
  Graph1.degree (Graph1.init [1] [(2, 3)]) 2 = 1%nat.
Proof. split; reflexivity. Qed.

(** C9 (amended): [Graph1.degree(v)] never fails; it is the number of stored
    edges with [v] as an endpoint, hence 0 for every [v] that is not a vertex
    when the endpoints of every edge are vertices. [Graph2.degree(v)] raises
    [KeyError] exactly when [hasVertex(v)] is false, and returns otherwise. *)
Theorem degree_absent_vertex (g1 : Graph1.t) (g2 : Graph2.t) (v : Z) :
  edges_closed g1 →
  (Graph1.hasVertex g1 v = false → Graph1.degree g1 v = 0%nat) ∧
  (Graph2.hasVertex g2 v = false ↔ Graph2.degree g2 v = Raise KeyError) ∧
  (Graph2.hasVertex g2 v = true ↔ ∃ n, Graph2.degree g2 v = Ok n).
Proof.
  intros Hg1. split_and!.
  - intros Hv. unfold Graph1.degree.
    destruct (filter (in_pair v) (Graph1.edges g1)) as [|[x y] l] eqn:Hf; [done|].
    assert ((x, y) ∈ filter (in_pair v) (Graph1.edges g1)) as Hin by (rewrite Hf; left).
    apply list_elem_of_filter in Hin as [[Hx|Hy] Hin]; simpl in *; subst.
    + apply Hg1 in Hin as [Hin _]. simpl in Hin. congruence.
    + apply Hg1 in Hin as [_ Hin]. simpl in Hin. congruence.
  - rewrite Graph2_hasVertex_false. unfold Graph2.degree, getitem.
    destruct (Graph2.graph g2 !! v); simpl; split; done.
  - rewrite Graph2_hasVertex_true. unfold Graph2.degree, getitem.
    destruct (Graph2.graph g2 !! v); simpl; split; try done; eauto.
    by intros [??].
Qed.

Lemma degree_absent_vertex_witness :
  Graph1.degree (Graph1.init [1; 2] [(1, 2)]) 7 = 0%nat.
Proof.
  assert (edges_closed (Graph1.init [1; 2] [(1, 2)])) as Hc.
  { apply Graph1_init_closed. intros u v Hin.
    apply list_elem_of_singleton in Hin. simplify_eq. set_solver. }
  apply (degree_absent_vertex (Graph1.init [1; 2] [(1, 2)]) (Graph2.Graph2 ∅) 7 Hc).
  reflexivity.
Defined.

(** ** cycle *)

Lemma elem_of_cycle_edges (n u v : Z) :
  1 ≤ n →
  (u, v) ∈ ((λ i, (i, i + 1)) <$> range (n - 1)) ++ [(0, n - 1)] ∨
  (v, u) ∈ ((λ i, (i, i + 1)) <$> range (n - 1)) ++ [(0, n - 1)]
  ↔ cycle_adjacent n u v.
Proof.
  intros Hn. unfold cycle_adjacent.
  rewrite !elem_of_app, !list_elem_of_singleton, !list_elem_of_fmap. split.
  - intros [[(i & ? & Hi%elem_of_range)|?]|[(i & ? & Hi%elem_of_range)|?]];
      simplify_eq; lia.
  - intros (Hu & Hv & [->|[->|[[-> ->]|[-> ->]]]]).
    + left. left. exists u. split; [done|]. apply elem_of_range. lia.
    + right. left. exists v. split; [done|]. apply elem_of_range. lia.
    + left. by right.
    + right. by right.
Qed.

Section cycle_spec.
Context {G : Type} `{GraphLaws G}.

Lemma cycle_spec n :
  1 ≤ n →
  ∃ g : G, cycle n = Ok g ∧
    (∀ v, has_vertex g v = true ↔ 0 ≤ v < n) ∧
    (∀ u v, has_edge g u v = true ↔ cycle_adjacent n u v).
Proof.
  intros Hn. unfold cycle.
  set (es := ((λ i, (i, i + 1)) <$> range (n - 1)) ++ [(0, n - 1)]).
  assert (endpoints_among (range n) es) as Hes.
  { intros u v Hin. assert (cycle_adjacent n u v) as (? & ? & _).
    { apply elem_of_cycle_edges; auto. }
    rewrite !elem_of_range. lia. }
  destruct (new_closed (G:=G) (range n) es Hes) as (g & Hg & _ & Hvs).
  exists g. split; [done|]. split.
  - intros v. by rewrite has_vertex_spec, Hvs, elem_of_range.
  - intros u v. rewrite (new_has_edge (range n) es g u v Hes Hg).
    by apply elem_of_cycle_edges.
Qed.

End cycle_spec.

Lemma length_range n : length (range n) = Z.to_nat n.
Proof. unfold range. rewrite length_seqZ. done. Qed.

Lemma NoDup_range n : NoDup (range n).
Proof. apply NoDup_seqZ. Qed.

Lemma size_py_dict_fmap {V} (f : Z → V) (vs : list Z) :
  NoDup vs → size (py_dict ((λ v, (v, f v)) <$> vs)) = length vs.
Proof.
  intros Hnd. rewrite <- size_dom, py_dict_fmap_dom. by apply size_list_to_set.
Qed.

(** C8, as stated, fails for the length 1: both classes build the single
    vertex 0 with the self-loop [(0, 0)]. *)
Lemma cycle_one_self_loop_counterexample :
  (∃ g : Graph1.t, cycle 1 = Ok g ∧ Graph1.vertices g = [0] ∧ Graph1.hasEdge g 0 0 = true) ∧
  (∃ g : Graph2.t, cycle 1 = Ok g ∧ Graph2.vertices g = [0] ∧ Graph2.hasEdge g 0 0 = true).
Proof. split; eexists; split_and!; reflexivity. Qed.

(** C8 (amended): for a length of at least 1, [cycle(length)] returns, in
    both classes, a graph with the [length] vertices [0 .. length-1] in which
    [u] and [v] are joined exactly when they are consecutive or are [0] and
    [length-1]; in a [Graph1] the stored edges are [(i, i+1)] for
    [i] in [0 .. length-2] followed by [(0, length-1)]. For the length 1 this
    is the single vertex 0 with the self-loop [(0, 0)]. *)
Theorem cycle_graph (length : Z) :
  1 ≤ length →
  (∃ g : Graph1.t, cycle length = Ok g ∧
     Graph1.vertices g = range length ∧ Graph1.len g = Z.to_nat length ∧
     Graph1.edges g = ((λ i, (i, i + 1)) <$> range (length - 1)) ++ [(0, length - 1)] ∧
     (∀ v, Graph1.hasVertex g v = true ↔ 0 ≤ v < length) ∧
     (∀ u v, Graph1.hasEdge g u v = true ↔ cycle_adjacent length u v)) ∧
  (∃ g : Graph2.t, cycle length = Ok g ∧
     Graph2.len g = Z.to_nat length ∧
     (∀ v, Graph2.hasVertex g v = true ↔ 0 ≤ v < length) ∧
     (∀ u v, Graph2.hasEdge g u v = true ↔ cycle_adjacent length u v)).
Proof.
  intros Hn. split.
  - destruct (cycle_spec (G:=Graph1.t) length Hn) as (g & Hg & Hv & He).
    exists g. split; [done|]. unfold cycle in Hg. simpl in Hg. simplify_eq.
    split_and!; try done.
    + unfold Graph1.len. simpl. apply length_range.
    + simpl. rewrite fmap_app, <- list_fmap_compose. simpl. f_equal.
      * apply list_fmap_ext. intros _ i _. unfold norm. simpl. f_equal; lia.
      * unfold norm. simpl. do 2 f_equal; lia.
  - destruct (cycle_spec (G:=Graph2.t) length Hn) as (g & Hg & Hv & He).
    exists g. split; [done|]. split_and!; try done.
    unfold cycle in Hg. simpl in Hg. rewrite Graph2_init_Ok in Hg.
    + simplify_eq. unfold Graph2.len. simpl.
      rewrite size_py_dict_fmap by apply NoDup_range. apply length_range.
    + intros u v Hin. assert (cycle_adjacent length u v) as (? & ? & _).
      { apply elem_of_cycle_edges; auto. }
      rewrite !elem_of_range. lia.
Qed.

Lemma cycle_graph_witness :
  ∃ g : Graph2.t, cycle 4 = Ok g ∧ Graph2.len g = 4%nat ∧
    Graph2.hasEdge g 3 0 = true ∧ Graph2.hasEdge g 0 2 = false.
Proof.
  destruct (cycle_graph 4 ltac:(lia)) as [_ (g & Hg & Hlen & _ & He)].
  exists g. split_and!; [done | done | |].
  - apply He. unfold cycle_adjacent. lia.
  - apply not_true_is_false. intros Hc%He. unfold cycle_adjacent in Hc. lia.
Defined.

(** ** Permutations of comprehensions *)

Lemma bind_nil_const {A B} (l : list A) : l ≫= (λ _, @nil B) = [].
Proof. induction l; simpl; auto. Qed.

Lemma bind_app_perm {A B} (f g : A → list B) (l : list A) :
  l ≫= (λ x, f x ++ g x) ≡ₚ (l ≫= f) ++ (l ≫= g).
Proof.
  induction l as [|x l IH]; simpl; [done|].
  rewrite IH. rewrite <- !app_assoc. apply Permutation_app_head.
  rewrite !app_assoc. apply Permutation_app_tail. apply Permutation_app_comm.
Qed.

Lemma bind_ext_in {A B} (f g : A → list B) (l : list A) :
  (∀ x, x ∈ l → f x = g x) → l ≫= f = l ≫= g.
Proof.
  induction l as [|x l IH]; intros Hfg; simpl; [done|].
  rewrite Hfg by left. f_equal. apply IH. intros y Hy. apply Hfg. by right.
Qed.

Lemma bind_single {B} (x : Z) (F : list B) (l : list Z) :
  NoDup l → x ∈ l → l ≫= (λ u, if decide (x = u) then F else []) = F.
Proof.
  induction 1 as [|y l Hy Hnd IH]; intros Hx; simpl.
  - by apply elem_of_nil in Hx.
  - case_decide as Hxy.
    + subst y. rewrite (bind_ext_in _ (λ _, [])).
      * by rewrite bind_nil_const, app_nil_r.
      * intros z Hz. rewrite decide_False; [done|]. intros ->. done.
    + simpl. apply IH. apply elem_of_cons in Hx as [?|?]; done.
Qed.

Lemma filter_all {A} (P : A → Prop) `{∀ x, Decision (P x)} (l : list A) :
  Forall P l → filter P l = l.
Proof.
  induction 1 as [|x l Hx _ IH]; [done|].
  rewrite filter_cons, decide_True by done. by rewrite IH.
Qed.

(** ** The [edges] of a graph built by [Graph2.__init__] *)

Lemma Graph2_edges_keys (gr : gmap Z (list Z)) (f : Z → list Z) :
  (∀ u, u ∈ keys gr → gr !! u = Some (f u)) →
  Graph2.edges (Graph2.Graph2 gr)
  = keys gr ≫= λ u, f u ≫= λ v, if bool_decide (u < v) then [(u, v)] else [].
Proof.
  intros Hf. unfold Graph2.edges. simpl. apply bind_ext_in.
  intros u Hu. by rewrite (Hf u Hu).
Qed.

Lemma Graph2_half_edges (K : list Z) (es : list (Z * Z)) :
  NoDup K → endpoints_among K es →
  (K ≫= λ u, adj es u ≫= λ v, if bool_decide (u < v) then [(u, v)] else [])
  ≡ₚ norm <$> filter (λ e, e.1 ≠ e.2) es.
Proof.
  intros HK. induction es as [|[x y] es IH]; intros Hes.
  - rewrite (bind_ext_in _ (λ _, [])); [by rewrite bind_nil_const|]. done.
  - destruct (Hes x y) as [Hx Hy]; [left|].
    assert (endpoints_among K es) as Hes' by (intros u v ?; apply Hes; by right).
    rewrite (bind_ext_in _ (λ u,
      (if decide (x = u) then (if bool_decide (x < y) then [(x, y)] else []) else []) ++
      ((if decide (y = u) then (if bool_decide (y < x) then [(y, x)] else []) else []) ++
       (adj es u ≫= λ v, if bool_decide (u < v) then [(u, v)] else [])))).
    2:{ intros u _. rewrite adj_cons, !bind_app.
        f_equal; [|f_equal]; case_decide; subst; simpl; by rewrite ?app_nil_r. }
    rewrite bind_app_perm, bind_app_perm, (IH Hes').
    rewrite !bind_single by done.
    rewrite filter_cons. simpl.
    repeat case_bool_decide; case_decide; simpl; try lia;
      unfold norm; simpl; rewrite ?Z.min_l, ?Z.max_r, ?Z.min_r, ?Z.max_l by lia; done.
Qed.

Lemma Graph2_init_edges vs es :
  endpoints_among vs es →
  Graph2.edges (Graph2.Graph2 (py_dict ((λ v, (v, adj es v)) <$> vs)))
  ≡ₚ norm <$> filter (λ e, e.1 ≠ e.2) es.
Proof.
  intros Hes. rewrite (Graph2_edges_keys _ (adj es)).
  - apply Graph2_half_edges; [apply NoDup_keys|].
    intros u v Hin. rewrite !elem_of_keys, !py_dict_fmap_lookup.
    apply Hes in Hin as [??]. by rewrite !decide_True.
  - intros u [l Hl]%elem_of_keys. rewrite Hl. rewrite py_dict_fmap_lookup in Hl.
    case_decide; by simplify_eq.
Qed.

(** ** collapseEdge *)

(** The three comprehensions of [collapseEdge] list, in another order, the
    edges the specification describes, as long as [b] has no self-loop. *)
Lemma collapse_comprehensions (a b : Z) (es : list (Z * Z)) :
  (b, b) ∉ es →
  (filter (λ uv, uv.1 ≠ b ∧ uv.2 ≠ b) es
     ++ ((λ uv, (uv.1, a)) <$> filter (λ uv, uv.1 ≠ a ∧ uv.2 = b) es))
     ++ ((λ uv, (a, uv.2)) <$> filter (λ uv, uv.1 = b ∧ a ≠ uv.2) es)
  ≡ₚ collapse_spec a b es.
Proof.
  induction es as [|[u v] es IH]; intros Hbb; [done|].
  apply not_elem_of_cons in Hbb as [Hne Hbb]. specialize (IH Hbb).
  unfold collapse_spec in *. cbn [mbind list_bind]. fold (@mbind list _).
  rewrite <- IH. rewrite !filter_cons. unfold rewire, in_pair. simpl.
  destruct (decide (u = b)) as [->|Hu], (decide (v = b)) as [->|Hv]; [done|..].
  - (* (b, v) *)
    rewrite (decide_False (P:=b ≠ b ∧ _)) by tauto.
    rewrite (decide_False (P:=_ ∧ v = b)) by tauto.
    rewrite (decide_True (P:=b = b ∨ _)) by tauto.
    destruct (decide (a = v)) as [->|Hav].
    + rewrite (decide_False (P:=_ ∧ v ≠ v)) by tauto.
      rewrite (decide_True (P:=(v, v) = (v, v))) by done. done.
    + rewrite (decide_True (P:=_ ∧ a ≠ v)) by tauto.
      rewrite (decide_False (P:=(a, v) = (a, a))) by congruence.
      simpl. rewrite <- Permutation_middle. done.
  - (* (u, b) *)
    rewrite (decide_False (P:=_ ∧ b ≠ b)) by tauto.
    rewrite (decide_False (P:=u = b ∧ _)) by tauto.
    rewrite (decide_True (P:=_ ∨ b = b)) by tauto.
    destruct (decide (u = a)) as [->|Hua].
    + rewrite (decide_False (P:=a ≠ a ∧ _)) by tauto.
      rewrite (decide_True (P:=(a, a) = (a, a))) by done. done.
    + rewrite (decide_True (P:=u ≠ a ∧ _)) by tauto.
      rewrite (decide_False (P:=(u, a) = (a, a))) by congruence.
      simpl. rewrite <- !app_assoc. simpl. by rewrite <- Permutation_middle.
  - (* an edge away from [b] *)
    rewrite (decide_True (P:=u ≠ b ∧ v ≠ b)) by tauto.
    rewrite (decide_False (P:=_ ∧ v = b)) by tauto.
    rewrite (decide_False (P:=u = b ∧ _)) by tauto.
    rewrite (decide_False (P:=b = u ∨ b = v)) by (intros [?|?]; congruence).
    done.
Qed.

Lemma collapse_spec_no_loop (a b : Z) (es : list (Z * Z)) :
  Forall (λ e, e.1 ≠ e.2) es → Forall (λ e, e.1 ≠ e.2) (collapse_spec a b es).
Proof.
  intros Hes. apply Forall_forall. intros e' (e & He' & He)%list_elem_of_bind.
  rewrite Forall_forall in Hes. specialize (Hes e He).
  destruct e as [u v]. unfold rewire, in_pair in He'. simpl in *.
  repeat case_decide; simplify_eq;
    try (by apply elem_of_nil in He');
    apply list_elem_of_singleton in He'; simplify_eq; simpl; congruence.
Qed.

Lemma elem_of_collapse_spec (a b u v : Z) (es : list (Z * Z)) :
  (u, v) ∈ collapse_spec a b es →
  a ≠ b → (b, b) ∉ es →
  u ≠ b ∧ v ≠ b ∧ ∃ e, e ∈ es ∧ (u = a ∨ u = e.1) ∧ (v = a ∨ v = e.2).
Proof.
  intros (e & He' & He)%list_elem_of_bind Hab Hbb.
  destruct e as [x y]. unfold rewire, in_pair in He'. simpl in *.
  assert (¬ (x = b ∧ y = b)) by (intros [-> ->]; done).
  repeat case_decide; simplify_eq;
    try (by apply elem_of_nil in He');
    apply list_elem_of_singleton in He'; simplify_eq;
    (split_and!; [naive_solver.. | eexists; split; [exact He | simpl; tauto]]).
Qed.

Lemma Graph1_collapseEdge (g : Graph1.t) (a b : Z) :
  Graph1.hasEdge g a b = true →
  Graph1.hasVertex g b = true →
  (b, b) ∉ Graph1.edges g →
  ∃ g', collapseEdge g a b = Ok g' ∧
    py_remove b (Graph1.vertices g) = Some (Graph1.vertices g') ∧
    Graph1.edges g' ≡ₚ norm <$> collapse_spec a b (Graph1.edges g).
Proof.
  intros Hab Hb Hbb. unfold collapseEdge. simpl. rewrite Hab.
  apply Graph1_hasVertex_true in Hb.
  destruct (py_remove b (Graph1.vertices g)) as [vs'|] eqn:Hrm.
  2:{ apply py_remove_None in Hrm. done. }
  simpl. eexists. split; [done|]. simpl. split; [done|].
  by rewrite collapse_comprehensions.
Qed.

Lemma py_remove_NoDup {A} `{EqDecision A} (x : A) l l' :
  py_remove x l = Some l' → NoDup l → (x ∉ l') ∧ NoDup l'.
Proof.
  intros (l1 & l2 & -> & -> & Hx)%py_remove_Some Hnd.
  apply NoDup_app in Hnd as (Hnd1 & Hdis & Hnd2).
  apply NoDup_cons in Hnd2 as [Hx2 Hnd2]. split.
  - rewrite elem_of_app. tauto.
  - apply NoDup_app. split_and!; [done | | done].
    intros y Hy1 Hy2. apply (Hdis y Hy1). by right.
Qed.

Lemma Graph2_collapseEdge (g : Graph2.t) (a b : Z) :
  Graph2.hasEdge g a b = true →
  Graph2.hasVertex g b = true →
  edges_closed g →
  a ≠ b →
  ∃ g', collapseEdge g a b = Ok g' ∧
    (∀ x, Graph2.hasVertex g' x = true ↔ x ≠ b ∧ Graph2.hasVertex g x = true) ∧
    Graph2.edges g' ≡ₚ norm <$> collapse_spec a b (Graph2.edges g).
Proof.
  intros Hab Hb Hg Hne. unfold collapseEdge. simpl. rewrite Hab.
  assert (Graph2.hasVertex g a = true) as Ha.
  { apply Graph2_hasVertex_true. apply Graph2_hasEdge_true in Hab as (l & -> & _). done. }
  assert (Forall (λ e : Z * Z, e.1 ≠ e.2) (Graph2.edges g)) as Hnl.
  { apply Forall_forall. intros [u v] (l & _ & _ & Hlt)%elem_of_Graph2_edges. simpl. lia. }
  assert ((b, b) ∉ Graph2.edges g) as Hbb.
  { intros Hin. rewrite Forall_forall in Hnl. by apply Hnl in Hin. }
  apply Graph2_hasVertex_keys in Hb. unfold Graph2.vertices in *.
  destruct (py_remove b (keys (Graph2.graph g))) as [vs'|] eqn:Hrm.
  2:{ apply py_remove_None in Hrm. done. }
  simpl.
  match goal with |- context [Graph2.init vs' ?es] => set (es' := es) end.
  assert (es' ≡ₚ collapse_spec a b (Graph2.edges g)) as Hperm
    by (by apply collapse_comprehensions).
  destruct (py_remove_NoDup _ _ _ Hrm (NoDup_keys _)) as [Hbvs Hnd].
  assert (∀ x, x ∈ vs' ↔ x ≠ b ∧ Graph2.hasVertex g x = true) as Hvs.
  { intros x. rewrite Graph2_hasVertex_keys. unfold Graph2.vertices.
    destruct (decide (x = b)) as [->|Hx]; [tauto|].
    rewrite (py_remove_elem_of _ _ _ _ Hrm Hx). tauto. }
  assert (endpoints_among vs' es') as Hes.
  { intros u v Hin. rewrite Hperm in Hin.
    apply elem_of_collapse_spec in Hin as (Hu & Hv & [x y] & He & Hux & Hvy); [|done..].
    apply Hg in He as [Hx Hy]. simpl in *. rewrite !Hvs.
    split; (split; [done|]); [destruct Hux | destruct Hvy]; by subst. }
  rewrite Graph2_init_Ok by done. eexists. split; [done|]. split.
  - intros x. rewrite <- Hvs, Graph2_hasVertex_true. simpl.
    rewrite py_dict_fmap_lookup. case_decide; split; done.
  - rewrite Graph2_init_edges by done. rewrite filter_all.
    + by rewrite Hperm.
    + rewrite Hperm. by apply collapse_spec_no_loop.
Qed.




(** ** Counting lemmas *)

Lemma sum_list_with_add {A} (f g : A → nat) (l : list A) :
  sum_list_with (λ x, f x + g x)%nat l = (sum_list_with f l + sum_list_with g l)%nat.
Proof. induction l as [|x l IH]; simpl; [done|]. rewrite IH. lia. Qed.

Lemma sum_list_with_ext_in {A} (f g : A → nat) (l : list A) :
  (∀ x, x ∈ l → f x = g x) → sum_list_with f l = sum_list_with g l.
Proof.
  induction l as [|x l IH]; intros Hfg; simpl; [done|].
  rewrite Hfg by left. f_equal. apply IH. intros y Hy. apply Hfg. by right.
Qed.

Lemma sum_list_with_zero {A} (l : list A) : sum_list_with (λ _, 0%nat) l = 0%nat.
Proof. induction l; simpl; auto. Qed.

Lemma sum_list_with_swap {A B} (f : A → B → nat) (l : list A) (k : list B) :
  sum_list_with (λ x, sum_list_with (f x) k) l
  = sum_list_with (λ y, sum_list_with (λ x, f x y) l) k.
Proof.
  induction l as [|x l IH]; simpl.
  - by rewrite sum_list_with_zero.
  - by rewrite IH, sum_list_with_add.
Qed.

(** In a duplicate-free list that holds [x], exactly one entry is [x]. *)
Lemma sum_list_with_single (x : Z) (n : nat) (l : list Z) :
  NoDup l → x ∈ l → sum_list_with (λ v, if decide (x = v) then n else 0%nat) l = n.
Proof.
  induction 1 as [|y l Hy Hnd IH]; intros Hx; simpl.
  - by apply elem_of_nil in Hx.
  - case_decide as Hxy.
    + subst y. rewrite (sum_list_with_ext_in _ (λ _, 0%nat)).
      * rewrite sum_list_with_zero. lia.
      * intros z Hz. rewrite decide_False; [done|]. by intros ->.
    + simpl. apply IH. apply elem_of_cons in Hx as [?|?]; done.
Qed.

Lemma sum_list_with_fmap {A B} (f : B → nat) (g : A → B) (l : list A) :
  sum_list_with f (g <$> l) = sum_list_with (f ∘ g) l.
Proof. induction l as [|x l IH]; [done|]. rewrite fmap_cons. simpl. by rewrite IH. Qed.

Lemma length_bind {A B} (f : A → list B) (l : list A) :
  length (l ≫= f) = sum_list_with (λ x, length (f x)) l.
Proof. induction l as [|x l IH]; [done|]. by rewrite bind_cons, length_app, IH. Qed.

Lemma occ_cons x y l : occ x (y :: l) = ((if decide (x = y) then 1 else 0) + occ x l)%nat.
Proof. unfold occ. rewrite filter_cons. by case_decide. Qed.

Lemma occ_app x l1 l2 : occ x (l1 ++ l2) = (occ x l1 + occ x l2)%nat.
Proof. unfold occ. by rewrite filter_app, length_app. Qed.

Lemma occ_pos x l : (0 < occ x l)%nat ↔ x ∈ l.
Proof.
  induction l as [|y l IH]; [by rewrite elem_of_nil; unfold occ; simpl; lia|].
  rewrite occ_cons, elem_of_cons. case_decide; [subst; split; auto; lia|].
  rewrite <- IH. simpl. split; [auto | intros [?|?]; done].
Qed.

Lemma occ_zero x l : occ x l = 0%nat ↔ x ∉ l.
Proof. rewrite <- occ_pos. lia. Qed.

(** The entries of [l] that satisfy [P], counted vertex by vertex. *)
Lemma length_filter_occ (P : Z → Prop) `{∀ x, Decision (P x)} (K l : list Z) :
  NoDup K → l ⊆ K →
  length (filter P l) = sum_list_with (λ v, if decide (P v) then occ v l else 0%nat) K.
Proof.
  intros HK. induction l as [|x l IH]; intros Hsub.
  - simpl. rewrite (sum_list_with_ext_in _ (λ _, 0%nat)); [by rewrite sum_list_with_zero|].
    intros v _. by case_decide.
  - assert (x ∈ K) as Hx by (apply Hsub; left).
    assert (l ⊆ K) as Hl by (intros y Hy; apply Hsub; by right).
    rewrite filter_cons.
    rewrite (sum_list_with_ext_in _ (λ v,
      (if decide (x = v) then (if decide (P x) then 1 else 0) else 0) +
      (if decide (P v) then occ v l else 0))%nat).
    2:{ intros v _. rewrite occ_cons. repeat case_decide; subst; try done; lia. }
    rewrite sum_list_with_add, sum_list_with_single, <- (IH Hl) by done.
    case_decide; simpl; lia.
Qed.

(** ** The degree sum *)

Lemma map_to_list_py_dict {V} (f : Z → V) (vs : list Z) :
  NoDup vs → map_to_list (py_dict ((λ v, (v, f v)) <$> vs)) ≡ₚ (λ v, (v, f v)) <$> vs.
Proof.
  intros Hnd. apply NoDup_Permutation.
  - apply NoDup_map_to_list.
  - apply NoDup_fmap_2; [|done]. intros ?? [=]. done.
  - intros [k v]. rewrite elem_of_map_to_list, py_dict_fmap_lookup, list_elem_of_fmap.
    case_decide; split.
    + intros [= <-]. eauto.
    + intros (? & [= -> ->] & _). done.
    + done.
    + intros (? & [= -> ->] & ?). done.
Qed.

Lemma dict_sum_py_dict (f : Z → nat) (vs : list Z) :
  NoDup vs → dict_sum (py_dict ((λ v, (v, f v)) <$> vs)) = sum_list_with f vs.
Proof.
  intros Hnd. unfold dict_sum. rewrite (map_to_list_py_dict f vs Hnd).
  rewrite <- list_fmap_compose.
  rewrite (sum_list_with_fmap id). by apply sum_list_with_ext_in.
Qed.

Lemma degree_sum_list (vs : list Z) (es : list (Z * Z)) :
  NoDup vs → endpoints_among vs es → Forall (λ e, e.1 ≠ e.2) es →
  sum_list_with (λ v, length (filter (in_pair v) es)) vs = (2 * length es)%nat.
Proof.
  intros Hnd. induction es as [|[x y] es IH]; intros Hes Hnl.
  - simpl. by rewrite sum_list_with_zero.
  - destruct (Hes x y) as [Hx Hy]; [left|].
    assert (endpoints_among vs es) as Hes' by (intros u v ?; apply Hes; by right).
    apply Forall_cons in Hnl as [Hxy Hnl]. simpl in Hxy.
    rewrite (sum_list_with_ext_in _ (λ v,
      (if decide (x = v) then 1 else 0) +
      ((if decide (y = v) then 1 else 0) + length (filter (in_pair v) es)))%nat).
    2:{ intros v _. rewrite filter_cons. unfold in_pair at 1. simpl.
        repeat case_decide; subst; simpl; try lia; naive_solver. }
    rewrite !sum_list_with_add, !sum_list_with_single, (IH Hes' Hnl) by done.
    simpl. lia.
Qed.

Lemma Graph1_degree_sum (g : Graph1.t) :
  NoDup (Graph1.vertices g) → edges_closed g → Forall (λ e, e.1 ≠ e.2) (Graph1.edges g) →
  sum_list_with (Graph1.degree g) (Graph1.vertices g) = (2 * length (Graph1.edges g))%nat.
Proof.
  intros Hnd Hg Hnl. apply degree_sum_list; [done | | done].
  intros u v Hin. apply Hg in Hin. simpl in Hin. by rewrite !Graph1_hasVertex_true in Hin.
Qed.

Lemma symmetric_nbrs_are_keys gr : symmetric gr → nbrs_are_keys gr.
Proof.
  intros Hsym u l v Hl Hv.
  assert (u ∈ nbrs gr v) as Hu.
  { apply occ_pos. rewrite <- Hsym. apply occ_pos. unfold nbrs. by rewrite Hl. }
  unfold nbrs in Hu. destruct (gr !! v); [done|]. by apply elem_of_nil in Hu.
Qed.

Lemma nbrs_subseteq_keys gr u : nbrs_are_keys gr → nbrs gr u ⊆ keys gr.
Proof.
  intros Hk v Hv. apply elem_of_keys. unfold nbrs in Hv.
  destruct (gr !! u) as [l|] eqn:Hl; [by eapply Hk | by apply elem_of_nil in Hv].
Qed.

Lemma length_half (u : Z) (l : list Z) :
  length (l ≫= λ v, if bool_decide (u < v) then [(u, v)] else [])
  = length (filter (λ v, u < v) l).
Proof.
  induction l as [|v l IH]; [done|].
  rewrite bind_cons, length_app, IH, filter_cons.
  case_bool_decide; case_decide; simpl; lia.
Qed.

Lemma length_split_lt (u : Z) (l : list Z) :
  u ∉ l →
  length l = (length (filter (λ v, (u < v)%Z) l) + length (filter (λ v, (v < u)%Z) l))%nat.
Proof.
  induction l as [|v l IH]; intros Hu; [done|].
  apply not_elem_of_cons in Hu as [Hne Hu]. rewrite !filter_cons.
  repeat case_decide; simpl; rewrite (IH Hu); lia.
Qed.

Lemma Graph2_edges_length gr :
  length (Graph2.edges (Graph2.Graph2 gr))
  = sum_list_with (λ u, length (filter (λ v, u < v) (nbrs gr u))) (keys gr).
Proof.
  unfold Graph2.edges. rewrite length_bind. apply sum_list_with_ext_in.
  intros u _. simpl. apply length_half.
Qed.

Lemma Graph2_degree_sum gr :
  symmetric gr → loop_free gr →
  sum_list_with (λ u, length (nbrs gr u)) (keys gr)
  = (2 * length (Graph2.edges (Graph2.Graph2 gr)))%nat.
Proof.
  intros Hsym Hlf. pose proof (symmetric_nbrs_are_keys gr Hsym) as Hk.
  pose proof (NoDup_keys gr) as HK.
  rewrite Graph2_edges_length.
  rewrite (sum_list_with_ext_in _ (λ u,
    length (filter (λ v, (u < v)%Z) (nbrs gr u))
    + length (filter (λ v, (v < u)%Z) (nbrs gr u)))%nat).
  2:{ intros u _. apply length_split_lt, Hlf. }
  rewrite sum_list_with_add.
  assert (sum_list_with (λ u, length (filter (λ v, v < u) (nbrs gr u))) (keys gr)
          = sum_list_with (λ u, length (filter (λ v, u < v) (nbrs gr u))) (keys gr)) as ->; [|lia].
  rewrite (sum_list_with_ext_in _ (λ u,
    sum_list_with (λ v, if decide (v < u) then occ v (nbrs gr u) else 0%nat) (keys gr))).
  2:{ intros u _. apply (length_filter_occ (λ v, v < u)); [done|].
      by apply nbrs_subseteq_keys. }
  rewrite sum_list_with_swap. apply sum_list_with_ext_in. intros v _.
  rewrite (length_filter_occ (λ u, v < u) (keys gr)); [|done|by apply nbrs_subseteq_keys].
  apply sum_list_with_ext_in. intros u _. case_decide; [apply Hsym | done].
Qed.

Lemma mapM_res_Ok {A B} (f : A → res B) (g : A → B) (l : list A) :
  (∀ x, x ∈ l → f x = Ok (g x)) → mapM f l = Ok (g <$> l).
Proof.
  induction l as [|x l IH]; intros Hf; [done|].
  simpl. rewrite Hf by left. simpl. rewrite IH; [done|].
  intros y Hy. apply Hf. by right.
Qed.

Lemma Graph2_degree_key g v :
  v ∈ keys (Graph2.graph g) → Graph2.degree g v = Ok (length (nbrs (Graph2.graph g) v)).
Proof.
  intros [l Hl]%elem_of_keys. unfold Graph2.degree, getitem, nbrs. by rewrite Hl.
Qed.

Lemma Graph2_degreeFn_Ok g :
  Graph2.degreeFn g
  = Ok (py_dict ((λ v, (v, length (nbrs (Graph2.graph g) v))) <$> keys (Graph2.graph g))).
Proof.
  unfold Graph2.degreeFn.
  assert (∀ K acc, K ⊆ keys (Graph2.graph g) →
    for_each (λ acc v, d ← Graph2.degree g v; Ok (acc ++ [(v, d)])) acc K
    = Ok (acc ++ ((λ v, (v, length (nbrs (Graph2.graph g) v))) <$> K))) as Hloop.
  { induction K as [|v K IH]; intros acc HK; simpl.
    - by rewrite app_nil_r.
    - rewrite Graph2_degree_key by (apply HK; left). simpl.
      rewrite IH by (intros y Hy; apply HK; by right).
      by rewrite <- app_assoc. }
  by rewrite Hloop.
Qed.

(** C6, as stated, fails: an edge stored twice counts twice in the
    degrees, a self-loop counts once in the degree of its vertex in a
    [Graph1], and twice in a [Graph2] whose [edges] leave it out. *)
Lemma degree_sum_counterexample :
  (sum_list_with (Graph1.degree (Graph1.init [1; 2] [(1, 2); (2, 1)])) [1; 2] = 4%nat ∧
   distinct_edges (Graph1.edges (Graph1.init [1; 2] [(1, 2); (2, 1)])) = 1%nat) ∧
  (sum_list_with (Graph1.degree (Graph1.init [1] [(1, 1)])) [1] = 1%nat ∧
   distinct_edges (Graph1.edges (Graph1.init [1] [(1, 1)])) = 1%nat) ∧
  (∃ g, Graph2.init [1] [(1, 1)] = Ok g ∧ Graph2.vertices g = [1] ∧
        Graph2.degree g 1 = Ok 2%nat ∧ distinct_edges (Graph2.edges g) = 0%nat).
Proof.
  split_and!; try (vm_compute; reflexivity).
  eexists. split_and!; vm_compute; reflexivity.
Qed.

(** C6 (amended): in a [Graph1] with no duplicate vertex entry, no
    self-loop and the endpoints of every edge among the vertices, and in a
    [Graph2] with no self-loop and symmetric neighbour lists, the sum over all
    vertices of [degree(v)], which is also the sum of the values of
    [degreeFn()], is twice the number of edges in [edges], hence twice the
    number of distinct edges when no edge is there twice. *)
Theorem degree_sum (g1 : Graph1.t) (g2 : Graph2.t) :
  NoDup (Graph1.vertices g1) →
  edges_closed g1 →
  Forall (λ e, e.1 ≠ e.2) (Graph1.edges g1) →
  symmetric (Graph2.graph g2) →
  loop_free (Graph2.graph g2) →
  (sum_list_with (Graph1.degree g1) (Graph1.vertices g1) = (2 * length (Graph1.edges g1))%nat ∧
   dict_sum (Graph1.degreeFn g1) = (2 * length (Graph1.edges g1))%nat ∧
   (NoDup (Graph1.edges g1) → length (Graph1.edges g1) = distinct_edges (Graph1.edges g1))) ∧
  (∃ ds m,
     mapM (Graph2.degree g2) (Graph2.vertices g2) = Ok ds ∧
     sum_list ds = (2 * length (Graph2.edges g2))%nat ∧
     Graph2.degreeFn g2 = Ok m ∧
     dict_sum m = (2 * length (Graph2.edges g2))%nat ∧
     (NoDup (Graph2.edges g2) → length (Graph2.edges g2) = distinct_edges (Graph2.edges g2))).
Proof.
  intros Hnd Hg1 Hnl Hsym Hlf. split.
  - split_and!.
    + by apply Graph1_degree_sum.
    + unfold Graph1.degreeFn. rewrite dict_sum_py_dict by done.
      by apply Graph1_degree_sum.
    + intros He. unfold distinct_edges. by rewrite size_list_to_set.
  - destruct g2 as [gr]. simpl in *.
    exists ((λ v, length (nbrs gr v)) <$> keys gr). eexists. split_and!.
    + apply mapM_res_Ok. intros v Hv. by apply (Graph2_degree_key (Graph2.Graph2 gr)).
    + rewrite (sum_list_with_fmap id). by apply Graph2_degree_sum.
    + apply Graph2_degreeFn_Ok.
    + simpl. rewrite dict_sum_py_dict by apply NoDup_keys. by apply Graph2_degree_sum.
    + intros He. unfold distinct_edges. by rewrite size_list_to_set.
Qed.

(** ** Symmetry of the neighbour lists built by [Graph2.__init__] *)

Lemma occ_adj_sym (es : list (Z * Z)) (u v : Z) : occ v (adj es u) = occ u (adj es v).
Proof.
  induction es as [|[x y] es IH]; [done|].
  rewrite !adj_cons, !occ_app, IH.
  repeat case_decide; subst; rewrite ?occ_cons; unfold occ; simpl;
    repeat case_decide; simpl; try lia; congruence.
Qed.

Lemma adj_not_endpoint (vs : list Z) (es : list (Z * Z)) (u : Z) :
  endpoints_among vs es → u ∉ vs → adj es u = [].
Proof.
  intros Hes Hu. destruct (adj es u) as [|v l] eqn:Hadj; [done|].
  assert (v ∈ adj es u) as Hv by (rewrite Hadj; left).
  apply elem_of_adj in Hv as [Hv|Hv]; apply Hes in Hv; tauto.
Qed.

Lemma nbrs_init (vs : list Z) (es : list (Z * Z)) (u : Z) :
  endpoints_among vs es →
  nbrs (py_dict ((λ v, (v, adj es v)) <$> vs)) u = adj es u.
Proof.
  intros Hes. unfold nbrs. rewrite py_dict_fmap_lookup. case_decide; [done|].
  simpl. symmetry. by eapply adj_not_endpoint.
Qed.

Lemma Graph2_init_symmetric (vs : list Z) (es : list (Z * Z)) :
  endpoints_among vs es → symmetric (py_dict ((λ v, (v, adj es v)) <$> vs)).
Proof. intros Hes u v. rewrite !nbrs_init by done. apply occ_adj_sym. Qed.

Lemma Graph2_init_loop_free (vs : list Z) (es : list (Z * Z)) :
  endpoints_among vs es → Forall (λ e, e.1 ≠ e.2) es →
  loop_free (py_dict ((λ v, (v, adj es v)) <$> vs)).
Proof.
  intros Hes Hnl u. rewrite nbrs_init by done. rewrite Forall_forall in Hnl.
  intros [Hin|Hin]%elem_of_adj; by apply Hnl in Hin.
Qed.

Lemma degree_sum_witness :
  sum_list_with (Graph1.degree (Graph1.init [1; 2; 3] [(2, 1); (2, 3)])) [1; 2; 3] = 4%nat ∧
  ∃ m, Graph2.degreeFn (Graph2.Graph2 (py_dict ((λ v, (v, adj [(2, 1); (2, 3)] v)) <$> [1; 2; 3])))
       = Ok m ∧ dict_sum m = 4%nat.
Proof.
  set (es := [(2, 1); (2, 3)]). set (vs := [1; 2; 3]).
  assert (endpoints_among vs es) as Hes.
  { intros u v Hin. unfold es, vs in *.
    repeat (apply elem_of_cons in Hin as [Hin|Hin]; [simplify_eq; set_solver|]).
    by apply elem_of_nil in Hin. }
  assert (Forall (λ e : Z * Z, e.1 ≠ e.2) es) as Hnl by (repeat constructor; done).
  assert (NoDup vs) as Hnd by (unfold vs; repeat constructor; set_solver).
  assert (Forall (λ e : Z * Z, e.1 ≠ e.2) (Graph1.edges (Graph1.init vs es))) as Hnl1
    by (repeat constructor; done).
  destruct (degree_sum (Graph1.init vs es)
    (Graph2.Graph2 (py_dict ((λ v, (v, adj es v)) <$> vs))) Hnd
    (Graph1_init_closed vs es Hes) Hnl1
    (Graph2_init_symmetric vs es Hes) (Graph2_init_loop_free vs es Hes Hnl))
    as [(H1 & _ & _) (ds & m & _ & _ & Hm & Hsum & _)].
  split; [exact H1|]. exists m. split; [exact Hm|]. rewrite Hsum.
  vm_compute. reflexivity.
Defined.

(** ** Symmetry and deleteVertex *)

(** C10: [Graph2.deleteVertex(a)] runs [self.graph[xx].remove(a)] for every
    neighbour [xx] of [a] after [del self.graph[a]], inside a [try] that
    catches [KeyError]. When [a] has a self-loop, [xx = a] raises that
    [KeyError] and the loop is abandoned: the neighbours listed after [a]
    keep [a] in their lists. From [Graph2([1, 2], [(1, 1), (1, 2)])], whose
    neighbour lists are symmetric, [deleteVertex(1)] leaves [{2: [1]}]:
    [hasEdge(2, 1)] is true and [hasEdge(1, 2)] is false. *)
Theorem Graph2_deleteVertex_self_loop_asymmetric :
  ∃ g0, Graph2.init [1; 2] [(1, 1); (1, 2)] = Ok g0 ∧
    symmetric (Graph2.graph g0) ∧
    (Graph2.deleteVertex g0 1).1 = Ok () ∧
    Graph2.graph (Graph2.deleteVertex g0 1).2 = {[2 := [1]]} ∧
    occ 1 (nbrs (Graph2.graph (Graph2.deleteVertex g0 1).2) 2) = 1%nat ∧
    occ 2 (nbrs (Graph2.graph (Graph2.deleteVertex g0 1).2) 1) = 0%nat ∧
    Graph2.hasEdge (Graph2.deleteVertex g0 1).2 2 1 = true ∧
    Graph2.hasEdge (Graph2.deleteVertex g0 1).2 1 2 = false.
Proof.
  assert (endpoints_among [1; 2] [(1, 1); (1, 2)]) as Hes.
  { intros u v Hin.
    repeat (apply elem_of_cons in Hin as [Hin|Hin]; [simplify_eq; set_solver|]).
    by apply elem_of_nil in Hin. }
  eexists. split; [by apply Graph2_init_Ok|].
  split; [by apply Graph2_init_symmetric|].
  split_and!; vm_compute; reflexivity.
Qed.

(** ** fromFile *)

Lemma foldl_endpoints (s : gset Z) (es : list (Z * Z)) :
  foldl (λ s e, s ∪ {[e.1; e.2]}) s es = s ∪ endpoints_of es.
Proof.
  unfold endpoints_of. revert s. induction es as [|e es IH] using rev_ind; intros s.
  - simpl. set_solver.
  - rewrite !foldl_app. simpl. rewrite IH. set_solver.
Qed.

Lemma elem_of_endpoints_of (es : list (Z * Z)) (v : Z) :
  v ∈ endpoints_of es ↔ ∃ e, e ∈ es ∧ in_pair v e.
Proof.
  unfold endpoints_of, in_pair. induction es as [|e es IH] using rev_ind.
  - simpl. split; [set_solver|]. intros (e & He & _). by apply elem_of_nil in He.
  - rewrite foldl_app. simpl. rewrite elem_of_union, IH. split.
    + intros [(e' & He' & Hv)|Hv].
      * exists e'. split; [apply elem_of_app; by left | done].
      * exists e. split; [apply elem_of_app; right; by left | set_solver].
    + intros (e' & [He'|He']%elem_of_app & Hv).
      * left. eauto.
      * apply list_elem_of_singleton in He'. subst. right. set_solver.
Qed.

Lemma fromFile_line_classify edges verts ll :
  fromFile_line (edges, verts) ll =
  match classify ll with
  | Skipped => Ok (edges, verts)
  | Edge a b => Ok (edges ++ [(a, b)], verts ∪ {[a; b]})
  | Malformed => Raise ValueError
  end.
Proof.
  unfold fromFile_line, classify, fields, int.
  destruct (py_split _) as [|x [|y [|? ?]]]; try done.
  destruct (py_int x), (py_int y); done.
Qed.

(** The loop of [fromFile]: it stops with [ValueError] at the first
    malformed line, and otherwise collects the edges of the lines and their
    endpoints. *)
Lemma fromFile_loop (ff : list string) (edges : list (Z * Z)) (verts : gset Z) :
  for_each fromFile_line (edges, verts) ff
  = if decide (Exists (λ ll, classify ll = Malformed) ff) then Raise ValueError
    else Ok (edges ++ file_edges ff, verts ∪ endpoints_of (file_edges ff)).
Proof.
  revert edges verts. induction ff as [|ll ff IH]; intros edges verts.
  - rewrite decide_False by (by intros ?%Exists_nil).
    simpl. rewrite app_nil_r. do 2 f_equal. unfold endpoints_of. simpl. set_solver.
  - cbn [for_each]. rewrite fromFile_line_classify.
    unfold file_edges. cbn [omap list_omap]. fold (file_edges ff).
    destruct (classify ll) as [|a b|] eqn:Hc; simpl.
    + rewrite IH. destruct (decide (Exists _ ff)) as [He|He].
      * by rewrite decide_True by (by right).
      * rewrite decide_False; [done|]. intros [?|?]%Exists_cons; [congruence|done].
    + rewrite IH. destruct (decide (Exists _ ff)) as [He|He].
      * by rewrite decide_True by (by right).
      * rewrite decide_False by (intros [?|?]%Exists_cons; [congruence|done]).
        rewrite <- app_assoc. simpl. do 2 f_equal.
        unfold endpoints_of at 2. simpl. rewrite foldl_endpoints. set_solver.
    + by rewrite decide_True by (by left).
Qed.

Lemma py_lstrip_field (x r : str) : is_field x → py_lstrip (x ++ r) = x ++ r.
Proof.
  intros [Hne Hx]. destruct x as [|c x]; [done|].
  apply Forall_cons in Hx as [Hc _]. simpl. by rewrite Hc.
Qed.

Lemma is_field_reverse (x : str) : is_field x → is_field (reverse x).
Proof.
  intros [Hne Hx]. split.
  - intros Hr. apply Hne. apply (f_equal reverse) in Hr.
    by rewrite reverse_involutive in Hr.
  - apply Forall_forall. intros c Hc. rewrite elem_of_reverse in Hc.
    rewrite Forall_forall in Hx. by apply Hx.
Qed.

Lemma py_strip_two_fields (x y : str) :
  is_field x → is_field y →
  py_strip (x ++ " "%char :: y ++ ["010"%char]) = x ++ " "%char :: y.
Proof.
  intros Hx Hy. unfold py_strip. rewrite py_lstrip_field by done.
  rewrite reverse_app, reverse_cons, reverse_app. simpl.
  rewrite <- !app_assoc. rewrite py_lstrip_field by (by apply is_field_reverse).
  rewrite reverse_app, reverse_involutive, reverse_app, reverse_involutive.
  by rewrite <- app_assoc.
Qed.

Lemma py_split_no_space (x : str) :
  Forall (λ c, Ascii.is_space c = false) x → py_split x = [x].
Proof.
  induction 1 as [|c x Hc _ IH]; [done|].
  simpl. rewrite IH. case_decide; [subst; done | done].
Qed.

Lemma py_split_two_fields (x y : str) :
  is_field x → is_field y → py_split (x ++ " "%char :: y) = [x; y].
Proof.
  intros [_ Hx] [_ Hy]. induction Hx as [|c x Hc _ IH]; simpl.
  - by rewrite py_split_no_space.
  - rewrite IH. case_decide; [subst; done | done].
Qed.

(** A line made of two fields with one space between them and a newline
    after them is an edge when both fields are integers. *)
Lemma classify_two_fields (x y : str) (a b : Z) :
  is_field x → is_field y → py_int x = Some a → py_int y = Some b →
  classify (String.string_of_list_ascii (x ++ " "%char :: y ++ ["010"%char])) = Edge a b.
Proof.
  intros Hx Hy Ha Hb. unfold classify, fields.
  rewrite String.list_ascii_of_string_of_list_ascii.
  rewrite py_strip_two_fields, py_split_two_fields by done.
  by rewrite Ha, Hb.
Qed.

Section fromFile_spec.
Context {G : Type} `{GraphLaws G}.

Lemma fromFile_unfold (ff : list string) :
  fromFile (G:=G) (Some ff)
  = if decide (Exists (λ ll, classify ll = Malformed) ff) then Raise ValueError
    else new (elements (endpoints_of (file_edges ff))) (file_edges ff).
Proof.
  unfold fromFile. rewrite fromFile_loop. case_decide; [done|]. simpl.
  by rewrite (left_id_L ∅ (∪)).
Qed.

Lemma file_edges_endpoints (ff : list string) :
  endpoints_among (elements (endpoints_of (file_edges ff))) (file_edges ff).
Proof.
  intros u v Hin. rewrite !elem_of_elements, !elem_of_endpoints_of.
  split; exists (u, v); (split; [done|]); [by left | by right].
Qed.

Lemma fromFile_well_formed (ff : list string) :
  ¬ Exists (λ ll, classify ll = Malformed) ff →
  ∃ g : G, fromFile (Some ff) = Ok g ∧
    (∀ v, has_vertex g v = true ↔ ∃ e, e ∈ file_edges ff ∧ in_pair v e) ∧
    (∀ u v, has_edge g u v = true ↔ (u, v) ∈ file_edges ff ∨ (v, u) ∈ file_edges ff).
Proof.
  intros Hok. rewrite fromFile_unfold, decide_False by done.
  destruct (new_closed (G:=G) _ _ (file_edges_endpoints ff)) as (g & Hg & _ & Hv).
  exists g. split; [done|]. split.
  - intros v. by rewrite has_vertex_spec, Hv, elem_of_elements, elem_of_endpoints_of.
  - intros u v. by apply (new_has_edge _ _ g u v (file_edges_endpoints ff)).
Qed.

End fromFile_spec.

(** C4, as stated, fails: a line of two fields that are not integers makes
    [int] raise a [ValueError], which [fromFile] does not catch (it catches
    [IOError] only); and a line whose two integers are separated by two
    spaces has three fields for [split(" ")] and is skipped. *)
Lemma fromFile_counterexample :
  fromFile (G:=Graph1.t) (Some ["a b"%string]) = Raise ValueError ∧
  fromFile (G:=Graph2.t) (Some ["a b"%string]) = Raise ValueError ∧
  fromFile (G:=Graph1.t) (Some ["1  2"%string]) = Ok (Graph1.Graph1 [] []).
Proof. split_and!; reflexivity. Qed.

(** C4 (amended): [fromFile] returns the empty graph when the file cannot
    be opened. Otherwise it strips each line and splits it at every single
    space; a line with two fields that are both integers contributes the
    edge of these two integers, and both become vertices; a line with another
    number of fields is skipped; and on the first line that has two fields of
    which one is not an integer, [fromFile] raises [ValueError]. *)
Theorem fromFile_outcome (file : option (list string)) :
  match file with
  | None =>
      fromFile (G:=Graph1.t) None = Ok (Graph1.Graph1 [] []) ∧
      fromFile (G:=Graph2.t) None = Ok (Graph2.Graph2 ∅)
  | Some ff =>
      if decide (Exists (λ ll, classify ll = Malformed) ff) then
        fromFile (G:=Graph1.t) file = Raise ValueError ∧
        fromFile (G:=Graph2.t) file = Raise ValueError
      else
        (∃ g : Graph1.t, fromFile file = Ok g ∧
           Graph1.edges g = norm <$> file_edges ff ∧
           (∀ v, Graph1.hasVertex g v = true ↔ ∃ e, e ∈ file_edges ff ∧ in_pair v e) ∧
           (∀ u v, Graph1.hasEdge g u v = true ↔ (u, v) ∈ file_edges ff ∨ (v, u) ∈ file_edges ff)) ∧
        (∃ g : Graph2.t, fromFile file = Ok g ∧
           (∀ v, Graph2.hasVertex g v = true ↔ ∃ e, e ∈ file_edges ff ∧ in_pair v e) ∧
           (∀ u v, Graph2.hasEdge g u v = true ↔ (u, v) ∈ file_edges ff ∨ (v, u) ∈ file_edges ff))
  end.
Proof.
  destruct file as [ff|]; [|split; reflexivity].
  case_decide as Hm.
  - rewrite !fromFile_unfold, !decide_True by done. done.
  - split.
    + destruct (fromFile_well_formed (G:=Graph1.t) ff Hm) as (g & Hg & Hv & He).
      exists g. split_and!; try done.
      rewrite fromFile_unfold, decide_False in Hg by done. simpl in Hg. by simplify_eq.
    + destruct (fromFile_well_formed (G:=Graph2.t) ff Hm) as (g & Hg & Hv & He).
      exists g. split_and!; done.
Qed.

Example fromFile_sample :
  fromFile (G:=Graph1.t) (Some ["3 1"; " 1 2 "; ""; "7"; "1  5"; "2 -4"]%string)
  = Ok (Graph1.init (elements ({[3; 1; 2; -4]} : gset Z)) [(3, 1); (1, 2); (2, -4)]).
Proof. reflexivity. Qed.

(** ** isConnected1 and isConnected2 on a repeated vertex entry *)

(** C1: [Graph1.isConnected2] starts its component count from
    [len(self.vertices)], which counts a vertex once for each of its entries
    in the list, while [buckets] has one key for it. On [Graph1([1, 1], [])],
    a single vertex, [isConnected1] returns [True] and [isConnected2] returns
    [False]; built from the same arguments, the [Graph2] has one key and
    both of its methods return [True]. *)
Theorem isConnected_repeated_vertex (fuel : nat) :
  Graph1.isConnected1 (S fuel) (Graph1.init [1; 1] []) = Ok true ∧
  Graph1.isConnected2 (S fuel) (Graph1.init [1; 1] []) = Ok false ∧
  ∃ g2, Graph2.init [1; 1] [] = Ok g2 ∧
    Graph2.isConnected1 (S fuel) g2 = Ok true ∧
    Graph2.isConnected2 (S fuel) g2 = Ok true.
Proof.
  split_and!; [reflexivity | reflexivity |].
  eexists. split_and!; reflexivity.
Qed.

(** ** copy and aliasing *)

Module StoreFacts.
Import Store StoreInv.

Ltac unfold_M :=
  unfold mbind, M_bind, bind, mret, M_ret, ret, raise, try_pass, remove, item,
    load_ints, load_pairs, load_dict, load_graph1, load_graph2, store, alloc in *.

Lemma keeps_ret {A} (J : gmap loc obj → Prop) (a : A) : keeps J (ret a).
Proof. by intros h Hh. Qed.

Lemma keeps_bind {A B} (J : gmap loc obj → Prop) (m : M A) (k : A → M B) :
  keeps J m → (∀ a, keeps J (k a)) → keeps J (m ≫= k).
Proof.
  intros Hm Hk h Hh. specialize (Hm h Hh). unfold_M.
  destruct (m h) as [[a| |] h1]; simpl in *; [by apply Hk | done..].
Qed.

Lemma keeps_try_pass (J : gmap loc obj → Prop) (body : M unit) (e : exn) :
  keeps J body → keeps J (try_pass body e).
Proof.
  intros Hm h Hh. specialize (Hm h Hh). unfold try_pass.
  destruct (body h) as [[a|e'|] h1]; simpl in *; [done | | done].
  by case_decide.
Qed.

Lemma keeps_for {A} (J : gmap loc obj → Prop) (body : A → M unit) (l : list A) :
  (∀ x, keeps J (body x)) → keeps J (for_ body l).
Proof.
  intros Hb. induction l as [|x l IH]; simpl.
  - apply keeps_ret.
  - apply keeps_bind; [apply Hb | done].
Qed.

Lemma keeps_run (J : gmap loc obj → Prop) (step : mutation → M unit) (mus : list mutation) h :
  (∀ mu, keeps J (step mu)) → J h → J (run step mus h).
Proof.
  intros Hs. unfold run. revert h. induction mus as [|mu mus IH]; intros h Hh; simpl; [done|].
  apply IH. by apply Hs.
Qed.

Lemma keeps_and {A} (J1 J2 : gmap loc obj → Prop) (m : M A) :
  keeps J1 m → keeps J2 m → keeps (λ h, J1 h ∧ J2 h) m.
Proof. intros H1 H2 h [??]. split; [by apply H1 | by apply H2]. Qed.

(** *** Graph1 *)

Section graph1.
Context (S : gset loc) (h0 : gmap loc obj) (c v : loc).

Local Abbreviation J := (apart1 S h0 c v).

Lemma Graph1_hasVertex_keeps a : keeps J (Graph1_hasVertex c a).
Proof.
  intros h Hh. unfold Graph1_hasVertex. unfold_M.
  repeat (case_match; simplify_eq/=); done.
Qed.

Lemma Graph1_hasEdge_keeps a b : keeps J (Graph1_hasEdge c a b).
Proof.
  intros h Hh. unfold Graph1_hasEdge. unfold_M.
  repeat (case_match; simplify_eq/=); done.
Qed.

Lemma Graph1_addVertex_keeps a : keeps J (Graph1_addVertex c a).
Proof.
  intros h (HS & Hun & Hty & Hc & e & Hce & He). unfold Graph1_addVertex. unfold_M.
  rewrite Hce. simpl.
  destruct (h !! v) as [[xs| | | |]|] eqn:Hv; simpl;
    try (split_and!; [done..|]; by eauto).
  assert (v ∉ S) as HvS.
  { intros Hin. apply (Hty v xs Hin). by rewrite <- Hun. }
  split_and!; [| |done|done|].
  - rewrite dom_insert_L. set_solver.
  - intros l Hl. rewrite lookup_insert_ne by (by intros ->). by apply Hun.
  - exists e. split; [|done]. rewrite lookup_insert_ne; [done|]. intros ->. congruence.
Qed.

Lemma Graph1_append_edge_keeps a b : keeps J (Graph1_append_edge c a b).
Proof.
  intros h (HS & Hun & Hty & Hc & e & Hce & He). unfold Graph1_append_edge. unfold_M.
  rewrite Hce. simpl.
  destruct (h !! e) as [[| es | | |]|] eqn:Hv; simpl;
    try (split_and!; [done..|]; by eauto).
  split_and!; [| |done|done|].
  - rewrite dom_insert_L. set_solver.
  - intros l Hl. rewrite lookup_insert_ne by (by intros ->). by apply Hun.
  - exists e. split; [|done]. rewrite lookup_insert_ne; [done|]. intros ->. congruence.
Qed.

Lemma Graph1_addEdge_keeps a b : keeps J (Graph1_addEdge c a b).
Proof.
  unfold Graph1_addEdge.
  apply keeps_bind; [apply Graph1_hasEdge_keeps|]. intros has.
  destruct (negb has); [|apply keeps_ret].
  apply keeps_bind; [apply Graph1_hasVertex_keeps|]. intros ina.
  apply keeps_bind; [apply Graph1_hasVertex_keeps|]. intros inb.
  apply keeps_bind; [|intros; apply keeps_ret].
  destruct ina, inb; simpl;
    repeat first [ apply Graph1_append_edge_keeps
                 | apply Graph1_addVertex_keeps
                 | apply keeps_bind; [|intros _] ].
Qed.

Lemma Graph1_deleteEdge_keeps a b : keeps J (Graph1_deleteEdge c a b).
Proof.
  apply keeps_try_pass.
  intros h (HS & Hun & Hty & Hc & e & Hce & He). unfold_M.
  rewrite Hce. simpl.
  destruct (h !! e) as [[| es | | |]|] eqn:Hv; simpl;
    try (split_and!; [done..|]; by eauto).
  destruct (py_remove _ es) as [es'|]; simpl; [|split_and!; [done..|]; by eauto].
  split_and!; [| |done|done|].
  - rewrite dom_insert_L. set_solver.
  - intros l Hl. rewrite lookup_insert_ne by (by intros ->). by apply Hun.
  - exists e. split; [|done]. rewrite lookup_insert_ne; [done|]. intros ->. congruence.
Qed.

Lemma Graph1_deleteVertex_keeps a : keeps J (Graph1_deleteVertex c a).
Proof.
  apply keeps_try_pass.
  intros h (HS & Hun & Hty & Hc & e & Hce & He). unfold_M.
  rewrite Hce. simpl.
  destruct (h !! v) as [[xs| | | |]|] eqn:Hv; simpl;
    try (split_and!; [done..|]; by eauto).
  assert (v ∉ S) as HvS.
  { intros Hin. apply (Hty v xs Hin). by rewrite <- Hun. }
  assert (v ≠ c) as Hvc by (intros ->; congruence).
  assert (apart1 S h0 c v (<[v := IntList (default xs (py_remove a xs))]> h)) as HJ1.
  { split_and!; [| |done|done|].
    - rewrite dom_insert_L. set_solver.
    - intros l Hl. rewrite lookup_insert_ne by (by intros ->). by apply Hun.
    - exists e. split; [|done]. by rewrite lookup_insert_ne. }
  destruct (py_remove a xs) as [xs'|]; simpl; [|split_and!; [done..|]; by eauto].
  simpl in HJ1. destruct HJ1 as (HS1 & Hun1 & _ & _ & _).
  set (h1 := <[v := IntList xs']> h) in *.
  destruct (h1 !! e) as [[| es | | |]|] eqn:He1; simpl;
    try (split_and!; [done..|]; exists e; split; [|done]; unfold h1;
         by rewrite lookup_insert_ne).
  pose proof (is_fresh (dom h1)) as Hfresh.
  set (e' := fresh (dom h1)) in *.
  assert (e' ∉ S) as He'S by set_solver.
  split_and!; [| |done|done|].
  - rewrite !dom_insert_L. set_solver.
  - intros l Hl. rewrite !lookup_insert_ne by (by intros ->). by apply Hun1.
  - exists e'. split; [|done]. by rewrite lookup_insert_eq.
Qed.

Lemma Graph1_mutate_keeps mu : keeps J (Graph1_mutate c mu).
Proof.
  destruct mu; simpl.
  - apply Graph1_addVertex_keeps.
  - apply keeps_bind; [apply Graph1_addEdge_keeps | intros; apply keeps_ret].
  - apply Graph1_deleteVertex_keeps.
  - apply Graph1_deleteEdge_keeps.
Qed.

End graph1.

(** *** Graph2 *)

Section graph2.
Context (S : gset loc) (h0 : gmap loc obj) (d : loc) (oc : option loc).

Local Abbreviation J := (apart2 S h0 d oc).

(** A store at an address outside [S] that holds a list of ints, or holds
    nothing yet, keeps the invariant. *)
Lemma apart2_insert_list h l xs :
  J h → l ∉ S → (h !! l = None ∨ ∃ ys, h !! l = Some (IntList ys)) →
  J (<[l := IntList xs]> h).
Proof.
  intros (HS & Hun & Hd & [m0 Hd0] & Hm & Hc) Hl Hold.
  assert (d ≠ l) as Hdl.
  { intros ->. destruct Hold as [?|[ys ?]]; congruence. }
  split_and!; [| |done| | |].
  - rewrite dom_insert_L. set_solver.
  - intros l' Hl'. rewrite lookup_insert_ne by (by intros ->). by apply Hun.
  - exists m0. by rewrite lookup_insert_ne.
  - intros m k l' Hdm Hk.
    rewrite lookup_insert_ne in Hdm by done.
    destruct (Hm m k l' Hdm Hk) as [? [ys Hys]]. split; [done|].
    destruct (decide (l' = l)) as [->|?].
    + rewrite lookup_insert_eq. eauto.
    + rewrite lookup_insert_ne by done. eauto.
  - intros c Hoc. destruct (Hc c Hoc) as [? Hcd]. split; [done|].
    rewrite lookup_insert_ne; [done|]. intros ->.
    destruct Hold as [?|[ys ?]]; congruence.
Qed.

(** A store of a dict at [d], whose values are among the old ones and new
    lists outside [S], keeps the invariant. *)
Lemma apart2_insert_dict h m m' :
  J h → h !! d = Some (Dict m) →
  (∀ k l, m' !! k = Some l →
     (∃ k', m !! k' = Some l) ∨ ((l ∉ S) ∧ ∃ xs, h !! l = Some (IntList xs))) →
  J (<[d := Dict m']> h).
Proof.
  intros (HS & Hun & Hd & _ & Hm & Hc) Hdm Hm'.
  split_and!; [| |done| | |].
  - rewrite dom_insert_L. set_solver.
  - intros l' Hl'. rewrite lookup_insert_ne by (by intros ->). by apply Hun.
  - exists m'. by rewrite lookup_insert_eq.
  - intros m0 k l. rewrite lookup_insert_eq. intros [= <-] Hk.
    assert ((l ∉ S) ∧ ∃ xs, h !! l = Some (IntList xs)) as [? [xs Hxs]].
    { destruct (Hm' k l Hk) as [[k' Hk']|?]; [by eapply Hm | done]. }
    split; [done|]. exists xs. rewrite lookup_insert_ne; [done|]. intros ->. congruence.
  - intros c Hoc. destruct (Hc c Hoc) as [? Hcd]. split; [done|].
    rewrite lookup_insert_ne; [done|]. intros ->. congruence.
Qed.

Lemma apart2_fresh h : J h → (fresh (dom h) ∉ S) ∧ h !! fresh (dom h) = None.
Proof.
  intros (HS & _). pose proof (is_fresh (dom h)) as Hf. split; [set_solver|].
  by apply not_elem_of_dom.
Qed.

Lemma dict_set_keeps k xs : keeps J (dict_set d k xs).
Proof.
  intros h Hh. unfold dict_set. unfold_M.
  destruct (apart2_fresh h Hh) as [Hf1 Hf2].
  set (l := fresh (dom h)) in *.
  assert (J (<[l := IntList xs]> h)) as H1 by (apply apart2_insert_list; auto).
  destruct (<[l := IntList xs]> h !! d) as [[| | m | |]|] eqn:Hd; simpl; try done.
  eapply apart2_insert_dict; [done..|].
  intros k' l' Hk'. destruct (decide (k = k')) as [->|Hne].
  - rewrite lookup_insert_eq in Hk'. simplify_eq. right. split; [done|].
    rewrite lookup_insert_eq. eauto.
  - rewrite lookup_insert_ne in Hk' by done. eauto.
Qed.

Lemma dict_append_keeps k x : keeps J (dict_append d k x).
Proof.
  intros h Hh. unfold dict_append. unfold_M.
  destruct (h !! d) as [[| | m | |]|] eqn:Hd; simpl; try done.
  destruct (m !! k) as [l|] eqn:Hk; simpl; [|done].
  pose proof Hh as (HS & Hun & HdS & _ & Hm & Hc).
  destruct (Hm m k l Hd Hk) as [Hl [xs Hxs]]. rewrite Hxs. simpl.
  apply apart2_insert_list; [done | done | eauto].
Qed.

Lemma dict_remove_keeps k x : keeps J (dict_remove d k x).
Proof.
  intros h Hh. unfold dict_remove. unfold_M.
  destruct (h !! d) as [[| | m | |]|] eqn:Hd; simpl; try done.
  destruct (m !! k) as [l|] eqn:Hk; simpl; [|done].
  pose proof Hh as (HS & Hun & HdS & _ & Hm & Hc).
  destruct (Hm m k l Hd Hk) as [Hl [xs Hxs]]. rewrite Hxs. simpl.
  destruct (py_remove x xs) as [xs'|]; simpl; [|done].
  apply apart2_insert_list; [done | done | eauto].
Qed.

Lemma dict_mem_keeps k x : keeps J (dict_mem d k x).
Proof.
  intros h Hh. unfold dict_mem. unfold_M.
  destruct (h !! d) as [[| | m | |]|] eqn:Hd; simpl; try done.
  destruct (m !! k) as [l|] eqn:Hk; simpl; [|done].
  destruct (h !! l) as [[xs| | | |]|]; done.
Qed.

End graph2.

Section graph2_instance.
Context (S : gset loc) (h0 : gmap loc obj) (d c : loc).

Local Abbreviation J := (apart2 S h0 d (Some c)).

Lemma load_graph2_keeps {A} (k : loc → M A) :
  keeps J (k d) → keeps J (load_graph2 c ≫= k).
Proof.
  intros Hk h Hh. pose proof Hh as (_ & _ & _ & _ & _ & Hc).
  destruct (Hc c eq_refl) as [_ Hcd]. unfold_M. rewrite Hcd. by apply Hk.
Qed.

Lemma Graph2_hasVertex_keeps a : keeps J (Graph2_hasVertex c a).
Proof.
  apply load_graph2_keeps. intros h Hh. unfold_M.
  destruct (h !! d) as [[| | m | |]|]; done.
Qed.

Lemma Graph2_hasEdge_keeps a b : keeps J (Graph2_hasEdge c a b).
Proof.
  apply keeps_bind; [apply Graph2_hasVertex_keeps|]. intros [|]; [|apply keeps_ret].
  apply load_graph2_keeps, dict_mem_keeps.
Qed.

Lemma Graph2_addVertex_keeps a : keeps J (Graph2_addVertex c a).
Proof. apply load_graph2_keeps, dict_set_keeps. Qed.

Lemma Graph2_addEdge_keeps a b : keeps J (Graph2_addEdge c a b).
Proof.
  unfold Graph2_addEdge.
  apply keeps_bind; [apply Graph2_hasEdge_keeps|]. intros has.
  destruct (negb has); [|apply keeps_ret].
  apply load_graph2_keeps.
  apply keeps_bind; [apply Graph2_hasVertex_keeps|]. intros ina.
  apply keeps_bind; [apply Graph2_hasVertex_keeps|]. intros inb.
  apply keeps_bind; [|intros; apply keeps_ret].
  destruct ina, inb; simpl;
    (apply keeps_bind; [|intros _]);
    first [apply dict_append_keeps | apply dict_set_keeps].
Qed.

Lemma Graph2_deleteEdge_keeps a b : keeps J (Graph2_deleteEdge c a b).
Proof.
  apply keeps_try_pass, load_graph2_keeps.
  apply keeps_bind; [|intros _]; apply dict_remove_keeps.
Qed.

Lemma Graph2_deleteVertex_keeps a : keeps J (Graph2_deleteVertex c a).
Proof.
  apply keeps_try_pass, load_graph2_keeps.
  intros h Hh. unfold mbind, M_bind, bind, load_dict, item, load_ints, store, ret, raise.
  destruct (h !! d) as [[| | m | |]|] eqn:Hd; simpl; try done.
  destruct (m !! a) as [l|] eqn:Hk; simpl; [|done].
  destruct (h !! l) as [[xs| | | |]|] eqn:Hl; simpl; try done.
  apply (keeps_for J (λ xx, dict_remove d xx a) xs).
  - intros xx. apply dict_remove_keeps.
  - eapply apart2_insert_dict; [done..|].
    intros k l' [_ Hl']%lookup_delete_Some. eauto.
Qed.

Lemma Graph2_mutate_keeps mu : keeps J (Graph2_mutate c mu).
Proof.
  destruct mu; simpl.
  - apply Graph2_addVertex_keeps.
  - apply keeps_bind; [apply Graph2_addEdge_keeps | intros; apply keeps_ret].
  - apply Graph2_deleteVertex_keeps.
  - apply Graph2_deleteEdge_keeps.
Qed.

End graph2_instance.

(** *** What copy allocates *)

Lemma Graph1_copy_spec h g v e es :
  h !! g = Some (Graph1Obj v e) → h !! e = Some (PairList es) →
  Graph1_copy g h =
    (Ret (fresh (dom (<[fresh (dom h) := PairList (norm <$> es)]> h))),
     <[fresh (dom (<[fresh (dom h) := PairList (norm <$> es)]> h))
         := Graph1Obj v (fresh (dom h))]>
       (<[fresh (dom h) := PairList (norm <$> es)]> h)).
Proof.
  intros Hg He. unfold Graph1_copy, Graph1_init. unfold_M. by rewrite Hg, He.
Qed.

Lemma Graph2_edges_from_heap m us h : (Graph2_edges_from m us h).2 = h.
Proof.
  induction us as [|u us IH]; simpl; [done|]. unfold_M.
  destruct (m !! u) as [l|]; simpl; [|done].
  destruct (h !! l) as [[xs| | | |]|]; simpl; try done.
  specialize IH. destruct (Graph2_edges_from m us h) as [[r| |] h']; simpl in *; done.
Qed.

Lemma Graph2_edges_heap g h : (Graph2_edges g h).2 = h.
Proof.
  unfold Graph2_edges. unfold_M.
  destruct (h !! g) as [[| | | |d]|]; simpl; try done.
  destruct (h !! d) as [[| | m | |]|]; simpl; try done.
  apply Graph2_edges_from_heap.
Qed.

Lemma apart2_weaken S S' h h' d oc h1 :
  apart2 S' h' d oc h1 → S ⊆ S' → (∀ l, l ∈ S → h' !! l = h !! l) →
  apart2 S h d oc h1.
Proof.
  intros (HS & Hun & Hd & Hex & Hm & Hc) Hsub Hpre. split_and!.
  - set_solver.
  - intros l Hl. rewrite Hun by set_solver. by apply Hpre.
  - set_solver.
  - done.
  - intros m k l Hdm Hk. destruct (Hm m k l Hdm Hk) as [? ?]. split; [set_solver | done].
  - intros c Hoc. destruct (Hc c Hoc) as [? ?]. split; [set_solver | done].
Qed.

Lemma Graph2_init_apart h v es c h1 :
  Graph2_init v es h = (Ret c, h1) → ∃ d, apart2 (dom h) h d (Some c) h1.
Proof.
  unfold Graph2_init.
  unfold mbind at 1, M_bind at 1, bind at 1, load_ints.
  destruct (h !! v) as [[vs| | | |]|] eqn:Hv; simpl; try done.
  unfold mbind at 1, M_bind at 1, bind at 1, alloc.
  pose proof (is_fresh (dom h)) as Hfresh.
  set (d := fresh (dom h)) in *. set (h' := <[d := Dict ∅]> h).
  assert (apart2 (dom h) h d None h') as H0.
  { unfold h'. split_and!; [| |done| | |done].
    - rewrite dom_insert_L. set_solver.
    - intros l Hl. rewrite lookup_insert_ne; [done|]. by intros ->.
    - exists ∅. by rewrite lookup_insert_eq.
    - intros m k l. rewrite lookup_insert_eq. intros [= <-]. by rewrite lookup_empty. }
  unfold mbind at 1, M_bind at 1, bind at 1.
  pose proof (keeps_for _ (λ v0, dict_set d v0 []) vs
    (λ x, dict_set_keeps (dom h) h d None x []) h' H0) as H1.
  destruct (for_ (λ v0, dict_set d v0 []) vs h') as [[[]| |] h2]; simpl in *; try done.
  unfold mbind at 1, M_bind at 1, bind at 1.
  pose proof (keeps_for _ (λ ee : Z * Z, dict_append d ee.1 ee.2;; dict_append d ee.2 ee.1) es
    (λ ee, keeps_bind _ _ _ (dict_append_keeps (dom h) h d None ee.1 ee.2)
             (λ _, dict_append_keeps (dom h) h d None ee.2 ee.1)) h2 H1) as H2.
  destruct (for_ _ es h2) as [[[]| |] h3]; simpl in *; try done.
  unfold alloc. intros [= <- <-]. exists d.
  destruct H2 as (HS & Hun & Hd & [m0 Hd0] & Hm & _).
  pose proof (is_fresh (dom h3)) as Hf3. set (c := fresh (dom h3)) in *.
  assert (∀ l o, h3 !! l = Some o → l ≠ c) as Hne.
  { intros l o Hl ->. apply Hf3. apply elem_of_dom. eauto. }
  split_and!; [| |done| | |].
  - rewrite dom_insert_L. set_solver.
  - intros l Hl. rewrite lookup_insert_ne; [by apply Hun|]. set_solver.
  - exists m0. rewrite lookup_insert_ne; [done|]. symmetry. eauto.
  - intros m k l. rewrite lookup_insert_ne by (symmetry; eauto). intros Hdm Hk.
    destruct (Hm m k l Hdm Hk) as [? [xs Hxs]]. split; [done|]. exists xs.
    rewrite lookup_insert_ne; [done|]. symmetry. eauto.
  - intros c' [= <-]. split; [set_solver|]. by rewrite lookup_insert_eq.
Qed.

Lemma Graph2_copy_apart h g c h1 :
  Graph2_copy g h = (Ret c, h1) → ∃ d, apart2 (dom h) h d (Some c) h1.
Proof.
  unfold Graph2_copy, Graph2_vertices.
  unfold mbind at 1, M_bind at 1, bind at 1. unfold_M.
  destruct (h !! g) as [[| | | |dg]|] eqn:Hg; simpl; try done.
  destruct (h !! dg) as [[| | mg | |]|] eqn:Hdg; simpl; try done.
  pose proof (is_fresh (dom h)) as Hfresh.
  set (v' := fresh (dom h)) in *. set (h' := <[v' := IntList (keys mg)]> h).
  pose proof (Graph2_edges_heap g h') as Hheap.
  destruct (Graph2_edges g h') as [[es| |] h''] eqn:He; simpl in *; subst h''; try done.
  intros Hinit. destruct (Graph2_init_apart h' v' es c h1 Hinit) as [d Hd].
  exists d. eapply apart2_weaken; [exact Hd | |].
  - unfold h'. rewrite dom_insert_L. set_solver.
  - intros l Hl. unfold h'. rewrite lookup_insert_ne; [done|]. by intros ->.
Qed.

(** *** What a caller sees of a graph depends on its own cells only *)

Lemma Graph2_graph_of_agree h h' g :
  Graph2_at h g → (∀ l, l ∈ Graph2_cells h g → h' !! l = h !! l) →
  Graph2_graph_of h' g = Graph2_graph_of h g.
Proof.
  intros (d & m & Hg & Hd & Hm) Hsame.
  unfold Graph2_cells in Hsame. rewrite Hg, Hd in Hsame.
  unfold Graph2_graph_of. rewrite Hg, (Hsame g), Hg, Hd, (Hsame d), Hd by set_solver.
  f_equal. apply map_fmap_ext. intros k l Hk. unfold ints_at.
  rewrite (Hsame l); [done|]. apply elem_of_union_r. by eapply elem_of_map_img_2.
Qed.

Lemma Graph2_cells_dom h g : Graph2_at h g → Graph2_cells h g ⊆ dom h.
Proof.
  intros (d & m & Hg & Hd & Hm). unfold Graph2_cells. rewrite Hg, Hd.
  intros l [[->%elem_of_singleton| ->%elem_of_singleton]%elem_of_union
           |(k & Hk)%elem_of_map_img]%elem_of_union;
    apply elem_of_dom; eauto.
  destruct (Hm k l Hk) as [xs ?]. eauto.
Qed.

Lemma apart2_at S h0 d c h : apart2 S h0 d (Some c) h → Graph2_at h c.
Proof.
  intros (_ & _ & _ & [m Hd] & Hm & Hc). destruct (Hc c eq_refl) as [_ Hcd].
  exists d, m. split_and!; [done..|]. intros k l Hk. by destruct (Hm m k l Hd Hk).
Qed.

Lemma apart2_cells S h0 d c h l :
  apart2 S h0 d (Some c) h → l ∈ Graph2_cells h c → l ∉ S.
Proof.
  intros (_ & _ & HdS & [m Hd] & Hm & Hc). destruct (Hc c eq_refl) as [HcS Hcd].
  unfold Graph2_cells. rewrite Hcd, Hd.
  intros [[->%elem_of_singleton| ->%elem_of_singleton]%elem_of_union
         |(k & Hk)%elem_of_map_img]%elem_of_union; [done..|].
  by destruct (Hm m k l Hd Hk).
Qed.

(** Two graphs with no cell in common: the second is apart from the cells
    of the first. *)
Lemma apart2_swap h0 h dc c g :
  apart2 (dom h0) h0 dc (Some c) h → Graph2_at h0 g →
  ∃ dg, apart2 (Graph2_cells h c) h dg (Some g) h.
Proof.
  intros Hc (dg & mg & Hg & Hdg & Hmg).
  pose proof Hc as (HS & Hun & _).
  assert (∀ l o, h0 !! l = Some o → h !! l = Some o ∧ l ∉ Graph2_cells h c) as Hold.
  { intros l o Hl. assert (l ∈ dom h0) as Hin by (apply elem_of_dom; eauto).
    split; [by rewrite Hun | ]. intros Hcell. by apply (apart2_cells _ _ _ _ _ _ Hc Hcell). }
  exists dg. split_and!.
  - by apply Graph2_cells_dom, (apart2_at _ _ _ _ _ Hc).
  - done.
  - by eapply Hold.
  - exists mg. by eapply Hold.
  - intros m k l Hd Hk. destruct (Hold _ _ Hdg) as [Hd' _]. simplify_eq.
    destruct (Hmg k l Hk) as [xs Hxs]. destruct (Hold _ _ Hxs). eauto.
  - intros ? [= <-]. destruct (Hold _ _ Hg). done.
Qed.




End StoreFacts.

(** ** Symmetry of the neighbour lists is kept without self-loops *)

Lemma nbrs_insert gr k l u :
  nbrs (<[k := l]> gr) u = if decide (k = u) then l else nbrs gr u.
Proof. unfold nbrs. rewrite lookup_insert. by case_decide. Qed.

Lemma nbrs_delete gr k u :
  nbrs (delete k gr) u = if decide (k = u) then [] else nbrs gr u.
Proof. unfold nbrs. rewrite lookup_delete. by case_decide. Qed.

Lemma nbrs_append gr k x u :
  nbrs (Graph2.append gr k x) u = if decide (k = u) then nbrs gr k ++ [x] else nbrs gr u.
Proof. unfold Graph2.append. by rewrite nbrs_insert. Qed.

Lemma nbrs_None gr u : gr !! u = None → nbrs gr u = [].
Proof. unfold nbrs. by intros ->. Qed.

Lemma occ_nil x : occ x [] = 0%nat.
Proof. done. Qed.

Lemma occ_py_remove x y l l' :
  py_remove x l = Some l' →
  occ y l = ((if decide (y = x) then 1 else 0) + occ y l')%nat.
Proof.
  intros (l1 & l2 & -> & -> & _)%py_remove_Some.
  rewrite !occ_app, occ_cons. lia.
Qed.

Lemma Graph2_hasEdge_nbrs g a b :
  Graph2.hasEdge g a b = true ↔ b ∈ nbrs (Graph2.graph g) a.
Proof.
  rewrite Graph2_hasEdge_true. unfold nbrs. destruct (Graph2.graph g !! a) as [l|]; simpl.
  - naive_solver.
  - split; [naive_solver | by intros ?%elem_of_nil].
Qed.

Lemma symmetric_hasEdge g a b :
  symmetric (Graph2.graph g) → Graph2.hasEdge g a b = Graph2.hasEdge g b a.
Proof.
  intros Hsym. apply eq_true_iff_eq.
  by rewrite !Graph2_hasEdge_nbrs, <- !occ_pos, Hsym.
Qed.

Lemma Graph2_addVertexCleanly_symmetric g a :
  symmetric (Graph2.graph g) → symmetric (Graph2.graph (Graph2.addVertexCleanly g a).2).
Proof.
  intros Hsym. unfold Graph2.addVertexCleanly. case_bool_decide as Ha; [|done].
  simpl. intros u v. rewrite !nbrs_insert.
  repeat case_decide; subst; rewrite ?(nbrs_None _ _ Ha); try done.
  - rewrite <- Hsym. by rewrite (nbrs_None _ _ Ha).
  - rewrite Hsym. by rewrite (nbrs_None _ _ Ha).
Qed.

Lemma Graph2_addEdge_symmetric g a b :
  symmetric (Graph2.graph g) → symmetric (Graph2.graph (Graph2.addEdge g a b).2).
Proof.
  intros Hsym. unfold Graph2.addEdge.
  destruct (Graph2.hasEdge g a b); simpl; [done|].
  assert (∀ k, ¬ is_Some (Graph2.graph g !! k) → nbrs (Graph2.graph g) k = []) as Hnone.
  { intros k Hk. apply nbrs_None. by apply eq_None_not_Some. }
  repeat case_bool_decide; simpl; intros u v;
    rewrite ?nbrs_insert, ?nbrs_append, ?nbrs_insert, ?nbrs_append;
    pose proof (Hsym u v); pose proof (Hsym a v); pose proof (Hsym b v);
    pose proof (Hsym u a); pose proof (Hsym u b); pose proof (Hsym a b);
    repeat case_decide; subst;
    repeat match goal with
           | H : ¬ is_Some (_ !! _) |- _ => apply Hnone in H; rewrite ?H in *; clear H
           end;
    rewrite ?occ_app, ?occ_cons, ?occ_nil in *;
    repeat case_decide; subst; try lia; try congruence.
Qed.

Lemma Graph2_deleteEdge_symmetric g a b :
  symmetric (Graph2.graph g) → symmetric (Graph2.graph (Graph2.deleteEdge g a b).2).
Proof.
  intros Hsym. unfold Graph2.deleteEdge.
  destruct (Graph2.graph g !! a) as [la|] eqn:Ha; [|done].
  destruct (py_remove b la) as [la'|] eqn:Hra; [|done].
  assert (nbrs (Graph2.graph g) a = la) as Hna by (unfold nbrs; by rewrite Ha).
  pose proof (λ y, occ_py_remove b y la la' Hra) as E1.
  destruct (decide (a = b)) as [<-|Hab].
  - (* a self-loop: the second [remove] acts on what the first one left *)
    rewrite lookup_insert_eq.
    destruct (py_remove a la') as [la''|] eqn:Hrb; simpl; intros u v;
      rewrite ?nbrs_insert;
      pose proof (Hsym u v); pose proof (Hsym a v); pose proof (Hsym u a);
      pose proof (E1 u); pose proof (E1 v);
      try (pose proof (occ_py_remove a u la' la'' Hrb);
           pose proof (occ_py_remove a v la' la'' Hrb));
      repeat case_decide; subst; rewrite ?Hna in *; repeat case_decide; try lia; congruence.
  - rewrite lookup_insert_ne by done.
    assert (0 < occ a (nbrs (Graph2.graph g) b))%nat as Hpos.
    { rewrite <- Hsym, Hna. specialize (E1 b). rewrite decide_True in E1 by done. lia. }
    destruct (Graph2.graph g !! b) as [lb|] eqn:Hb.
    2:{ rewrite (nbrs_None _ _ Hb) in Hpos. unfold occ in Hpos. simpl in Hpos. lia. }
    assert (nbrs (Graph2.graph g) b = lb) as Hnb by (unfold nbrs; by rewrite Hb).
    destruct (py_remove a lb) as [lb'|] eqn:Hrb.
    2:{ apply py_remove_None, occ_zero in Hrb. rewrite Hnb in Hpos. lia. }
    pose proof (λ y, occ_py_remove a y lb lb' Hrb) as E2.
    simpl. intros u v. rewrite !nbrs_insert.
    pose proof (Hsym u v); pose proof (Hsym a v); pose proof (Hsym u a);
      pose proof (Hsym b v); pose proof (Hsym u b); pose proof (Hsym a b);
      pose proof (E1 u); pose proof (E1 v); pose proof (E2 u); pose proof (E2 v).
    repeat case_decide; subst; rewrite ?Hna, ?Hnb in *; repeat case_decide; try lia; congruence.
Qed.

Lemma strip_vertex_symmetric a rest gr :
  gr !! a = None →
  (∀ u v, u ≠ a → v ≠ a → occ v (nbrs gr u) = occ u (nbrs gr v)) →
  (∀ u, u ≠ a → occ a (nbrs gr u) = occ u rest) →
  a ∉ rest →
  ∃ gr', Graph2.strip_vertex a rest gr = (Ok (), gr') ∧ symmetric gr'.
Proof.
  revert gr. induction rest as [|xx rest IH]; intros gr Ha Hsym Hocc Hin; simpl.
  - exists gr. split; [done|]. intros u v.
    destruct (decide (u = a)) as [->|Hu], (decide (v = a)) as [->|Hv]; [done| | |by apply Hsym].
    + rewrite (nbrs_None _ _ Ha), (Hocc v Hv). done.
    + rewrite (nbrs_None _ _ Ha), (Hocc u Hu). done.
  - apply not_elem_of_cons in Hin as [Hxa Hin].
    assert (xx ≠ a) as Hxa' by done.
    pose proof (Hocc xx Hxa') as Hx. rewrite occ_cons, decide_True in Hx by done.
    destruct (gr !! xx) as [l|] eqn:Hl.
    2:{ rewrite (nbrs_None _ _ Hl) in Hx. unfold occ in Hx. simpl in Hx. lia. }
    assert (nbrs gr xx = l) as Hnx by (unfold nbrs; by rewrite Hl).
    rewrite Hnx in Hx.
    destruct (py_remove a l) as [l'|] eqn:Hrm.
    2:{ apply py_remove_None, occ_zero in Hrm. lia. }
    pose proof (λ y, occ_py_remove a y l l' Hrm) as E.
    apply IH; [by rewrite lookup_insert_ne | | | done].
    + intros u v Hu Hv. rewrite !nbrs_insert.
      pose proof (Hsym u v Hu Hv). pose proof (E u). pose proof (E v).
      repeat case_decide; subst; rewrite ?Hnx in *; repeat case_decide; try lia; congruence.
    + intros u Hu. rewrite nbrs_insert. pose proof (Hocc u Hu) as Hou.
      rewrite occ_cons in Hou. pose proof (E a).
      repeat case_decide; subst; rewrite ?Hnx in *; repeat case_decide; try lia; congruence.
Qed.

(** Without a self-loop at [a], [deleteVertex(a)] returns normally and
    keeps the neighbour lists symmetric. *)
Lemma Graph2_deleteVertex_symmetric g a :
  symmetric (Graph2.graph g) → a ∉ nbrs (Graph2.graph g) a →
  (Graph2.deleteVertex g a).1 = Ok () ∧
  symmetric (Graph2.graph (Graph2.deleteVertex g a).2).
Proof.
  intros Hsym Hloop. unfold Graph2.deleteVertex.
  destruct (Graph2.graph g !! a) as [ov|] eqn:Ha; [|done].
  assert (nbrs (Graph2.graph g) a = ov) as Hna by (unfold nbrs; by rewrite Ha).
  destruct (strip_vertex_symmetric a ov (delete a (Graph2.graph g))) as (gr' & -> & Hgr').
  - apply lookup_delete_eq.
  - intros u v Hu Hv. rewrite !nbrs_delete, !decide_False by done. apply Hsym.
  - intros u Hu. rewrite nbrs_delete, decide_False by done. by rewrite Hsym, Hna.
  - by rewrite <- Hna.
  - done.
Qed.

(** The operations C10 names, on a graph with symmetric neighbour lists:
    all of them keep the symmetry, [deleteVertex] as long as the vertex it
    deletes has no self-loop. *)
Lemma Graph2_symmetric_kept g a b :
  symmetric (Graph2.graph g) →
  symmetric (Graph2.graph (Graph2.addVertexCleanly g a).2) ∧
  symmetric (Graph2.graph (Graph2.addEdge g a b).2) ∧
  symmetric (Graph2.graph (Graph2.deleteEdge g a b).2) ∧
  (a ∉ nbrs (Graph2.graph g) a → symmetric (Graph2.graph (Graph2.deleteVertex g a).2)) ∧
  (∀ es, symmetric (Graph2.graph (Graph2.addEdges g es))).
Proof.
  intros Hsym. split_and!.
  - by apply Graph2_addVertexCleanly_symmetric.
  - by apply Graph2_addEdge_symmetric.
  - by apply Graph2_deleteEdge_symmetric.
  - intros Hloop. by apply Graph2_deleteVertex_symmetric.
  - intros es. unfold Graph2.addEdges. revert g Hsym.
    induction es as [|e es IH]; intros g Hsym; simpl; [done|].
    apply IH. by apply Graph2_addEdge_symmetric.
Qed.

(** ** isConnected1 and isConnected2 on graphs without repeated vertices

    What follows shows that the repeated vertex entry is the only source of
    the disagreement C1 reports: on a graph whose vertex list has no
    duplicate and whose edges join vertices, both methods of both classes
    return, and return whether the graph is connected. *)

Lemma while_change_settles {S} (pass : S → res (bool * S)) s c1 s1 s2 fuel :
  pass s = Ok (c1, s1) → pass s1 = Ok (false, s2) → (2 ≤ fuel)%nat →
  while_change fuel pass s = Ok (if c1 then s2 else s1).
Proof.
  intros H1 H2 Hf. destruct fuel as [|[|fuel]]; [lia..|].
  cbn [while_change]. rewrite H1. simpl. destruct c1; [|done].
  by rewrite H2.
Qed.

Lemma settled_rtsc ps b u v :
  settled ps b → rtsc (joined ps) u v → b !! u = b !! v.
Proof.
  intros Hs. induction 1 as [|x y z [Hxy|Hyx] _ IH]; [done|..].
  - by rewrite (Hs x y Hxy).
  - by rewrite <- (Hs y x Hyx).
Qed.

Lemma elem_of_values (b : gmap Z Z) l :
  l ∈ (list_to_set (map_to_list b).*2 : gset Z) ↔ ∃ u, b !! u = Some l.
Proof.
  rewrite elem_of_list_to_set, list_elem_of_fmap. split.
  - intros ([u l'] & -> & Hin%elem_of_map_to_list). eauto.
  - intros [u Hu]. exists (u, l). split; [done|]. by apply elem_of_map_to_list.
Qed.

(** Once the labels are settled, there is one label exactly when the graph
    is connected. *)
Lemma one_value_connected V ps b :
  labelled V ps b → settled ps b → one_value b = true ↔ is_connected V ps.
Proof.
  intros [Hdom Hlab] Hset. unfold one_value. rewrite bool_decide_eq_true. split.
  - intros Hsize.
    assert (∀ u l, b !! u = Some l → ∀ v l', b !! v = Some l' → l = l') as Hone.
    { intros u l Hu v l' Hv.
      apply (size_singleton_inv _ _ _ Hsize); apply elem_of_values; eauto. }
    split.
    + destruct (size_pos_elem_of (list_to_set (map_to_list b).*2 : gset Z)) as [l Hl];
        [lia|].
      apply elem_of_values in Hl as [u Hu].
      assert (u ∈ V) by (rewrite <- Hdom; apply elem_of_dom; eauto). set_solver.
    + intros u v Hu Hv. rewrite <- Hdom in Hu, Hv.
      apply elem_of_dom in Hu as [lu Hu]. apply elem_of_dom in Hv as [lv Hv].
      rewrite (Hlab u lu Hu). rewrite (Hone _ _ Hu _ _ Hv). symmetry. by apply Hlab.
  - intros [Hne Hconn].
    apply set_choose_L in Hne as [u0 Hu0]. pose proof Hu0 as Hin0.
    rewrite <- Hdom in Hu0. apply elem_of_dom in Hu0 as [l0 Hl0].
    assert ((list_to_set (map_to_list b).*2 : gset Z) = {[l0]}) as ->.
    { apply set_eq. intros l. rewrite elem_of_values, elem_of_singleton. split.
      - intros [u Hu]. assert (u ∈ V) by (rewrite <- Hdom; apply elem_of_dom; eauto).
        pose proof (settled_rtsc ps b u u0 Hset (Hconn u u0 ltac:(done) Hin0)). congruence.
      - intros ->. eauto. }
    apply size_singleton.
Qed.

(** A relabelling through [f] that sends every label to one linked to it
    keeps the labelling, and keeps equal labels equal. *)
Lemma labelled_fmap V ps b (f : Z → Z) :
  labelled V ps b → (∀ u l, b !! u = Some l → rtsc (joined ps) l (f l)) →
  labelled V ps (f <$> b).
Proof.
  intros [Hdom Hlab] Hf. split; [by rewrite dom_fmap_L|].
  intros u l. rewrite lookup_fmap. intros (l0 & Hl0 & ->)%fmap_Some.
  etrans; [by apply Hlab | by eapply Hf].
Qed.

Lemma labelled_init ps (vs : list Z) :
  labelled (list_to_set vs) ps (py_dict ((λ v, (v, v)) <$> vs)).
Proof.
  split; [apply (py_dict_fmap_dom (λ v, v))|].
  intros u l. rewrite (py_dict_fmap_lookup (λ v, v)). case_decide; [|done].
  by intros [= ->].
Qed.

(** The loop [for vv in buckets: if <test on buckets[vv]>: buckets[vv] =
    buckets[e0]] maps every label that passes the test to the label [y] of
    [e0], provided [y] itself does not pass it. *)
Lemma relabel_loop (t : Z → bool) (e0 y : Z) (b : gmap Z Z) :
  b !! e0 = Some y → t y = false →
  for_each (λ bk vv,
      x ← getitem bk vv;
      if t x then y' ← getitem bk e0; Ok (<[vv := y']> bk) else Ok bk)
    b (keys b)
  = Ok ((λ l, if t l then y else l) <$> b).
Proof.
  intros He0 Hty. set (f := λ l : Z, if t l then y else l).
  set (body := λ (bk : gmap Z Z) (vv : Z),
      x ← getitem bk vv;
      if t x then y' ← getitem bk e0; Ok (<[vv := y']> bk) else Ok bk).
  assert (∀ bk k x, bk !! k = Some x → bk !! e0 = Some y →
    body bk k = Ok (if t x then <[k := y]> bk else bk)) as Hstep.
  { intros bk k x Hk He. unfold body, getitem. rewrite Hk. simpl.
    destruct (t x); [|done]. by rewrite He. }
  assert (∀ ks bk, NoDup ks → (∀ k, k ∈ ks → is_Some (b !! k)) →
    (∀ k, bk !! k = if decide (k ∈ ks) then b !! k else f <$> b !! k) →
    for_each body bk ks = Ok (f <$> b)) as Hloop.
  { induction ks as [|k0 ks IH]; intros bk Hnd Hks Hbk.
    - simpl. f_equal. apply map_eq. intros k. rewrite lookup_fmap, Hbk.
      rewrite decide_False; [done | apply not_elem_of_nil].
    - apply NoDup_cons in Hnd as [Hk0 Hnd].
      destruct (Hks k0) as [x Hx]; [left|].
      assert (bk !! k0 = Some x) as Hbk0.
      { rewrite Hbk, decide_True; [done | left]. }
      assert (bk !! e0 = Some y) as Hbke.
      { rewrite Hbk, He0. case_decide; [done|]. simpl. unfold f. by rewrite Hty. }
      cbn [for_each]. rewrite (Hstep bk k0 x Hbk0 Hbke). simpl.
      apply IH; [done | |].
      + intros k Hk. apply Hks. by right.
      + intros k. destruct (decide (k = k0)) as [->|Hne].
        * rewrite decide_False, Hx by done. simpl. unfold f.
          destruct (t x); [by rewrite lookup_insert_eq | done].
        * assert ((if t x then <[k0 := y]> bk else bk) !! k = bk !! k) as ->.
          { destruct (t x); [by rewrite lookup_insert_ne | done]. }
          rewrite Hbk. destruct (decide (k ∈ ks)).
          -- rewrite decide_True; [done | by right].
          -- rewrite decide_False; [done|]. rewrite not_elem_of_cons. done. }
  apply Hloop.
  - apply NoDup_keys.
  - intros k. apply elem_of_keys.
  - intros k. case_decide as Hk; [done|].
    rewrite elem_of_keys in Hk. apply eq_None_not_Some in Hk. by rewrite Hk.
Qed.

Lemma Graph1_relabel_fmap e0 tmp b y :
  b !! e0 = Some y → y ≠ tmp →
  Graph1.relabel e0 tmp b = Ok ((λ l, if bool_decide (l = tmp) then y else l) <$> b).
Proof.
  intros He0 Hne. unfold Graph1.relabel.
  apply (relabel_loop (λ x, bool_decide (x = tmp))); [done|].
  by apply bool_decide_eq_false.
Qed.

Lemma Graph2_relabel_fmap u comp b y :
  b !! u = Some y → y ∉ comp →
  Graph2.relabel u comp b = Ok ((λ l, if bool_decide (l ∈ comp) then y else l) <$> b).
Proof.
  intros He0 Hne. unfold Graph2.relabel.
  apply (relabel_loop (λ x, bool_decide (x ∈ comp))); [done|].
  by apply bool_decide_eq_false.
Qed.

(** *** Graph1.isConnected1 *)

Lemma labelled_lookup V ps b u :
  labelled V ps b → u ∈ V → ∃ l, b !! u = Some l ∧ rtsc (joined ps) u l.
Proof.
  intros [Hdom Hlab] Hu. rewrite <- Hdom in Hu. apply elem_of_dom in Hu as [l Hl].
  exists l. split; [done | by apply Hlab].
Qed.

Lemma Graph1_step1_spec V ps c0 b u v :
  labelled V ps b → (u, v) ∈ ps → u ∈ V → v ∈ V →
  ∃ c b', Graph1.step1 (c0, b) (u, v) = Ok (c, b') ∧
    labelled V ps b' ∧
    b' !! u = b' !! v ∧
    (∀ x y, b !! x = b !! y → b' !! x = b' !! y) ∧
    (b !! u = b !! v → c = c0 ∧ b' = b).
Proof.
  intros Hlab Hps Hu Hv.
  destruct (labelled_lookup V ps b u Hlab Hu) as (x & Hx & Hux).
  destruct (labelled_lookup V ps b v Hlab Hv) as (y & Hy & Hvy).
  unfold Graph1.step1, getitem. simpl. rewrite Hx, Hy. simpl.
  case_bool_decide as Hxy.
  - rewrite (Graph1_relabel_fmap u y b x Hx Hxy). simpl.
    eexists _, _. split; [done|]. split_and!.
    + apply labelled_fmap; [done|]. intros w l Hw. case_bool_decide; [|done].
      subst l. rewrite <- Hvy. rewrite <- Hux. by apply rtsc_rl.
    + rewrite !lookup_fmap, Hx, Hy. simpl.
      rewrite bool_decide_eq_false_2 by done. by rewrite bool_decide_eq_true_2.
    + intros p q Hpq. by rewrite !lookup_fmap, Hpq.
    + intros Heq. congruence.
  - subst y.
    eexists _, _. split; [done|]. split_and!; [done | congruence | done | done].
Qed.

Lemma Graph1_pass_spec V ps l :
  ∀ c0 b, labelled V ps b →
  (∀ u v, (u, v) ∈ l → (u, v) ∈ ps ∧ u ∈ V ∧ v ∈ V) →
  ∃ c b', for_each Graph1.step1 (c0, b) l = Ok (c, b') ∧
    labelled V ps b' ∧
    (∀ u v, (u, v) ∈ l → b' !! u = b' !! v) ∧
    (∀ x y, b !! x = b !! y → b' !! x = b' !! y) ∧
    ((∀ u v, (u, v) ∈ l → b !! u = b !! v) → c = c0 ∧ b' = b).
Proof.
  induction l as [|[u v] l IH]; intros c0 b Hlab Hl.
  - exists c0, b. split_and!; [done.. | | done | done].
    intros u v Hin. by apply elem_of_nil in Hin.
  - destruct (Hl u v) as (Hps & Hu & Hv); [left|].
    destruct (Graph1_step1_spec V ps c0 b u v Hlab Hps Hu Hv)
      as (c1 & b1 & Hstep & Hlab1 & Heq1 & Hkeep1 & Hsame1).
    destruct (IH c1 b1 Hlab1) as (c & b' & Hrest & Hlab' & Heq' & Hkeep' & Hsame').
    { intros p q Hin. apply Hl. by right. }
    exists c, b'. cbn [for_each]. rewrite Hstep. simpl. split; [done|]. split_and!.
    + done.
    + intros p q [[= -> ->]|Hin]%elem_of_cons; [by apply Hkeep' | by apply Heq'].
    + intros x y Hxy. by apply Hkeep', Hkeep1.
    + intros Hall. destruct Hsame1 as [-> ->]; [apply Hall; left|].
      apply Hsame'. intros p q Hin. apply Hall. by right.
Qed.

(** [Graph1.isConnected1] returns, within two passes, whether the graph is
    connected. *)
Lemma Graph1_isConnected1_spec (g : Graph1.t) (fuel : nat) :
  edges_closed g → (2 ≤ fuel)%nat →
  ∃ r, Graph1.isConnected1 fuel g = Ok r ∧
    (r = true ↔ is_connected (list_to_set (Graph1.vertices g)) (Graph1.edges g)).
Proof.
  intros Hg Hfuel. unfold Graph1.isConnected1, Graph1.pass1.
  set (V := list_to_set (Graph1.vertices g) : gset Z). set (ps := Graph1.edges g).
  assert (∀ u v, (u, v) ∈ ps → (u, v) ∈ ps ∧ u ∈ V ∧ v ∈ V) as Hps.
  { intros u v Hin. split; [done|]. apply Hg in Hin. simpl in Hin.
    rewrite !Graph1_hasVertex_true in Hin. unfold V. by rewrite !elem_of_list_to_set. }
  destruct (Graph1_pass_spec V ps ps false _ (labelled_init ps (Graph1.vertices g)) Hps)
    as (c1 & b1 & Hp1 & Hlab1 & Hset1 & _ & _).
  destruct (Graph1_pass_spec V ps ps false b1 Hlab1 Hps)
    as (c2 & b2 & Hp2 & _ & _ & _ & Hsame).
  destruct (Hsame Hset1) as [-> ->].
  rewrite (while_change_settles (λ b, for_each Graph1.step1 (false, b) ps)
    _ c1 b1 b1 fuel Hp1 Hp2 Hfuel).
  simpl. exists (one_value (if c1 then b1 else b1)). split; [done|].
  destruct c1; by apply one_value_connected.
Qed.

(** *** Graph2.isConnected1 *)

Lemma elem_of_arcs (gr : gmap Z (list Z)) (u v : Z) :
  (u, v) ∈ arcs gr ↔ ∃ ns, gr !! u = Some ns ∧ v ∈ ns.
Proof.
  unfold arcs. rewrite list_elem_of_bind. split.
  - intros (u' & Hin & Hu'). apply list_elem_of_bind in Hin as (v' & Hin & Hv').
    apply list_elem_of_singleton in Hin as [= <- <-].
    unfold nbrs in Hv'. destruct (gr !! u) as [ns|] eqn:E; simpl in Hv'.
    + by exists ns.
    + by apply elem_of_nil in Hv'.
  - intros (ns & Hns & Hv). exists u. split.
    + apply list_elem_of_bind. exists v. split; [by left|].
      unfold nbrs. by rewrite Hns.
    + apply elem_of_keys. by rewrite Hns.
Qed.

Lemma Graph2_newComp_spec (b : gmap Z Z) (u x : Z) (ns : list Z) :
  b !! u = Some x → (∀ v, v ∈ ns → is_Some (b !! v)) →
  ∃ comp, Graph2.newComp b u ns = Ok comp ∧
    ∀ l, l ∈ comp ↔ l ≠ x ∧ ∃ v, v ∈ ns ∧ b !! v = Some l.
Proof.
  intros Hx. unfold Graph2.newComp.
  set (body := λ (acc : list Z) (v : Z),
        x ← getitem b u; y ← getitem b v;
        if bool_decide (x ≠ y) then z ← getitem b v; Ok (acc ++ [z]) else Ok acc).
  assert (∀ acc v y, b !! v = Some y →
    body acc v = Ok (if bool_decide (x ≠ y) then acc ++ [y] else acc)) as Hstep.
  { intros acc v y Hy. unfold body, getitem. rewrite Hx. simpl. rewrite Hy. simpl.
    case_bool_decide; [|done]. by rewrite ?Hy. }
  clearbody body.
  assert (∀ acc, (∀ v, v ∈ ns → is_Some (b !! v)) →
    ∃ comp, for_each body acc ns = Ok (acc ++ comp) ∧
      ∀ l, l ∈ comp ↔ l ≠ x ∧ ∃ v, v ∈ ns ∧ b !! v = Some l) as Hgen.
  { induction ns as [|v ns IH]; intros acc Hns.
    - exists []. rewrite app_nil_r. split; [done|]. intros l. split.
      + by intros ?%elem_of_nil.
      + intros (_ & v & ?%elem_of_nil & _). done.
    - destruct (Hns v) as [y Hy]; [left|]. cbn [for_each].
      rewrite (Hstep acc v y Hy). simpl. case_bool_decide as Hxy.
      + destruct (IH (acc ++ [y])) as (comp & -> & Hcomp).
        { intros w Hw. apply Hns. by right. }
        exists (y :: comp). split; [by rewrite <- app_assoc|].
        intros l. rewrite elem_of_cons, Hcomp. split.
        * intros [->|(Hl & w & Hw & Hbw)]; [|split; [done|]; exists w; split; [by right | done]].
          split; [done|]. exists v. split; [by left | done].
        * intros (Hl & w & [->|Hw]%elem_of_cons & Hbw).
          -- left. congruence.
          -- right. split; [done|]. by exists w.
      + destruct (IH acc) as (comp & -> & Hcomp).
        { intros w Hw. apply Hns. by right. }
        exists comp. split; [done|]. intros l. rewrite Hcomp. split.
        * intros (Hl & w & Hw & Hbw). split; [done|]. exists w. split; [by right | done].
        * intros (Hl & w & [->|Hw]%elem_of_cons & Hbw).
          -- exfalso. apply Hl. rewrite Hy in Hbw. injection Hbw as <-. done.
          -- split; [done|]. by exists w.
  }
  intros Hns. destruct (Hgen [] Hns) as (comp & Hrun & Hcomp). by exists comp.
Qed.

Lemma Graph2_step1_spec V ps gr c0 b u ns :
  labelled V ps b → gr !! u = Some ns → u ∈ V →
  (∀ v, v ∈ ns → (u, v) ∈ ps ∧ v ∈ V) →
  ∃ c b', Graph2.step1 gr (c0, b) u = Ok (c, b') ∧
    labelled V ps b' ∧
    (∀ v, v ∈ ns → b' !! u = b' !! v) ∧
    (∀ x y, b !! x = b !! y → b' !! x = b' !! y) ∧
    ((∀ v, v ∈ ns → b !! u = b !! v) → c = c0 ∧ b' = b).
Proof.
  intros Hlab Hns Hu Hnb.
  destruct (labelled_lookup V ps b u Hlab Hu) as (x & Hx & Hux).
  destruct (Graph2_newComp_spec b u x ns Hx) as (comp & Hrun & Hcomp).
  { intros v Hv. destruct (Hnb v Hv) as [_ HvV].
    destruct (labelled_lookup V ps b v Hlab HvV) as (y & Hy & _). by rewrite Hy. }
  unfold Graph2.step1, getitem. rewrite Hns. simpl. rewrite Hrun. simpl.
  assert (x ∉ comp) as Hxc by (rewrite Hcomp; naive_solver).
  case_bool_decide as Hlen.
  - rewrite (Graph2_relabel_fmap u comp b x Hx Hxc). simpl.
    eexists _, _. split; [done|]. split_and!.
    + apply labelled_fmap; [done|]. intros w l Hw. case_bool_decide as Hl; [|done].
      apply Hcomp in Hl as (_ & v & Hv & Hbv). destruct (Hnb v Hv) as [Hps _].
      destruct Hlab as [_ Hlab]. rewrite <- (Hlab v l Hbv), <- Hux.
      apply rtsc_rl. done.
    + intros v Hv. destruct (Hnb v Hv) as [_ HvV].
      destruct (labelled_lookup V ps b v Hlab HvV) as (y & Hy & _).
      rewrite !lookup_fmap, Hx, Hy. simpl. f_equal.
      rewrite (bool_decide_eq_false_2 (x ∈ comp)) by done.
      case_bool_decide as Hyc; [done|]. destruct (decide (y = x)) as [->|Hne]; [done|].
      exfalso. apply Hyc, Hcomp. split; [done|]. by exists v.
    + intros p q Hpq. by rewrite !lookup_fmap, Hpq.
    + intros Hall. exfalso. apply Hlen. destruct comp as [|l comp]; [done|].
      destruct (proj1 (Hcomp l)) as (Hl & v & Hv & Hbv); [left|].
      rewrite <- (Hall v Hv), Hx in Hbv. congruence.
  - assert (comp = []) as -> by (by destruct comp).
    eexists _, _. split; [done|]. split_and!; [done | | done | done].
    intros v Hv. destruct (Hnb v Hv) as [_ HvV].
    destruct (labelled_lookup V ps b v Hlab HvV) as (y & Hy & _).
    rewrite Hx, Hy. f_equal. destruct (decide (y = x)) as [->|Hne]; [done|].
    exfalso. eapply elem_of_nil, Hcomp. split; [done|]. by exists v.
Qed.

Lemma Graph2_pass_spec V ps gr l :
  ∀ c0 b, labelled V ps b →
  (∀ u, u ∈ l → u ∈ V ∧ ∃ ns, gr !! u = Some ns ∧ ∀ v, v ∈ ns → (u, v) ∈ ps ∧ v ∈ V) →
  ∃ c b', for_each (Graph2.step1 gr) (c0, b) l = Ok (c, b') ∧
    labelled V ps b' ∧
    (∀ u ns v, u ∈ l → gr !! u = Some ns → v ∈ ns → b' !! u = b' !! v) ∧
    (∀ x y, b !! x = b !! y → b' !! x = b' !! y) ∧
    ((∀ u ns v, u ∈ l → gr !! u = Some ns → v ∈ ns → b !! u = b !! v) → c = c0 ∧ b' = b).
Proof.
  induction l as [|u l IH]; intros c0 b Hlab Hl.
  - exists c0, b. split_and!; [done.. | | done | done].
    intros u ns v Hin. by apply elem_of_nil in Hin.
  - destruct (Hl u) as (Hu & ns & Hns & Hnb); [left|].
    destruct (Graph2_step1_spec V ps gr c0 b u ns Hlab Hns Hu Hnb)
      as (c1 & b1 & Hstep & Hlab1 & Heq1 & Hkeep1 & Hsame1).
    destruct (IH c1 b1 Hlab1) as (c & b' & Hrest & Hlab' & Heq' & Hkeep' & Hsame').
    { intros p Hin. apply Hl. by right. }
    exists c, b'. cbn [for_each]. rewrite Hstep. simpl. split; [done|]. split_and!.
    + done.
    + intros p ns' q [->|Hin]%elem_of_cons Hp Hq.
      * rewrite Hns in Hp. injection Hp as <-. by apply Hkeep', Heq1.
      * by eapply Heq'.
    + intros x y Hxy. by apply Hkeep', Hkeep1.
    + intros Hall. destruct Hsame1 as [-> ->].
      { intros v Hv. eapply Hall; [left | done..]. }
      apply Hsame'. intros p ns' q Hin. apply Hall. by right.
Qed.

Lemma list_to_set_keys {A} (gr : gmap Z A) : list_to_set (keys gr) = dom gr.
Proof.
  apply set_eq. intros u. by rewrite elem_of_list_to_set, elem_of_keys, elem_of_dom.
Qed.

(** [Graph2.isConnected1] returns, within two passes, whether the graph is
    connected. *)
Lemma Graph2_isConnected1_spec (g : Graph2.t) (fuel : nat) :
  nbrs_are_keys (Graph2.graph g) → (2 ≤ fuel)%nat →
  ∃ r, Graph2.isConnected1 fuel g = Ok r ∧
    (r = true ↔ is_connected (dom (Graph2.graph g)) (arcs (Graph2.graph g))).
Proof.
  intros Hg Hfuel. unfold Graph2.isConnected1, Graph2.pass1.
  set (gr := Graph2.graph g) in *. set (V := dom gr). set (ps := arcs gr).
  assert (∀ u, u ∈ keys gr →
    u ∈ V ∧ ∃ ns, gr !! u = Some ns ∧ ∀ v, v ∈ ns → (u, v) ∈ ps ∧ v ∈ V) as Hps.
  { intros u [ns Hns]%elem_of_keys. split; [apply elem_of_dom; by rewrite Hns|].
    exists ns. split; [done|]. intros v Hv. split.
    - apply elem_of_arcs. by exists ns.
    - apply elem_of_dom. by eapply Hg. }
  pose proof (labelled_init ps (keys gr)) as Hlab0. rewrite list_to_set_keys in Hlab0.
  destruct (Graph2_pass_spec V ps gr (keys gr) false _ Hlab0 Hps)
    as (c1 & b1 & Hp1 & Hlab1 & Hset1 & _ & _).
  destruct (Graph2_pass_spec V ps gr (keys gr) false b1 Hlab1 Hps)
    as (c2 & b2 & Hp2 & _ & _ & _ & Hsame).
  destruct Hsame as [-> ->]; [done|].
  rewrite (while_change_settles (λ b, for_each (Graph2.step1 gr) (false, b) (keys gr))
    _ c1 b1 b1 fuel Hp1 Hp2 Hfuel).
  simpl. exists (one_value (if c1 then b1 else b1)). split; [done|].
  assert (settled ps b1) as Hsettled.
  { intros u v (ns & Hns & Hv)%elem_of_arcs. eapply Hset1; [|done..].
    apply elem_of_keys. by rewrite Hns. }
  destruct c1; by apply one_value_connected.
Qed.

(** *** The union-find of isConnected2 *)

Lemma root_at_fun b n u r m r' :
  root_at b n u r → root_at b m u r' → n = m ∧ r = r'.
Proof.
  intros H. revert m r'. induction H as [r Hr|n u p r Hu Hp H IH]; intros m r' H'.
  - inversion H' as [? Hr'|? ? p' ? Hu' Hp' H'']; subst; [done|]. congruence.
  - inversion H' as [? Hr'|m' ? p' ? Hu' Hp' H'']; subst; [congruence|].
    rewrite Hu in Hu'. injection Hu' as <-. destruct (IH _ _ H'') as [-> ->]. done.
Qed.

Lemma root_at_root b n u r : root_at b n u r → b !! r = Some r.
Proof. induction 1; done. Qed.

Lemma root_at_dom b n u r : root_at b n u r → u ∈ dom b.
Proof. intros H. apply elem_of_dom. destruct H; eauto. Qed.

Lemma elem_of_roots b w : w ∈ roots b ↔ b !! w = Some w.
Proof.
  unfold roots. rewrite elem_of_dom. split.
  - intros [x Hx]. apply map_lookup_filter_Some in Hx as [Hx Heq]. simpl in Heq.
    by subst x.
  - intros Hw. exists w. by apply map_lookup_filter_Some.
Qed.

(** Pointing a vertex straight at its root keeps every root and makes no
    path longer. *)
Lemma root_at_shortcut b k u r :
  root_at b k u r → u ≠ r →
  ∀ m w r', root_at b m w r' → ∃ m', (m' ≤ m)%nat ∧ root_at (<[u := r]> b) m' w r'.
Proof.
  intros Hu Hne m w r' H.
  induction H as [r' Hr'|m w p r' Hw Hp H (m' & Hm' & IH)].
  - exists 0%nat. split; [done|]. constructor.
    rewrite lookup_insert_ne; [done|]. intros <-.
    destruct (root_at_fun _ _ _ _ _ _ Hu (root_at_O b u Hr')) as [_ ?]. by subst.
  - destruct (decide (w = u)) as [->|Hwu].
    + destruct (root_at_fun _ _ _ _ _ _ Hu (root_at_S b _ _ _ _ Hw Hp H)) as [_ <-].
      exists 1%nat. split; [lia|]. eapply root_at_S.
      * by rewrite lookup_insert_eq.
      * done.
      * constructor. rewrite lookup_insert_ne by done. by eapply root_at_root.
    + exists (S m'). split; [lia|]. eapply root_at_S; [|done..].
      by rewrite lookup_insert_ne.
Qed.

(** [find], given more fuel than the length of the path from [u] to its
    root, returns that root; the dict it leaves has the same keys and the
    same roots, and no path in it is longer than before. *)
Lemma find_spec fuel b n u r :
  root_at b n u r → (n < fuel)%nat →
  ∃ b', find fuel b u = Ok (r, b') ∧
    dom b' = dom b ∧
    (∀ w, b' !! w = Some w ↔ b !! w = Some w) ∧
    (∀ m w r', root_at b m w r' → ∃ m', (m' ≤ m)%nat ∧ root_at b' m' w r').
Proof.
  intros H. revert fuel. induction H as [r Hr|n u p r Hu Hp H IH]; intros fuel Hfuel.
  - destruct fuel as [|fuel]; [lia|]. exists b. simpl. unfold getitem. rewrite Hr. simpl.
    rewrite bool_decide_eq_true_2 by done. split_and!; [done.. |]. eauto.
  - destruct fuel as [|fuel]; [lia|].
    destruct (IH fuel) as (b1 & Hrun & Hdom & Hroots & Hpaths); [lia|].
    simpl. unfold getitem. rewrite Hu. simpl.
    rewrite bool_decide_eq_false_2 by done. rewrite Hrun. simpl.
    destruct (Hpaths _ _ _ (root_at_S b _ _ _ _ Hu Hp H)) as (k & _ & Hk).
    assert (u ≠ r) as Hur.
    { intros ->. apply root_at_root in H. congruence. }
    exists (<[u := r]> b1). split_and!.
    + done.
    + rewrite dom_insert_L, Hdom. apply elem_of_dom_2 in Hu. set_solver.
    + intros w. rewrite <- Hroots. destruct (decide (w = u)) as [->|Hwu].
      * rewrite lookup_insert_eq. split; [congruence|].
        intros Hu1. destruct (root_at_fun _ _ _ _ _ _ Hk (root_at_O b1 u Hu1)) as [_ ?].
        by subst.
      * by rewrite lookup_insert_ne.
    + intros m w r' Hw. destruct (Hpaths m w r' Hw) as (m1 & Hm1 & Hw1).
      destruct (root_at_shortcut b1 k u r Hk Hur m1 w r' Hw1) as (m' & Hm' & Hw').
      exists m'. split; [lia | done].
Qed.

(** [buckets[gg] = ff] for two distinct roots: the root [gg] is gone, and the
    vertices that had it get [ff], one step further. *)
Lemma root_at_union b ff gg :
  b !! ff = Some ff → b !! gg = Some gg → ff ≠ gg →
  ∀ m w r', root_at b m w r' →
    root_at (<[gg := ff]> b) (if decide (r' = gg) then S m else m) w
      (if decide (r' = gg) then ff else r').
Proof.
  intros Hff Hgg Hne m w r' H.
  induction H as [r' Hr'|m w p r' Hw Hp H IH].
  - case_decide as Hr; [subst r'|].
    + eapply root_at_S; [by rewrite lookup_insert_eq | done |].
      constructor. by rewrite lookup_insert_ne.
    + constructor. by rewrite lookup_insert_ne.
  - assert (w ≠ gg) as Hwg by (intros ->; congruence).
    case_decide; (eapply root_at_S; [by rewrite lookup_insert_ne | done | done]).
Qed.

Lemma roots_union b ff gg :
  b !! ff = Some ff → b !! gg = Some gg → ff ≠ gg →
  roots (<[gg := ff]> b) = roots b ∖ {[gg]}.
Proof.
  intros Hff Hgg Hne. apply set_eq. intros w.
  rewrite elem_of_difference, !elem_of_roots, elem_of_singleton.
  destruct (decide (w = gg)) as [->|Hw].
  - rewrite lookup_insert_eq. split; [congruence | tauto].
  - rewrite lookup_insert_ne by done. tauto.
Qed.

Lemma compressed_forest V ps N cnt b b' :
  compressed b b' → forest V ps N (cnt, b) → forest V ps N (cnt, b').
Proof.
  intros (Hdom & Hroots & Hpaths) (HV & Hreach & Hcnt). simpl in *. split_and!; simpl.
  - by rewrite Hdom.
  - intros u Hu. destruct (Hreach u Hu) as (n & r & Hr & Hn & Hlink).
    destruct (Hpaths n u r Hr) as (m & Hm & Hr'). exists m, r. split_and!; [done | lia | done].
  - rewrite Hcnt. do 2 f_equal. apply set_eq. intros w. by rewrite !elem_of_roots.
Qed.

Lemma compressed_rooted_alike b b' x y :
  compressed b b' → rooted_alike b x y → rooted_alike b' x y.
Proof.
  intros (_ & _ & Hpaths) (n & m & r & Hx & Hy).
  destruct (Hpaths _ _ _ Hx) as (n' & _ & Hx'). destruct (Hpaths _ _ _ Hy) as (m' & _ & Hy').
  by exists n', m', r.
Qed.

Lemma union_rooted_alike b ff gg x y :
  b !! ff = Some ff → b !! gg = Some gg → ff ≠ gg →
  rooted_alike b x y → rooted_alike (<[gg := ff]> b) x y.
Proof.
  intros Hff Hgg Hne (n & m & r & Hx & Hy).
  eexists _, _, _. split; by apply root_at_union.
Qed.

(** The body of the loops of [isConnected2], run on a pair of [ps] with
    enough fuel, keeps the forest, leaves the two ends with one root, keeps
    apart no two vertices that had one root, and changes neither the flag nor
    the count when the two ends had one root already. *)
Lemma union_step_spec V ps N fuel c0 cnt b u v :
  forest V ps N (cnt, b) → u ∈ V → v ∈ V → (u, v) ∈ ps → N < Z.of_nat fuel →
  ∃ c cnt' b', union_step fuel (c0, cnt, b) u v = Ok (c, cnt', b') ∧
    forest V ps N (cnt', b') ∧
    rooted_alike b' u v ∧
    (∀ x y, rooted_alike b x y → rooted_alike b' x y) ∧
    (rooted_alike b u v → c = c0 ∧ cnt' = cnt).
Proof.
  intros Hf Hu Hv Hps Hfuel.
  assert (0 ≤ cnt) as Hcnt0 by (destruct Hf as (_ & _ & Hc); simpl in Hc; lia).
  destruct Hf as (HV & Hreach & Hcnt); simpl in *.
  destruct (Hreach u Hu) as (nu & ru & Hru & Hnu & Hlu).
  destruct (find_spec fuel b nu u ru Hru) as (b1 & Hrun1 & Hc1); [lia|].
  assert (forest V ps N (cnt, b1)) as Hf1 by (by apply (compressed_forest V ps N cnt b)).
  destruct Hf1 as (HV1 & Hreach1 & Hcnt1); simpl in *.
  destruct (Hreach1 v Hv) as (nv & rv & Hrv & Hnv & Hlv).
  destruct (find_spec fuel b1 nv v rv Hrv) as (b2 & Hrun2 & Hc2); [lia|].
  assert (forest V ps N (cnt, b2)) as Hf2 by (by apply (compressed_forest V ps N cnt b1)).
  assert (∃ k, root_at b2 k u ru) as [ku Hu2].
  { destruct Hc1 as (_ & _ & Hp1). destruct (Hp1 _ _ _ Hru) as (k1 & _ & Hk1).
    destruct Hc2 as (_ & _ & Hp2). destruct (Hp2 _ _ _ Hk1) as (k2 & _ & Hk2). eauto. }
  assert (∃ k, root_at b2 k v rv) as [kv Hv2].
  { destruct Hc2 as (_ & _ & Hp2). destruct (Hp2 _ _ _ Hrv) as (k2 & _ & Hk2). eauto. }
  assert (∀ x y, rooted_alike b x y → rooted_alike b2 x y) as Hkeep.
  { intros x y Hxy. by apply (compressed_rooted_alike b1), (compressed_rooted_alike b). }
  unfold union_step. rewrite Hrun1. simpl. rewrite Hrun2. simpl.
  case_bool_decide as Hne.
  - pose proof (root_at_root _ _ _ _ Hu2) as Hff.
    pose proof (root_at_root _ _ _ _ Hv2) as Hgg.
    eexists _, _, _. split; [done|]. split_and!.
    + destruct Hf2 as (HV2 & Hreach2 & Hcnt2); simpl in *. split_and!; simpl.
      * rewrite dom_insert_L. apply elem_of_dom_2 in Hgg. set_solver.
      * intros w Hw. destruct (Hreach2 w Hw) as (n & r & Hr & Hn & Hl).
        eexists _, _. split; [by apply root_at_union|].
        case_decide as Hrg; [subst r|]; (split; [lia|]); [|done].
        rewrite Hl, <- Hlu, <- Hlv. apply rtsc_rl. exact Hps.
      * rewrite roots_union by done. rewrite size_difference.
        -- rewrite size_singleton.
           assert (size (roots b2) ≠ 0)%nat as Hpos.
           { apply size_non_empty_iff. intros Hempty.
             apply elem_of_roots in Hgg. rewrite Hempty in Hgg. set_solver. }
           lia.
        -- apply singleton_subseteq_l. by apply elem_of_roots.
    + eexists _, _, _. split.
      * pose proof (root_at_union b2 ru rv Hff Hgg Hne _ _ _ Hu2) as H.
        rewrite decide_False in H by done. rewrite decide_False in H by done. exact H.
      * pose proof (root_at_union b2 ru rv Hff Hgg Hne _ _ _ Hv2) as H.
        rewrite decide_True in H by done. rewrite decide_True in H by done. exact H.
    + intros x y Hxy. by apply union_rooted_alike, Hkeep.
    + intros Huv. apply Hkeep in Huv as (n & m & r & Hx & Hy). exfalso. apply Hne.
      destruct (root_at_fun _ _ _ _ _ _ Hx Hu2) as [_ <-].
      by destruct (root_at_fun _ _ _ _ _ _ Hy Hv2) as [_ <-].
  - subst rv.
    eexists _, _, _. split; [done|]. split_and!; [done | | done | done].
    by exists ku, kv, ru.
Qed.

(** One run of the loop of [isConnected2] over pairs of [ps]. *)
Lemma union_pass_spec V ps N fuel l :
  N < Z.of_nat fuel →
  ∀ c0 cnt b, forest V ps N (cnt, b) →
  (∀ u v, (u, v) ∈ l → (u, v) ∈ ps ∧ u ∈ V ∧ v ∈ V) →
  ∃ c cnt' b',
    for_each (λ st ee, union_step fuel st ee.1 ee.2) (c0, cnt, b) l = Ok (c, cnt', b') ∧
    forest V ps N (cnt', b') ∧
    (∀ u v, (u, v) ∈ l → rooted_alike b' u v) ∧
    (∀ x y, rooted_alike b x y → rooted_alike b' x y) ∧
    ((∀ u v, (u, v) ∈ l → rooted_alike b u v) → c = c0 ∧ cnt' = cnt).
Proof.
  intros Hfuel. induction l as [|[u v] l IH]; intros c0 cnt b Hf Hl.
  - exists c0, cnt, b. split_and!; [done.. | | done | done].
    intros u v Hin. by apply elem_of_nil in Hin.
  - destruct (Hl u v) as (Hps & Hu & Hv); [left|].
    destruct (union_step_spec V ps N fuel c0 cnt b u v Hf Hu Hv Hps Hfuel)
      as (c1 & cnt1 & b1 & Hstep & Hf1 & Heq1 & Hkeep1 & Hsame1).
    destruct (IH c1 cnt1 b1 Hf1)
      as (c & cnt' & b' & Hrest & Hf' & Heq' & Hkeep' & Hsame').
    { intros p q Hin. apply Hl. by right. }
    exists c, cnt', b'. cbn [for_each fst snd]. rewrite Hstep. simpl.
    split; [done|]. split_and!.
    + done.
    + intros p q [[= -> ->]|Hin]%elem_of_cons; [by apply Hkeep' | by apply Heq'].
    + intros x y Hxy. by apply Hkeep', Hkeep1.
    + intros Hall. destruct Hsame1 as [-> ->]; [apply Hall; left|].
      apply Hsame'. intros p q Hin. apply Hkeep1, Hall. by right.
Qed.

Lemma rooted_alike_sym b u v : rooted_alike b u v → rooted_alike b v u.
Proof. intros (n & m & r & Hu & Hv). by exists m, n, r. Qed.

Lemma rooted_alike_trans b u v w :
  rooted_alike b u v → rooted_alike b v w → rooted_alike b u w.
Proof.
  intros (n & m & r & Hu & Hv) (n' & m' & r' & Hv' & Hw).
  destruct (root_at_fun _ _ _ _ _ _ Hv Hv') as [_ <-]. by exists n, m', r.
Qed.

Lemma rooted_alike_rtsc ps b u v :
  (∀ u v, (u, v) ∈ ps → rooted_alike b u v) →
  rtsc (joined ps) u v → (∃ n r, root_at b n u r) → rooted_alike b u v.
Proof.
  intros Hps H. induction H as [u|u w v Huw _ IH]; intros (n & r & Hr).
  - by exists n, n, r.
  - assert (rooted_alike b u w) as Hal.
    { destruct Huw as [Huw|Huw]; [by apply Hps | by apply rooted_alike_sym, Hps]. }
    eapply rooted_alike_trans; [done|]. apply IH.
    destruct Hal as (_ & m & r' & _ & Hw). eauto.
Qed.

(** When the two ends of every pair have one root, the count is 1 exactly
    when the graph is connected. *)
Lemma forest_connected V ps N cnt b :
  forest V ps N (cnt, b) → (∀ u v, (u, v) ∈ ps → rooted_alike b u v) →
  cnt = 1 ↔ is_connected V ps.
Proof.
  intros (HV & Hreach & Hcnt) Hps. simpl in *. split.
  - intros ->. assert (size (roots b) = 1%nat) as Hsize by lia.
    apply size_1_elem_of in Hsize as [r Hr]. apply leibniz_equiv in Hr.
    assert (∀ n u r', root_at b n u r' → r' = r) as Honly.
    { intros n u r' H. apply root_at_root, elem_of_roots in H. rewrite Hr in H.
      by apply elem_of_singleton in H. }
    split.
    + assert (r ∈ roots b) as Hin by (rewrite Hr; by apply elem_of_singleton).
      apply elem_of_roots, elem_of_dom_2 in Hin. rewrite HV in Hin. set_solver.
    + intros u v Hu Hv.
      destruct (Hreach u Hu) as (n & ru & Hru & _ & Hlu).
      destruct (Hreach v Hv) as (m & rv & Hrv & _ & Hlv).
      apply Honly in Hru, Hrv. subst ru rv. by rewrite Hlu, Hlv.
  - intros [Hne Hall]. apply set_choose_L in Hne as [u Hu].
    destruct (Hreach u Hu) as (n & r & Hr & _ & _).
    assert (roots b = {[r]}) as Hroots.
    { apply set_eq. intros w. rewrite elem_of_roots, elem_of_singleton. split.
      - intros Hw. assert (w ∈ V) as HwV by (rewrite <- HV; by eapply elem_of_dom_2).
        destruct (rooted_alike_rtsc ps b w u Hps (Hall w u HwV Hu))
          as (n1 & n2 & r' & Hw' & Hu'); [exists 0%nat, w; by constructor|].
        destruct (root_at_fun _ _ _ _ _ _ Hw' (root_at_O b w Hw)) as [_ ->].
        by destruct (root_at_fun _ _ _ _ _ _ Hu' Hr) as [_ ->].
      - intros ->. by eapply root_at_root. }
    rewrite Hcnt, Hroots, size_singleton. done.
Qed.

(** The state [isConnected2] starts from, for vertices without repetition. *)
Lemma forest_init ps (vs : list Z) :
  NoDup vs →
  forest (list_to_set vs) ps (Z.of_nat (length vs))
    (Z.of_nat (length vs), py_dict ((λ v, (v, v)) <$> vs)).
Proof.
  intros Hnd. set (b := py_dict ((λ v, (v, v)) <$> vs)).
  assert (∀ w, b !! w = Some w ↔ w ∈ vs) as Hb.
  { intros w. unfold b. rewrite py_dict_fmap_lookup. case_decide; naive_solver. }
  split_and!; simpl.
  - by destruct (labelled_init ps vs) as [Hdom _].
  - intros u Hu%elem_of_list_to_set. exists 0%nat, u. split_and!; [|lia|done].
    constructor. by apply Hb.
  - f_equal. rewrite <- (size_list_to_set (C := gset Z) vs) by done. f_equal.
    apply set_eq. intros w. by rewrite elem_of_roots, elem_of_list_to_set.
Qed.

(** *** Graph1.isConnected2 *)

(** [Graph1.isConnected2], on a graph without repeated vertices, returns
    whether the graph is connected. The fuel covers the two runs of the
    loop and the depth of [find]. *)
Lemma Graph1_isConnected2_spec (g : Graph1.t) (fuel : nat) :
  NoDup (Graph1.vertices g) → edges_closed g →
  (length (Graph1.vertices g) + 2 ≤ fuel)%nat →
  ∃ r, Graph1.isConnected2 fuel g = Ok r ∧
    (r = true ↔ is_connected (list_to_set (Graph1.vertices g)) (Graph1.edges g)).
Proof.
  intros Hnd Hg Hfuel. unfold Graph1.isConnected2.
  set (V := list_to_set (Graph1.vertices g) : gset Z). set (ps := Graph1.edges g).
  set (N := Z.of_nat (length (Graph1.vertices g))).
  assert (N < Z.of_nat fuel) as HN by (unfold N; lia).
  assert (∀ u v, (u, v) ∈ ps → (u, v) ∈ ps ∧ u ∈ V ∧ v ∈ V) as Hps.
  { intros u v Hin. split; [done|]. apply Hg in Hin. simpl in Hin.
    rewrite !Graph1_hasVertex_true in Hin. unfold V. by rewrite !elem_of_list_to_set. }
  destruct (union_pass_spec V ps N fuel ps HN false _ _ (forest_init ps _ Hnd) Hps)
    as (c1 & cnt1 & b1 & Hp1 & Hf1 & Hset1 & _ & _).
  destruct (union_pass_spec V ps N fuel ps HN false cnt1 b1 Hf1 Hps)
    as (c2 & cnt2 & b2 & Hp2 & _ & _ & _ & Hsame).
  destruct (Hsame Hset1) as [-> ->].
  rewrite (while_change_settles (Graph1.pass2 fuel ps) _ c1 (cnt1, b1) (cnt1, b2) fuel).
  - exists (bool_decide (cnt1 = 1)). split; [by destruct c1|].
    rewrite bool_decide_eq_true. by apply (forest_connected V ps N cnt1 b1).
  - unfold Graph1.pass2. cbn [fst snd]. unfold N. by rewrite Hp1.
  - unfold Graph1.pass2. cbn [fst snd]. by rewrite Hp2.
  - lia.
Qed.

(** *** Graph2.isConnected2 *)

Lemma for_each_pairs {S} (F : S → Z → Z → res S) (u : Z) (ns : list Z) (s : S) :
  for_each (λ st ee, F st ee.1 ee.2) s (v ← ns; [(u, v)])
  = for_each (λ st v, F st u v) s ns.
Proof.
  revert s. induction ns as [|v ns IH]; intros s; [done|].
  cbn [mbind list_bind app for_each fst snd]. destruct (F s u v); [|done..].
  simpl. apply IH.
Qed.

(** The nested loops [for u in self.graph: for v in self.graph[u]] run the
    body once for each pair of [arcs], in order. *)
Lemma Graph2_nested_loops {S} (F : S → Z → Z → res S) (gr : gmap Z (list Z)) (l : list Z) :
  (∀ u, u ∈ l → is_Some (gr !! u)) →
  ∀ s, for_each (λ st u, nbrs ← getitem gr u; for_each (λ st v, F st u v) st nbrs) s l
       = for_each (λ st ee, F st ee.1 ee.2) s (u ← l; v ← nbrs gr u; [(u, v)]).
Proof.
  induction l as [|u l IH]; intros Hl s; [done|].
  destruct (Hl u) as [ns Hns]; [left|].
  rewrite bind_cons, for_each_app, for_each_pairs. cbn [for_each].
  assert (getitem gr u = Ok ns) as -> by (unfold getitem; by rewrite Hns).
  assert (nbrs gr u = ns) as -> by (unfold nbrs; by rewrite Hns).
  simpl.
  destruct (for_each _ s ns); [|done..]. simpl. apply IH.
  intros w Hw. apply Hl. by right.
Qed.

(** [Graph2.isConnected2] returns whether the graph is connected. *)
Lemma Graph2_isConnected2_spec (g : Graph2.t) (fuel : nat) :
  nbrs_are_keys (Graph2.graph g) → (size (Graph2.graph g) + 2 ≤ fuel)%nat →
  ∃ r, Graph2.isConnected2 fuel g = Ok r ∧
    (r = true ↔ is_connected (dom (Graph2.graph g)) (arcs (Graph2.graph g))).
Proof.
  intros Hg Hfuel. unfold Graph2.isConnected2.
  set (gr := Graph2.graph g) in *. set (V := dom gr). set (ps := arcs gr).
  set (N := Z.of_nat (size gr)).
  assert (N < Z.of_nat fuel) as HN by (unfold N; lia).
  assert (∀ u v, (u, v) ∈ ps → (u, v) ∈ ps ∧ u ∈ V ∧ v ∈ V) as Hps.
  { intros u v Hin. split; [done|]. apply elem_of_arcs in Hin as (ns & Hns & Hv). split.
    - apply elem_of_dom. by rewrite Hns.
    - apply elem_of_dom. by eapply Hg. }
  assert (length (keys gr) = size gr) as Hlen.
  { unfold keys. by rewrite length_fmap, length_map_to_list. }
  pose proof (forest_init ps (keys gr) (NoDup_keys gr)) as Hf0.
  rewrite list_to_set_keys, Hlen in Hf0. fold V N in Hf0.
  destruct (union_pass_spec V ps N fuel ps HN false _ _ Hf0 Hps)
    as (c1 & cnt1 & b1 & Hp1 & Hf1 & Hset1 & _ & _).
  destruct (union_pass_spec V ps N fuel ps HN false cnt1 b1 Hf1 Hps)
    as (c2 & cnt2 & b2 & Hp2 & _ & _ & _ & Hsame).
  destruct (Hsame Hset1) as [-> ->].
  assert (∀ st, Graph2.pass2 fuel gr st
    = '(change, cnt, bk) ← for_each (λ st ee, union_step fuel st ee.1 ee.2)
                             (false, st.1, st.2) ps;
      Ok (change, (cnt, bk))) as Hpass.
  { intros st. unfold Graph2.pass2.
    rewrite (Graph2_nested_loops (union_step fuel) gr (keys gr)); [done|].
    intros u Hu. by apply elem_of_keys. }
  rewrite (while_change_settles (Graph2.pass2 fuel gr) _ c1 (cnt1, b1) (cnt1, b2) fuel).
  - exists (bool_decide (cnt1 = 1)). split; [by destruct c1|].
    rewrite bool_decide_eq_true. by apply (forest_connected V ps N cnt1 b1).
  - rewrite Hpass. cbn [fst snd]. fold N. by rewrite Hp1.
  - rewrite Hpass. cbn [fst snd]. by rewrite Hp2.
  - lia.
Qed.

(** *** The four methods on one graph *)

Lemma rtsc_joined_mono (ps qs : list (Z * Z)) (u v : Z) :
  (∀ x y, (x, y) ∈ ps → (x, y) ∈ qs ∨ (y, x) ∈ qs) →
  rtsc (joined ps) u v → rtsc (joined qs) u v.
Proof.
  intros Hsub H. induction H as [u|u w v Huw _ IH]; [done|].
  etrans; [|exact IH]. destruct Huw as [Huw|Huw]; apply Hsub in Huw as [Hq|Hq].
  - by apply rtsc_lr.
  - by apply rtsc_rl.
  - by apply rtsc_rl.
  - by apply rtsc_lr.
Qed.

Lemma is_connected_mono (V : gset Z) (ps qs : list (Z * Z)) :
  (∀ x y, (x, y) ∈ ps → (x, y) ∈ qs ∨ (y, x) ∈ qs) →
  is_connected V ps → is_connected V qs.
Proof.
  intros Hsub [Hne Hall]. split; [done|]. intros u v Hu Hv.
  by apply (rtsc_joined_mono ps), Hall.
Qed.

Lemma is_connected_norm (V : gset Z) (es : list (Z * Z)) :
  is_connected V (norm <$> es) ↔ is_connected V es.
Proof.
  split; apply is_connected_mono; intros x y Hin.
  - by apply elem_of_norm_fmap.
  - assert ((Z.min x y, Z.max x y) ∈ norm <$> es) as Hn
      by (apply elem_of_norm_fmap_iff; by left).
    destruct (Z.min_spec x y) as [[? Hmin]|[? Hmin]],
             (Z.max_spec x y) as [[? Hmax]|[? Hmax]];
      rewrite Hmin, Hmax in Hn; auto; try lia.
Qed.

Lemma is_connected_init (vs : list Z) (es : list (Z * Z)) :
  endpoints_among vs es →
  is_connected (list_to_set vs) (arcs (py_dict ((λ v, (v, adj es v)) <$> vs)))
  ↔ is_connected (list_to_set vs) es.
Proof.
  intros Hes. split; apply is_connected_mono; intros x y Hin.
  - apply elem_of_arcs in Hin as (ns & Hns & Hy).
    rewrite py_dict_fmap_lookup in Hns. case_decide; [|done]. injection Hns as <-.
    by apply elem_of_adj in Hy.
  - left. apply elem_of_arcs. exists (adj es x). split.
    + rewrite py_dict_fmap_lookup, decide_True; [done|]. by apply Hes in Hin as [? _].
    + apply elem_of_adj. by left.
Qed.

(** X1. [Graph1.isConnected1], on a graph whose edges have their endpoints
    among the vertices, ends within two runs of its loop over the edges and
    returns [True] exactly when the graph has a vertex and any two of its
    vertices are linked by a chain of edges. Repeated vertex entries do not
    matter to it. *)
Theorem Graph1_isConnected1_connected (g : Graph1.t) (fuel : nat) :
  edges_closed g → (2 ≤ fuel)%nat →
  ∃ r, Graph1.isConnected1 fuel g = Ok r ∧
    (r = true ↔ is_connected (list_to_set (Graph1.vertices g)) (Graph1.edges g)).
Proof. apply Graph1_isConnected1_spec. Qed.

Lemma Graph1_isConnected1_connected_witness :
  ∃ r, Graph1.isConnected1 2 (Graph1.init tester.1 tester.2) = Ok r ∧
    (r = true ↔ is_connected (list_to_set [1; 2; 3; 4]) [(1, 2); (2, 3); (2, 4); (1, 4)]).
Proof.
  apply (Graph1_isConnected1_connected (Graph1.init tester.1 tester.2) 2); [|lia].
  apply Graph1_init_closed. intros u v Hin. unfold tester in *. simpl in *. set_solver.
Defined.

(** X2. [Graph2.isConnected1], on a graph in which every listed neighbour
    is a key, ends within two runs of its loop over the vertices and returns
    [True] exactly when the graph has a vertex and any two of its vertices
    are linked by a chain of adjacency entries. *)
Theorem Graph2_isConnected1_connected (g : Graph2.t) (fuel : nat) :
  nbrs_are_keys (Graph2.graph g) → (2 ≤ fuel)%nat →
  ∃ r, Graph2.isConnected1 fuel g = Ok r ∧
    (r = true ↔ is_connected (dom (Graph2.graph g)) (arcs (Graph2.graph g))).
Proof. apply Graph2_isConnected1_spec. Qed.

Lemma Graph2_isConnected1_connected_witness :
  ∃ r, Graph2.isConnected1 2
         (Graph2.Graph2 (py_dict ((λ v, (v, adj tester.2 v)) <$> tester.1))) = Ok r ∧
    (r = true ↔
       is_connected
         (dom (Graph2.graph (Graph2.Graph2 (py_dict ((λ v, (v, adj tester.2 v)) <$> tester.1)))))
         (arcs (Graph2.graph (Graph2.Graph2 (py_dict ((λ v, (v, adj tester.2 v)) <$> tester.1)))))).
Proof.
  apply (Graph2_isConnected1_connected
           (Graph2.Graph2 (py_dict ((λ v, (v, adj tester.2 v)) <$> tester.1))) 2); [|lia].
  apply Graph2_init_nbrs. intros u v Hin. unfold tester in *. simpl in *. set_solver.
Defined.

(** X3. [Graph1.isConnected2] (union-find), on a graph without repeated
    vertex entries whose edges have their endpoints among the vertices, ends
    within two runs of its loop, with [find] never deeper than the number of
    vertices, and returns [True] exactly when the graph is connected. *)
Theorem Graph1_isConnected2_connected (g : Graph1.t) (fuel : nat) :
  NoDup (Graph1.vertices g) → edges_closed g →
  (length (Graph1.vertices g) + 2 ≤ fuel)%nat →
  ∃ r, Graph1.isConnected2 fuel g = Ok r ∧
    (r = true ↔ is_connected (list_to_set (Graph1.vertices g)) (Graph1.edges g)).
Proof. apply Graph1_isConnected2_spec. Qed.

Lemma Graph1_isConnected2_connected_witness :
  ∃ r, Graph1.isConnected2 6 (Graph1.init tester.1 tester.2) = Ok r ∧
    (r = true ↔ is_connected (list_to_set [1; 2; 3; 4]) [(1, 2); (2, 3); (2, 4); (1, 4)]).
Proof.
  apply (Graph1_isConnected2_connected (Graph1.init tester.1 tester.2) 6).
  - unfold tester. simpl. repeat constructor; set_solver.
  - apply Graph1_init_closed. intros u v Hin. unfold tester in *. simpl in *. set_solver.
  - unfold tester. simpl. lia.
Defined.

(** X4. [Graph2.isConnected2] (union-find), on a graph in which every
    listed neighbour is a key, ends within two runs of its loops and returns
    [True] exactly when the graph is connected. *)
Theorem Graph2_isConnected2_connected (g : Graph2.t) (fuel : nat) :
  nbrs_are_keys (Graph2.graph g) → (size (Graph2.graph g) + 2 ≤ fuel)%nat →
  ∃ r, Graph2.isConnected2 fuel g = Ok r ∧
    (r = true ↔ is_connected (dom (Graph2.graph g)) (arcs (Graph2.graph g))).
Proof. apply Graph2_isConnected2_spec. Qed.

Lemma Graph2_isConnected2_connected_witness :
  ∃ r, Graph2.isConnected2 6
         (Graph2.Graph2 (py_dict ((λ v, (v, adj tester.2 v)) <$> tester.1))) = Ok r ∧
    (r = true ↔
       is_connected
         (dom (Graph2.graph (Graph2.Graph2 (py_dict ((λ v, (v, adj tester.2 v)) <$> tester.1)))))
         (arcs (Graph2.graph (Graph2.Graph2 (py_dict ((λ v, (v, adj tester.2 v)) <$> tester.1)))))).
Proof.
  apply (Graph2_isConnected2_connected
           (Graph2.Graph2 (py_dict ((λ v, (v, adj tester.2 v)) <$> tester.1))) 6).
  - apply Graph2_init_nbrs. intros u v Hin. unfold tester in *. simpl in *. set_solver.
  - cbn [Graph2.graph]. rewrite size_py_dict_fmap; [unfold tester; simpl; lia|].
    unfold tester. simpl. repeat constructor; set_solver.
Defined.

(** X5. For a vertex list without repetition and edges whose endpoints are
    among the vertices, [Graph1(vs, es)] and [Graph2(vs, es)] are both built,
    and [isConnected1] and [isConnected2] of both return the same boolean:
    [True] exactly when the vertices are linked one to another by the
    edges. *)
Theorem isConnected_agree (vs : list Z) (es : list (Z * Z)) (fuel : nat) :
  NoDup vs → endpoints_among vs es → (length vs + 2 ≤ fuel)%nat →
  ∃ g2 r, Graph2.init vs es = Ok g2 ∧
    Graph1.isConnected1 fuel (Graph1.init vs es) = Ok r ∧
    Graph1.isConnected2 fuel (Graph1.init vs es) = Ok r ∧
    Graph2.isConnected1 fuel g2 = Ok r ∧
    Graph2.isConnected2 fuel g2 = Ok r ∧
    (r = true ↔ is_connected (list_to_set vs) es).
Proof.
  intros Hnd Hes Hfuel.
  set (gr := py_dict ((λ v, (v, adj es v)) <$> vs)).
  pose proof (Graph1_init_closed vs es Hes) as Hc1.
  pose proof (Graph2_init_nbrs vs es Hes) as Hc2. fold gr in Hc2.
  assert (size gr = length vs) as Hsize by (by apply size_py_dict_fmap).
  assert (dom gr = list_to_set vs) as Hdom by apply py_dict_fmap_dom.
  destruct (Graph1_isConnected1_spec (Graph1.init vs es) fuel Hc1) as (r1 & H1 & Hr1); [lia|].
  destruct (Graph1_isConnected2_spec (Graph1.init vs es) fuel Hnd Hc1)
    as (r2 & H2 & Hr2); [simpl; lia|].
  destruct (Graph2_isConnected1_spec (Graph2.Graph2 gr) fuel Hc2) as (r3 & H3 & Hr3); [lia|].
  destruct (Graph2_isConnected2_spec (Graph2.Graph2 gr) fuel Hc2)
    as (r4 & H4 & Hr4); [simpl; lia|].
  simpl in Hr1, Hr2, Hr3, Hr4. rewrite Hdom in Hr3, Hr4.
  rewrite is_connected_norm in Hr1, Hr2.
  unfold gr in Hr3, Hr4. rewrite is_connected_init in Hr3, Hr4 by done.
  exists (Graph2.Graph2 gr), r1. rewrite Graph2_init_Ok by done.
  assert (r2 = r1) as -> by (destruct r1, r2; naive_solver).
  assert (r3 = r1) as -> by (destruct r1, r3; naive_solver).
  assert (r4 = r1) as -> by (destruct r1, r4; naive_solver).
  done.
Qed.

Lemma isConnected_agree_witness :
  ∃ g2 r, Graph2.init tester2.1 tester2.2 = Ok g2 ∧
    Graph1.isConnected1 8 (Graph1.init tester2.1 tester2.2) = Ok r ∧
    Graph1.isConnected2 8 (Graph1.init tester2.1 tester2.2) = Ok r ∧
    Graph2.isConnected1 8 g2 = Ok r ∧
    Graph2.isConnected2 8 g2 = Ok r ∧
    (r = true ↔ is_connected (list_to_set tester2.1) tester2.2).
Proof.
  apply (isConnected_agree tester2.1 tester2.2 8).
  - unfold tester2. simpl. repeat constructor; set_solver.
  - intros u v Hin. unfold tester2 in *. simpl in *. set_solver.
  - unfold tester2. simpl. lia.
Defined.
